(** * AnyODE decomposition strategies: a shallow embedding

    Embedding of [anyode_decomposition.hpp] and
    [anyode_decomposition_lapack.hpp] (namespace [AnyODE]): the strategies
    [DenseLU], [BandedLU], [DiagonalInv] and [SVD], each with its constructor,
    [factorize] and [solve].

    - [Real_t], the template parameter, is a type class [RealOps]; it is
      instantiated with IEEE binary64 ([double], the template's default) and
      with the exact rationals.
    - Buffers live in a heap of arrays addressed by locations, so that the
      non-owning matrix views, the caller's vectors [b] and [x] and the
      strategies' own workspace can be told apart and can alias.
    - Methods run in a state-and-fault monad over that heap; an access outside
      a buffer is a fault, and every allocation, release and backend call is
      recorded in a trace.
    - The LAPACK routines reached through the [*_callback] objects are a
      record [Backend] of functions over the arrays they are handed. *)

From Stdlib Require Import ZArith QArith Qcanon Qcabs Floats Ascii Lia.
From stdpp Require Import base option list gmap.

Local Open Scope Z_scope.

(** ** The type [int] *)

(** [int] has 32 bits on the platforms the library is built for.  The
    overflow of a signed product is undefined in C++; the compiled code
    wraps around in two's complement, which is what [int_mul] writes out. *)
Definition INT_MIN : Z := -2147483648.
Definition INT_MAX : Z := 2147483647.
Definition int_wrap (z : Z) : Z :=
  (z + 2147483648) mod 4294967296 - 2147483648.
Definition int_mul (a b : Z) : Z := int_wrap (a * b).

(** The [int] that a conversion delivers for the mathematical value [z].
    Outside the range of [int] the conversion is undefined in C++; the
    conversion instruction of the target delivers [INT_MIN] there. *)
Definition int_cast (z : Z) : Z :=
  if (INT_MIN <=? z) && (z <=? INT_MAX) then z else INT_MIN.

(** ** The numeric element type *)

(** What the code asks of [Real_t]: conversion from and to [int], the four
    operations it uses, [std::fabs] and [==].  [rsub] and [rleb] are only used
    to state least-squares properties. *)
Class RealOps (Real_t : Type) := {
  of_int : Z → Real_t;
  to_int : Real_t → Z;
  radd : Real_t → Real_t → Real_t;
  rsub : Real_t → Real_t → Real_t;
  rmul : Real_t → Real_t → Real_t;
  rdiv : Real_t → Real_t → Real_t;
  rfabs : Real_t → Real_t;
  req : Real_t → Real_t → bool;
  rleb : Real_t → Real_t → bool;
  req_zero : req (of_int 0) (of_int 0) = true
}.

(** Exact arithmetic: the identities of a field that the claims about
    reciprocals rely on, phrased with the operations of the code. *)
Class ExactArith (Real_t : Type) `{RealOps Real_t} : Prop := {
  recip_involutive :
    ∀ a : Real_t, a ≠ of_int 0 → rdiv (of_int 1) (rdiv (of_int 1) a) = a;
  recip_mul_div :
    ∀ a b : Real_t, a ≠ of_int 0 → rmul (rdiv (of_int 1) a) b = rdiv b a
}.

(** A value is its own absolute value (sign bit clear, or not a number); the
    quotient of two such values is again one. *)
Class FabsRatio (Real_t : Type) `{RealOps Real_t} : Prop :=
  fabs_ratio :
    ∀ a b : Real_t, rfabs a = a → rfabs b = b → rfabs (rdiv a b) = rdiv a b.

Module Double.
(** [double]: IEEE 754 binary64, round to nearest even. *)
Definition float_of_int (z : Z) : float :=
  match z with
  | Z0 => PrimFloat.zero
  | Zpos _ => PrimFloat.of_uint63 (Uint63.of_Z z)
  | Zneg p => PrimFloat.opp (PrimFloat.of_uint63 (Uint63.of_Z (Zpos p)))
  end.

(** [static_cast<int>]: truncation toward zero where the truncated value
    is an [int]; on values outside [int], on infinities and on NaN the cast
    is undefined and delivers [INT_MIN] (see [int_cast]). *)
Definition float_to_int (f : float) : Z :=
  match Prim2SF f with
  | S754_finite s m e =>
      let v := if 0 <=? e then Zpos m * 2 ^ e else Zpos m / 2 ^ (- e) in
      int_cast (if s then - v else v)
  | S754_zero _ => 0
  | S754_infinity _ | S754_nan => INT_MIN
  end.

#[global] Instance ops : RealOps float := {|
  of_int := float_of_int;
  to_int := float_to_int;
  radd := PrimFloat.add;
  rsub := PrimFloat.sub;
  rmul := PrimFloat.mul;
  rdiv := PrimFloat.div;
  rfabs := PrimFloat.abs;
  req := PrimFloat.eqb;
  rleb := PrimFloat.leb;
  req_zero := eq_refl
|}.
End Double.

Module Exact.
(** The rationals in canonical form: arithmetic without rounding. *)
Definition Qc_of_int (z : Z) : Qc := Q2Qc (inject_Z z).
Definition Qc_to_int (q : Qc) : Z :=
  int_cast (Z.quot (Qnum q) (Zpos (Qden q))).
Definition Qc_leb (a b : Qc) : bool := Qle_bool a b.

#[global] Instance ops : RealOps Qc := {|
  of_int := Qc_of_int;
  to_int := Qc_to_int;
  radd := Qcplus;
  rsub := Qcminus;
  rmul := Qcmult;
  rdiv := Qcdiv;
  rfabs := Qcabs;
  req := Qc_eq_bool;
  rleb := Qc_leb;
  req_zero := eq_refl
|}.
End Exact.

(** ** Memory *)

Definition loc := positive.

(** The backend primitives a strategy can call. *)
Inductive prim := Getrf | Getrs | Gbtrf | Gbtrs | Gesvd | Gemv.

Inductive event :=
  | EvAlloc (p : loc) (n : nat)      (* buffer_factory<Real_t>(n) *)
  | EvAllocInt (p : loc) (n : nat)   (* buffer_factory<int>(n) *)
  | EvFree (p : loc)                 (* a local buffer goes out of scope *)
  | EvCall (f : prim).

Inductive fault := OutOfBounds | Dangling | BadAlloc.

Section Memory.
Context {Real_t : Type} `{RealOps Real_t}.

Record heap := Heap {
  reals : gmap loc (list Real_t);
  ints : gmap loc (list Z);
  trace : list event
}.

Inductive res (A : Type) :=
  | Ok (a : A) (h : heap)
  | Fault (f : fault).
Arguments Ok {A}.
Arguments Fault {A}.

Definition M (A : Type) : Type := heap → res A.

Definition ret {A} (a : A) : M A := λ h, Ok a h.
Definition bind {A B} (m : M A) (k : A → M B) : M B :=
  λ h, match m h with Ok a h' => k a h' | Fault f => Fault f end.
Definition raise {A} (f : fault) : M A := λ _, Fault f.

(** Array access by a C [int] index. *)
Definition rd {A} (l : list A) (i : Z) : option A :=
  if 0 <=? i then l !! Z.to_nat i else None.
Definition wr {A} (l : list A) (i : Z) (v : A) : option (list A) :=
  if (0 <=? i) && (Z.to_nat i <? length l)%nat
  then Some (<[Z.to_nat i := v]> l) else None.

(** The element at index [i] (zero outside the array; only used where the
    index is known to be inside). *)
Definition elem (l : list Real_t) (i : nat) : Real_t :=
  default (of_int 0) (l !! i).

(** The heap with the array at [p] replaced. *)
Definition upd (h : heap) (p : loc) (l : list Real_t) : heap :=
  Heap (<[p := l]> (reals h)) (ints h) (trace h).

(** [p[i]] as an rvalue and as the target of an assignment. *)
Definition load (p : loc) (i : Z) : M Real_t := λ h,
  match reals h !! p with
  | None => Fault Dangling
  | Some l => match rd l i with
              | Some v => Ok v h
              | None => Fault OutOfBounds
              end
  end.
Definition store (p : loc) (i : Z) (v : Real_t) : M unit := λ h,
  match reals h !! p with
  | None => Fault Dangling
  | Some l => match wr l i v with
              | Some l' => Ok tt (upd h p l')
              | None => Fault OutOfBounds
              end
  end.

(** Handing a raw pointer to a backend routine: the routine sees the whole
    array, and what it leaves there is written back into the same storage,
    whose extent a callee cannot change. *)
Definition overwrite {A} (old new : list A) : list A :=
  take (length old) new ++ drop (length new) old.

Definition read_buf (p : loc) : M (list Real_t) := λ h,
  match reals h !! p with
  | None => Fault Dangling
  | Some l => Ok l h
  end.
Definition write_back (p : loc) (new : list Real_t) : M unit := λ h,
  match reals h !! p with
  | None => Fault Dangling
  | Some l => Ok tt (upd h p (overwrite l new))
  end.
Definition read_ints (p : loc) : M (list Z) := λ h,
  match ints h !! p with
  | None => Fault Dangling
  | Some l => Ok l h
  end.
Definition write_back_ints (p : loc) (new : list Z) : M unit := λ h,
  match ints h !! p with
  | None => Fault Dangling
  | Some l => Ok tt (Heap (reals h) (<[p := overwrite l new]> (ints h)) (trace h))
  end.

Definition emit (e : event) : M unit := λ h,
  Ok tt (Heap (reals h) (ints h) (trace h ++ [e])).

(** Modelled from the spec: [buffer_factory] and [buffer_t] of
    [anyode_buffer.hpp], which is not part of the sources: "fixed-size
    scratch allocations ... sized at construction time".  A fresh array of
    [n] elements (zero-filled here), recorded in the trace; a negative size
    is an allocation failure. *)
Definition buffer_factory (n : Z) : M loc := λ h,
  if n <? 0 then Fault BadAlloc else
  let p := fresh (dom (reals h)) in
  Ok p (Heap (<[p := replicate (Z.to_nat n) (of_int 0)]> (reals h)) (ints h)
             (trace h ++ [EvAlloc p (Z.to_nat n)])).
Definition buffer_factory_int (n : Z) : M loc := λ h,
  if n <? 0 then Fault BadAlloc else
  let p := fresh (dom (ints h)) in
  Ok p (Heap (reals h) (<[p := replicate (Z.to_nat n) 0]> (ints h))
             (trace h ++ [EvAllocInt p (Z.to_nat n)])).
(** The end of a local buffer's scope. *)
Definition buffer_release (p : loc) : M unit := λ h,
  Ok tt (Heap (delete p (reals h)) (ints h) (trace h ++ [EvFree p])).
End Memory.

Arguments heap : clear implicits.
Arguments res : clear implicits.
Arguments M : clear implicits.
Arguments Ok {Real_t A}.
Arguments Fault {Real_t A}.

#[global] Instance M_ret {Real_t} : MRet (M Real_t) := λ A, ret.
#[global] Instance M_bind {Real_t} : MBind (M Real_t) := λ A B k m, bind m k.

Section Loops.
Context {Real_t : Type} `{RealOps Real_t}.

(** [for (int i = i0; i < i0 + k; ++i) body(i);] *)
Fixpoint for_loop (body : Z → M Real_t unit) (i : Z) (k : nat) : M Real_t unit :=
  match k with
  | O => mret tt
  | S k' => body i ;; for_loop body (i + 1) k'
  end.

(** [for (int i = 0; i < n; ++i) body(i);] *)
Definition for_range (n : Z) (body : Z → M Real_t unit) : M Real_t unit :=
  for_loop body 0 (Z.to_nat n).

(** [std::copy(src, src + n, dst)] *)
Definition std_copy (src : loc) (n : Z) (dst : loc) : M Real_t unit :=
  for_range n (λ i, v ← load src i; store dst i v).
End Loops.

(** ** The numeric backend *)

Section Backend.
Context {Real_t : Type} `{RealOps Real_t}.

(** Modelled from the spec: [gemv_callback] of [anyode_blas_lapack.hpp],
    which is not part of the sources: "general matrix-vector multiply (with
    a transpose flag)", that is BLAS [gemv],
    [y := alpha*op(A)*x + beta*y] on a column-major [m]-by-[n] array [a]
    with leading dimension [lda] ([A(i,j)] is [a[i + j*lda]]), with
    non-negative strides.  When [beta] is zero [y] is not read. *)

(** [temp = 0; for i < m: temp += A(i,j) * x[i*incx]] *)
Fixpoint dot_col (a : list Real_t) (lda : Z) (x : list Real_t) (incx : Z)
    (j i : Z) (k : nat) (temp : Real_t) : option Real_t :=
  match k with
  | O => Some temp
  | S k' =>
      aij ← rd a (i + j * lda);
      xi ← rd x (i * incx);
      dot_col a lda x incx j (i + 1) k' (radd temp (rmul aij xi))
  end.

(** The value [beta*y[idx]] that the product is added to. *)
Definition scaled (beta : Real_t) (y : list Real_t) (idx : Z) : option Real_t :=
  if req beta (of_int 0) then Some (of_int 0) else rmul beta <$> rd y idx.

(** [op(A) = Aᵀ]: for j < n: [y[j*incy] = beta*y[j*incy] + alpha * temp_j]. *)
Fixpoint gemv_T (m : Z) (alpha : Real_t) (a : list Real_t) (lda : Z)
    (x : list Real_t) (incx : Z) (beta : Real_t) (incy : Z)
    (j : Z) (k : nat) (y : list Real_t) : option (list Real_t) :=
  match k with
  | O => Some y
  | S k' =>
      temp ← dot_col a lda x incx j 0 (Z.to_nat m) (of_int 0);
      y0 ← scaled beta y (j * incy);
      y' ← wr y (j * incy) (radd y0 (rmul alpha temp));
      gemv_T m alpha a lda x incx beta incy (j + 1) k' y'
  end.

(** [op(A) = A]: first [y := beta*y], then for j < n, for i < m:
    [y[i*incy] += (alpha * x[j*incx]) * A(i,j)]. *)
Fixpoint scale_y (beta : Real_t) (incy : Z) (i : Z) (k : nat)
    (y : list Real_t) : option (list Real_t) :=
  match k with
  | O => Some y
  | S k' =>
      y0 ← scaled beta y (i * incy);
      y' ← wr y (i * incy) y0;
      scale_y beta incy (i + 1) k' y'
  end.
Fixpoint axpy_col (temp : Real_t) (a : list Real_t) (lda : Z) (incy : Z)
    (j i : Z) (k : nat) (y : list Real_t) : option (list Real_t) :=
  match k with
  | O => Some y
  | S k' =>
      aij ← rd a (i + j * lda);
      yi ← rd y (i * incy);
      y' ← wr y (i * incy) (radd yi (rmul temp aij));
      axpy_col temp a lda incy j (i + 1) k' y'
  end.
Fixpoint gemv_N (m : Z) (alpha : Real_t) (a : list Real_t) (lda : Z)
    (x : list Real_t) (incx : Z) (incy : Z)
    (j : Z) (k : nat) (y : list Real_t) : option (list Real_t) :=
  match k with
  | O => Some y
  | S k' =>
      xj ← rd x (j * incx);
      y' ← axpy_col (rmul alpha xj) a lda incy j 0 (Z.to_nat m) y;
      gemv_N m alpha a lda x incx incy (j + 1) k' y'
  end.

Definition gemv (trans : ascii) (m n : Z) (alpha : Real_t) (a : list Real_t)
    (lda : Z) (x : list Real_t) (incx : Z) (beta : Real_t)
    (y : list Real_t) (incy : Z) : option (list Real_t) :=
  if Ascii.eqb trans "N" then
    y0 ← scale_y beta incy 0 (Z.to_nat m) y;
    gemv_N m alpha a lda x incx incy 0 (Z.to_nat n) y0
  else
    gemv_T m alpha a lda x incx beta incy 0 (Z.to_nat n) y.

(** A call through [gemv_callback] with the three arrays given by pointer. *)
Definition call_gemv (trans : ascii) (m n : Z) (alpha : Real_t) (a : loc)
    (lda : Z) (x : loc) (incx : Z) (beta : Real_t) (y : loc) (incy : Z)
    : M Real_t unit :=
  A ← read_buf a;
  X ← read_buf x;
  Y ← read_buf y;
  emit (EvCall Gemv);;
  match gemv trans m n alpha A lda X incx beta Y incy with
  | Some Y' => write_back y Y'
  | None => raise OutOfBounds
  end.

(** The LAPACK routines behind [getrf_callback], [getrs_callback],
    [gbtrf_callback], [gbtrs_callback] and [gesvd_callback].  They are
    external to the repository; each is a function from the arrays it is
    given a (non-const) pointer to and its scalar arguments, to what it
    leaves in those arrays and the status [info]. *)
Record Backend := {
  (* m n a lda ipiv  ↦  a, ipiv, info *)
  getrf : Z → Z → list Real_t → Z → list Z → list Real_t * list Z * Z;
  (* trans n nrhs a lda ipiv b ldb  ↦  a, ipiv, b, info *)
  getrs : ascii → Z → Z → list Real_t → Z → list Z → list Real_t → Z →
          list Real_t * list Z * list Real_t * Z;
  (* m n kl ku ab ldab ipiv  ↦  ab, ipiv, info *)
  gbtrf : Z → Z → Z → Z → list Real_t → Z → list Z →
          list Real_t * list Z * Z;
  (* trans n kl ku nrhs ab ldab ipiv b ldb  ↦  ab, ipiv, b, info *)
  gbtrs : ascii → Z → Z → Z → Z → list Real_t → Z → list Z → list Real_t → Z →
          list Real_t * list Z * list Real_t * Z;
  (* jobu jobvt m n a lda s u ldu vt ldvt work lwork  ↦
     a, s, u, vt, work, info *)
  gesvd : ascii → ascii → Z → Z → list Real_t → Z → list Real_t →
          list Real_t → Z → list Real_t → Z → list Real_t → Z →
          list Real_t * list Real_t * list Real_t * list Real_t *
          list Real_t * Z
}.

(** What LAPACK documents about the solve routines: the factors and the
    pivot indices are input only. *)
Definition solve_reads_factors (bk : Backend) : Prop :=
  (∀ trans n nrhs a lda ipiv b ldb,
     (getrs bk trans n nrhs a lda ipiv b ldb).1.1 = (a, ipiv)) ∧
  (∀ trans n kl ku nrhs ab ldab ipiv b ldb,
     (gbtrs bk trans n kl ku nrhs ab ldab ipiv b ldb).1.1 = (ab, ipiv)).

(** Calls through the LU callbacks, arrays given by pointer. *)
Definition call_getrf (bk : Backend) (m n : Z) (a : loc) (lda : Z) (ipiv : loc)
    : M Real_t Z :=
  A ← read_buf a;
  P ← read_ints ipiv;
  emit (EvCall Getrf);;
  let '(A', P', info) := getrf bk m n A lda P in
  write_back a A';;
  write_back_ints ipiv P';;
  mret info.

Definition call_getrs (bk : Backend) (trans : ascii) (n nrhs : Z) (a : loc)
    (lda : Z) (ipiv : loc) (b : loc) (ldb : Z) : M Real_t Z :=
  A ← read_buf a;
  P ← read_ints ipiv;
  B ← read_buf b;
  emit (EvCall Getrs);;
  let '(A', P', B', info) := getrs bk trans n nrhs A lda P B ldb in
  write_back a A';;
  write_back_ints ipiv P';;
  write_back b B';;
  mret info.

Definition call_gbtrf (bk : Backend) (m n kl ku : Z) (ab : loc) (ldab : Z)
    (ipiv : loc) : M Real_t Z :=
  A ← read_buf ab;
  P ← read_ints ipiv;
  emit (EvCall Gbtrf);;
  let '(A', P', info) := gbtrf bk m n kl ku A ldab P in
  write_back ab A';;
  write_back_ints ipiv P';;
  mret info.

Definition call_gbtrs (bk : Backend) (trans : ascii) (n kl ku nrhs : Z)
    (ab : loc) (ldab : Z) (ipiv : loc) (b : loc) (ldb : Z) : M Real_t Z :=
  A ← read_buf ab;
  P ← read_ints ipiv;
  B ← read_buf b;
  emit (EvCall Gbtrs);;
  let '(A', P', B', info) := gbtrs bk trans n kl ku nrhs A ldab P B ldb in
  write_back ab A';;
  write_back_ints ipiv P';;
  write_back b B';;
  mret info.
End Backend.

Arguments Backend : clear implicits.

(** ** Matrix views *)

(** Modelled from the spec: the views of [anyode_matrix.hpp], which is not
    part of the sources.  "DenseMatrixView: rows, cols, leading_dimension,
    pointer to column-major element buffer"; the banded view adds the lower
    and upper bandwidths; "DiagonalMatrixView: size, pointer to a contiguous
    array of diagonal entries".  The fields carry the names the strategies
    use. *)
Module DenseMatrix.
Record t := { m_data : loc; m_nr : Z; m_nc : Z; m_ld : Z }.
End DenseMatrix.

Module BandedMatrix.
Record t := { m_data : loc; m_nr : Z; m_nc : Z; m_ld : Z; m_kl : Z; m_ku : Z }.
End BandedMatrix.

Module DiagonalMatrix.
Record t := { m_data : loc; m_nc : Z }.
End DiagonalMatrix.

(** ** The strategies *)

Module DenseLU.
Import DenseMatrix.
Record t := { m_view : DenseMatrix.t; m_ipiv : loc }.

Section WithReal.
Context {Real_t : Type} `{RealOps Real_t} (bk : Backend Real_t).

Definition ctor (view : DenseMatrix.t) : M Real_t t :=
  ipiv ← buffer_factory_int (m_nr view);
  mret {| m_view := view; m_ipiv := ipiv |}.

Definition factorize (self : t) : M Real_t Z :=
  let v := m_view self in
  call_getrf bk (m_nr v) (m_nc v) (m_data v) (m_ld v) (m_ipiv self).

Definition solve (self : t) (b x : loc) : M Real_t Z :=
  let v := m_view self in
  let trans := "N"%char in
  let nrhs := 1 in
  std_copy b (m_nr v) x;;
  call_getrs bk trans (m_nr v) nrhs (m_data v) (m_ld v) (m_ipiv self)
             x (m_nr v).
End WithReal.
End DenseLU.

Module BandedLU.
Import BandedMatrix.
Record t := { m_view : BandedMatrix.t; m_ipiv : loc }.

Section WithReal.
Context {Real_t : Type} `{RealOps Real_t} (bk : Backend Real_t).

Definition ctor (view : BandedMatrix.t) : M Real_t t :=
  ipiv ← buffer_factory_int (m_nr view);
  mret {| m_view := view; m_ipiv := ipiv |}.

Definition factorize (self : t) : M Real_t Z :=
  let v := m_view self in
  call_gbtrf bk (m_nr v) (m_nc v) (m_kl v) (m_ku v) (m_data v) (m_ld v)
             (m_ipiv self).

Definition solve (self : t) (b x : loc) : M Real_t Z :=
  let v := m_view self in
  let trans := "N"%char in
  let nrhs := 1 in
  std_copy b (m_nr v) x;;
  call_gbtrs bk trans (m_nr v) (m_kl v) (m_ku v) nrhs (m_data v) (m_ld v)
             (m_ipiv self) x (m_nr v).
End WithReal.
End BandedLU.

Module DiagonalInv.
Import DiagonalMatrix.
Record t := { m_view : DiagonalMatrix.t }.

Section WithReal.
Context {Real_t : Type} `{RealOps Real_t}.

Definition ctor (view : DiagonalMatrix.t) : M Real_t t :=
  mret {| m_view := view |}.

Definition factorize (self : t) : M Real_t Z :=
  let v := m_view self in
  for_range (m_nc v) (λ i,
    d ← load (m_data v) i;
    store (m_data v) i (rdiv (of_int 1) d));;
  mret 0.

Definition solve (self : t) (b x : loc) : M Real_t Z :=
  let v := m_view self in
  for_range (m_nc v) (λ i,
    d ← load (m_data v) i;
    bi ← load b i;
    store x i (rmul d bi));;
  mret 0.
End WithReal.
End DiagonalInv.

Module SVD.
Import DenseMatrix.

Section WithReal.
Context {Real_t : Type} `{RealOps Real_t}.

Record t := {
  m_view : DenseMatrix.t;
  m_s : loc;
  m_ldu : Z;
  m_u : loc;
  m_ldvt : Z;
  m_vt : loc;
  m_work : loc;
  m_lwork : Z;
  m_condition_number : Real_t
}.

Definition set_condition_number (self : t) (c : Real_t) : t :=
  {| m_view := m_view self; m_s := m_s self; m_ldu := m_ldu self;
     m_u := m_u self; m_ldvt := m_ldvt self; m_vt := m_vt self;
     m_work := m_work self; m_lwork := m_lwork self;
     m_condition_number := c |}.

Context (bk : Backend Real_t).

(** The call [gesvd(&mode, &mode, &m_nr, &m_nc, m_data, &m_ld, m_s, m_u,
    &m_ldu, m_vt, &m_ldvt, work, &lwork, &info)]; the work array is held
    by the caller (a local scalar in the constructor, [m_work] in
    [factorize]). *)
Definition call_gesvd (v : DenseMatrix.t) (s : loc) (ldu : Z) (u : loc)
    (ldvt : Z) (vt : loc) (work : list Real_t) (lwork : Z)
    : M Real_t (list Real_t * Z) :=
  let mode := "A"%char in
  A ← read_buf (m_data v);
  S ← read_buf s;
  U ← read_buf u;
  VT ← read_buf vt;
  emit (EvCall Gesvd);;
  let '(A', S', U', VT', work', info) :=
    gesvd bk mode mode (m_nr v) (m_nc v) A (m_ld v) S U ldu VT ldvt
          work lwork in
  write_back (m_data v) A';;
  write_back s S';;
  write_back u U';;
  write_back vt VT';;
  mret (overwrite work work', info).

Definition ctor (view : DenseMatrix.t) : M Real_t t :=
  s ← buffer_factory (Z.min (m_nr view) (m_nc view));
  let ldu := m_nr view in
  u ← buffer_factory (int_mul ldu (m_nr view));
  let ldvt := m_nc view in
  vt ← buffer_factory (int_mul ldvt (m_nc view));
  let lwork := -1 in
  let condition_number := of_int (-1) in
  '(w, info) ← call_gesvd view s ldu u ldvt vt [of_int 0] lwork;
  let optim_work_size := default (of_int 0) (head w) in
  let lwork := to_int optim_work_size in
  work ← buffer_factory lwork;
  mret {| m_view := view; m_s := s; m_ldu := ldu; m_u := u;
          m_ldvt := ldvt; m_vt := vt; m_work := work; m_lwork := lwork;
          m_condition_number := condition_number |}.

Definition factorize (self : t) : M Real_t (Z * t) :=
  let v := m_view self in
  W ← read_buf (m_work self);
  '(W', info) ← call_gesvd v (m_s self) (m_ldu self) (m_u self)
                  (m_ldvt self) (m_vt self) W (m_lwork self);
  write_back (m_work self) W';;
  s0 ← load (m_s self) 0;
  sl ← load (m_s self) (Z.min (m_nr v) (m_nc v) - 1);
  mret (info, set_condition_number self (rfabs (rdiv s0 sl))).

(** [for (int i=0; i < m_view->m_nr; ++i) y1[i] /= m_s[i];] *)
Definition divide_by_singular_values (self : t) (y1 : loc) : M Real_t unit :=
  for_range (m_nr (m_view self)) (λ i,
    yi ← load y1 i;
    si ← load (m_s self) i;
    store y1 i (rdiv yi si)).

Definition solve (self : t) (b x : loc) : M Real_t Z :=
  let v := m_view self in
  let alpha := of_int 1 in
  let beta := of_int 0 in
  let incx := 1 in
  let incy := 1 in
  let trans := "T"%char in
  y1 ← buffer_factory (m_nr v);
  call_gemv trans (m_nr v) (m_nr v) alpha (m_u self) (m_ldu self)
            b incx beta y1 incy;;
  divide_by_singular_values self y1;;
  call_gemv trans (m_nc v) (m_nc v) alpha (m_vt self) (m_ldvt self)
            y1 incx beta x incy;;
  buffer_release y1;;
  mret 0.
(** A method call on an instance, and what it leaves of the instance:
    [factorize] assigns [m_condition_number]; [solve] assigns no member. *)
Inductive call := Factorize | Solve (b x : loc).

Definition invoke (self : t) (c : call) : M Real_t (Z * t) :=
  match c with
  | Factorize => factorize self
  | Solve b x => r ← solve self b x; mret (r, self)
  end.

Fixpoint invoke_all (self : t) (cs : list call) : M Real_t t :=
  match cs with
  | [] => mret self
  | c :: cs' => '(_, self') ← invoke self c; invoke_all self' cs'
  end.
End WithReal.

Arguments t : clear implicits.
End SVD.

(** ** A reduced backend

    A dependency-free backend that is exact on diagonal matrices (for the
    SVD: with a non-negative, descending diagonal): the factors of such a
    matrix are identity matrices and its own diagonal.  It needs no scratch
    space and answers a workspace query with the size 1.  It serves to run
    the strategies on concrete systems. *)
Module DiagBackend.
Section WithReal.
Context {Real_t : Type} `{RealOps Real_t}.

(** The entries [off + i + i*ld], [i < k], of a column-major array. *)
Definition diagonal (a : list Real_t) (off ld : Z) (k : nat) : list Real_t :=
  (λ i : nat, default (of_int 0) (rd a (off + Z.of_nat i + Z.of_nat i * ld)))
    <$> seq 0 k.

(** The [n]-by-[n] identity, column-major with leading dimension [ld]. *)
Definition identity (n ld : nat) : list Real_t :=
  j ← seq 0 n;
  (λ i : nat, if (i =? j)%nat then of_int 1 else of_int 0) <$> seq 0 ld.

(** 1-based index of the first zero entry, 0 if there is none. *)
Fixpoint first_zero (d : list Real_t) (i : Z) : Z :=
  match d with
  | [] => 0
  | a :: d' => if req a (of_int 0) then i else first_zero d' (i + 1)
  end.

Definition no_pivoting (k : nat) : list Z :=
  (λ i : nat, Z.of_nat i + 1) <$> seq 0 k.

Definition divide (b d : list Real_t) : list Real_t :=
  zip_with rdiv (take (length d) b) d ++ drop (length d) b.

Definition backend : Backend Real_t := {|
  getrf m n a lda ipiv :=
    let k := Z.to_nat (Z.min m n) in
    (a, no_pivoting k, first_zero (diagonal a 0 lda k) 1);
  getrs trans n nrhs a lda ipiv b ldb :=
    (a, ipiv, divide b (diagonal a 0 lda (Z.to_nat n)), 0);
  gbtrf m n kl ku ab ldab ipiv :=
    let k := Z.to_nat (Z.min m n) in
    (ab, no_pivoting k, first_zero (diagonal ab (kl + ku) (ldab - 1) k) 1);
  gbtrs trans n kl ku nrhs ab ldab ipiv b ldb :=
    (ab, ipiv, divide b (diagonal ab (kl + ku) (ldab - 1) (Z.to_nat n)), 0);
  gesvd jobu jobvt m n a lda s u ldu vt ldvt work lwork :=
    if lwork <? 0 then
      (a, s, u, vt, [of_int 1], 0)
    else
      (a, diagonal a 0 lda (Z.to_nat (Z.min m n)),
       identity (Z.to_nat m) (Z.to_nat ldu),
       identity (Z.to_nat n) (Z.to_nat ldvt), work, 0)
|}.
End WithReal.
End DiagBackend.

(** ** Vocabulary of the specification *)

Section Vocabulary.
Context {Real_t : Type} `{RealOps Real_t}.

(** The heap after one more event. *)
Definition log (h : heap Real_t) (e : event) : heap Real_t :=
  Heap (reals h) (ints h) (trace h ++ [e]).

(** The sum of [f 0 .. f (n-1)], accumulated from zero, left to right. *)
Definition sum_n (n : nat) (f : nat → Real_t) : Real_t :=
  fold_left (λ acc i, radd acc (f i)) (seq 0 n) (of_int 0).

(** Entry [(i, j)] of a column-major array with leading dimension [ld]. *)
Definition entry (a : list Real_t) (ld : nat) (i j : nat) : Real_t :=
  elem a (i + j * ld).

(** Component [j] of [Aᵀ x] for the [m]-by-[n] matrix held in [a], as [gemv]
    delivers it for [alpha = 1], [beta = 0]: [0 + 1 * Σ_i A(i,j) x(i)]. *)
Definition transpose_times (a : list Real_t) (ld m : nat) (x : list Real_t)
    (j : nat) : Real_t :=
  radd (of_int 0)
       (rmul (of_int 1) (sum_n m (λ i, rmul (entry a ld i j) (elem x i)))).

(** [Σ⁻¹ Uᵀ b]: component [k] of [Uᵀ b] divided by the singular value [s k]. *)
Definition scaled_projection (U S : list Real_t) (n : nat) (b : list Real_t)
    : list Real_t :=
  (λ k, rdiv (transpose_times U n n b k) (elem S k)) <$> seq 0 n.

(** [x = V Σ⁻¹ Uᵀ b] for square factors of order [n]; [VT] holds [Vᵀ], so
    that [V y] is the transposed product with [VT]. *)
Definition V_Sinv_Ut (U S VT : list Real_t) (n : nat) (b : list Real_t)
    : list Real_t :=
  (λ j, transpose_times VT n n (scaled_projection U S n b) j) <$> seq 0 n.

(** Least squares, for the [n]-by-[n] matrix held column-major in [a]:
    [‖A x − b‖²], [‖x‖²], and the minimum-norm least-squares solution. *)
Definition times (a : list Real_t) (n : nat) (x : list Real_t) : list Real_t :=
  (λ i, sum_n n (λ j, rmul (entry a n i j) (elem x j))) <$> seq 0 n.
Definition norm2 (x : list Real_t) : Real_t :=
  sum_n (length x) (λ i, rmul (elem x i) (elem x i)).
Definition residual2 (a : list Real_t) (n : nat) (b x : list Real_t) : Real_t :=
  norm2 (zip_with rsub (times a n x) b).
Definition is_number (r : Real_t) : Prop := req r r = true.
(** [x] has a residual that is a number and that no vector with a residual
    that is a number undercuts. *)
Definition least_squares (a : list Real_t) (n : nat) (b x : list Real_t)
    : Prop :=
  length x = n ∧ is_number (residual2 a n b x) ∧
  ∀ y, length y = n → is_number (residual2 a n b y) →
       rleb (residual2 a n b x) (residual2 a n b y) = true.
(** Among the least-squares solutions, one of least norm. *)
Definition min_norm_least_squares (a : list Real_t) (n : nat)
    (b x : list Real_t) : Prop :=
  least_squares a n b x ∧
  ∀ y, least_squares a n b y → rleb (norm2 x) (norm2 y) = true.

(** The product [U Σ Vᵀ] of square factors of order [n], column-major. *)
Definition U_S_Vt (U S VT : list Real_t) (n : nat) : list Real_t :=
  j ← seq 0 n;
  (λ i, sum_n n (λ k, rmul (rmul (entry U n i k) (elem S k)) (entry VT n k j)))
    <$> seq 0 n.

(** An [SVD] instance as its constructor leaves it, on a heap that holds its
    buffers, each with the size the constructor gave it, and the caller's
    vectors: [b] with one entry per row, [x] with one per column, [x] apart
    from every array that [solve] reads. *)
Record svd_ready (self : SVD.t Real_t) (b x : loc) (h : heap Real_t)
    (U S VT B X : list Real_t) : Prop := {
  ready_nr : 0 ≤ DenseMatrix.m_nr (SVD.m_view self);
  ready_nc : 0 ≤ DenseMatrix.m_nc (SVD.m_view self);
  ready_ldu : SVD.m_ldu self = DenseMatrix.m_nr (SVD.m_view self);
  ready_ldvt : SVD.m_ldvt self = DenseMatrix.m_nc (SVD.m_view self);
  ready_s : reals h !! SVD.m_s self = Some S;
  ready_s_len :
    length S = Z.to_nat (Z.min (DenseMatrix.m_nr (SVD.m_view self))
                               (DenseMatrix.m_nc (SVD.m_view self)));
  ready_u : reals h !! SVD.m_u self = Some U;
  ready_u_len :
    length U = Z.to_nat (SVD.m_ldu self * DenseMatrix.m_nr (SVD.m_view self));
  ready_vt : reals h !! SVD.m_vt self = Some VT;
  ready_vt_len :
    length VT = Z.to_nat (SVD.m_ldvt self * DenseMatrix.m_nc (SVD.m_view self));
  ready_b : reals h !! b = Some B;
  ready_b_len : length B = Z.to_nat (DenseMatrix.m_nr (SVD.m_view self));
  ready_x : reals h !! x = Some X;
  ready_x_len : length X = Z.to_nat (DenseMatrix.m_nc (SVD.m_view self));
  ready_apart : x ∉ [SVD.m_s self; SVD.m_u self; SVD.m_vt self; b]
}.

(** The heap once [y1] holds [Uᵀ b]. *)
Definition after_first_product (h : heap Real_t) (n : nat) (U B : list Real_t)
    : heap Real_t :=
  let y1 := fresh (dom (reals h)) in
  Heap (<[y1 := transpose_times U n n B <$> seq 0 n]> (reals h)) (ints h)
       (trace h ++ [EvAlloc y1 n; EvCall Gemv]).

(** The backend answers a workspace query (a call with [lwork = -1]) with a
    size whose conversion to [int] is not negative; an answer that is not a
    number or lies outside [int] converts to [INT_MIN] and is excluded. *)
Definition query_answers_size (bk : Backend Real_t) : Prop :=
  ∀ jobu jobvt m n a lda s u ldu vt ldvt w,
    0 ≤ to_int (default (of_int 0) (head (overwrite w
           (gesvd bk jobu jobvt m n a lda s u ldu vt ldvt w (-1)).1.2))).

(** Relations between the heap before and the heap after a run. *)

(** Outside the arrays [E], every real array is as it was, and so is every
    integer array. *)
Definition same_except (E : list loc) (h h' : heap Real_t) : Prop :=
  (∀ p, p ∉ E → reals h' !! p = reals h !! p) ∧ ints h' = ints h.

(** Outside [E], every array that existed still exists with its size. *)
Definition sizes_kept_except (E : list loc) (h h' : heap Real_t) : Prop :=
  (∀ p l, p ∉ E → reals h !! p = Some l →
          ∃ l', reals h' !! p = Some l' ∧ length l' = length l)
  ∧ (∀ p l, ints h !! p = Some l →
            ∃ l', ints h' !! p = Some l' ∧ length l' = length l).

(** Every run of [m] that returns relates its two heaps by [R]. *)
Definition preserves {A} (R : heap Real_t → heap Real_t → Prop)
    (m : M Real_t A) : Prop :=
  ∀ h a h', m h = Ok a h' → R h h'.

(** An [SVD] instance on a heap that holds the view's storage and its four
    buffers, all distinct, over a view with at least one row and column. *)
Record svd_allocated (self : SVD.t Real_t) (h : heap Real_t)
    (A S U VT W : list Real_t) : Prop := {
  allocated_data : reals h !! DenseMatrix.m_data (SVD.m_view self) = Some A;
  allocated_s : reals h !! SVD.m_s self = Some S;
  allocated_u : reals h !! SVD.m_u self = Some U;
  allocated_vt : reals h !! SVD.m_vt self = Some VT;
  allocated_work : reals h !! SVD.m_work self = Some W;
  allocated_apart :
    NoDup [DenseMatrix.m_data (SVD.m_view self); SVD.m_s self; SVD.m_u self;
           SVD.m_vt self; SVD.m_work self];
  allocated_s_len :
    length S = Z.to_nat (Z.min (DenseMatrix.m_nr (SVD.m_view self))
                               (DenseMatrix.m_nc (SVD.m_view self)));
  allocated_nonempty :
    1 ≤ Z.min (DenseMatrix.m_nr (SVD.m_view self))
              (DenseMatrix.m_nc (SVD.m_view self))
}.

(** What the backend leaves in [m_s] when [factorize] calls it. *)
Definition singular_values_after (bk : Backend Real_t) (self : SVD.t Real_t)
    (A S U VT W : list Real_t) : list Real_t :=
  let v := SVD.m_view self in
  overwrite S
    (gesvd bk "A" "A" (DenseMatrix.m_nr v) (DenseMatrix.m_nc v) A
           (DenseMatrix.m_ld v) S U (SVD.m_ldu self) VT (SVD.m_ldvt self) W
           (SVD.m_lwork self)).1.1.1.1.2.

(** The sizes of the allocations recorded in a trace, in order. *)
Definition allocations (tr : list event) : list nat :=
  omap (λ e, match e with
             | EvAlloc _ n | EvAllocInt _ n => Some n
             | _ => None
             end) tr.

(** No allocation is recorded between the two heaps. *)
Definition no_allocation (h h' : heap Real_t) : Prop :=
  allocations (trace h') = allocations (trace h).

(** The two relations that say that a run neither allocates nor resizes. *)
Definition settled (h h' : heap Real_t) : Prop :=
  no_allocation h h' ∧ sizes_kept_except [] h h'.

(** Nothing is recorded between the two heaps. *)
Definition same_trace (h h' : heap Real_t) : Prop := trace h' = trace h.

(** The answer of the backend to the workspace query that the [SVD]
    constructor makes on a view whose storage holds [A]: the call with
    [lwork = -1], on the three buffers just allocated, with the scalar
    [optim_work_size] as work array. *)
Definition workspace_query (bk : Backend Real_t) (view : DenseMatrix.t)
    (A : list Real_t) : Real_t :=
  let nr := DenseMatrix.m_nr view in
  let nc := DenseMatrix.m_nc view in
  let zeros (n : Z) := replicate (Z.to_nat n) (of_int 0) in
  default (of_int 0)
    (head (overwrite [of_int 0]
             (gesvd bk "A" "A" nr nc A (DenseMatrix.m_ld view)
                    (zeros (Z.min nr nc)) (zeros (int_mul nr nr)) nr
                    (zeros (int_mul nc nc)) nc [of_int 0] (-1)).1.2)).
End Vocabulary.

(** ** Concrete systems

    Small heaps and views on which the strategies are run. *)
Module Examples.
Import Double Exact.

(** The outcome of a run, observed at one real array. *)
Definition array_after {Real_t A} (r : res Real_t A) (p : loc)
    : option (list Real_t) :=
  match r with Ok _ h => reals h !! p | Fault _ => None end.
Definition status_of {Real_t A} (r : res Real_t A) : option A :=
  match r with Ok a _ => Some a | Fault _ => None end.
Definition fault_of {Real_t A} (r : res Real_t A) : option fault :=
  match r with Ok _ _ => None | Fault f => Some f end.

(** Three arrays at locations 1 (the matrix storage), 2 ([b]) and 3 ([x]). *)
Definition heap3 {Real_t} (a b x : list Real_t) : heap Real_t :=
  Heap (<[1%positive := a]> (<[2%positive := b]> (<[3%positive := x]> ∅))) ∅ [].

Definition diag_view (n : Z) : DiagonalMatrix.t :=
  {| DiagonalMatrix.m_data := 1%positive; DiagonalMatrix.m_nc := n |}.
Definition diag_inv (n : Z) : DiagonalInv.t :=
  {| DiagonalInv.m_view := diag_view n |}.

(** The 1-by-1 system [49 x = 49] in binary64. *)
Definition h49 : heap float := heap3 [49%float] [49%float] [0%float].

(** The 1-by-1 system [a x = a] for the least positive double
    [a = 2^-1074], whose reciprocal is not a finite double. *)
Definition tiny : float := 0x1p-1074%float.
Definition htiny : heap float := heap3 [tiny] [tiny] [0%float].

(** A diagonal with a zero entry, in binary64. *)
Definition hzero : heap float :=
  heap3 [0%float; 2%float] [1%float; 1%float] [0%float; 0%float].

(** [diag(2, -3, 1/2) x = (1, 1, 1)] over the rationals. *)
Definition hq : heap Qc :=
  heap3 [Q2Qc 2; Q2Qc (-3); Q2Qc (1 # 2)] [Q2Qc 1; Q2Qc 1; Q2Qc 1]
        [Q2Qc 0; Q2Qc 0; Q2Qc 0].
(** Construction followed by one factorization, and then one [solve]. *)
Definition svd_built (view : DenseMatrix.t) : M float (SVD.t float) :=
  self ← SVD.ctor DiagBackend.backend view;
  '(_, self) ← SVD.factorize DiagBackend.backend self;
  mret self.
Definition svd_solved (view : DenseMatrix.t) (b x : loc)
    : M float (Z * SVD.t float) :=
  self ← svd_built view;
  r ← SVD.solve self b x;
  mret (r, self).

Definition dense_view (nr nc : Z) : DenseMatrix.t :=
  {| DenseMatrix.m_data := 1%positive; DenseMatrix.m_nr := nr;
     DenseMatrix.m_nc := nc; DenseMatrix.m_ld := nr |}.

(** The instance that the constructor builds on a [heap3]: its buffers are
    the next free locations. *)
Definition svd_at (nr nc : Z) (lwork : Z) (c : float) : SVD.t float :=
  {| SVD.m_view := dense_view nr nc; SVD.m_s := 4%positive; SVD.m_ldu := nr;
     SVD.m_u := 5%positive; SVD.m_ldvt := nc; SVD.m_vt := 6%positive;
     SVD.m_work := 7%positive; SVD.m_lwork := lwork;
     SVD.m_condition_number := c |}.

(** The rank-one system [diag(1, 0) x = (1, 1)]. *)
Definition singular_matrix : list float := [1; 0; 0; 0]%float.
Definition hsing : heap float :=
  heap3 singular_matrix [1%float; 1%float] [0%float; 0%float].

(** The full-rank system [diag(4, 2) x = (8, 6)], factorized: [U] and [Vᵀ]
    are identities and the singular values are 4 and 2. *)
Definition hfull : heap float :=
  Heap (list_to_map
          [(1%positive, [4; 0; 0; 2]%float); (2%positive, [8; 6]%float);
           (3%positive, [0; 0]%float); (4%positive, [4; 2]%float);
           (5%positive, [1; 0; 0; 1]%float); (6%positive, [1; 0; 0; 1]%float);
           (7%positive, [0%float])]) ∅ [].

(** A 1-by-2 view (fewer rows than columns) and a 2-by-1 view. *)
Definition hwide : heap float := heap3 [1%float; 0%float] [1%float] [0%float; 0%float].
Definition htall : heap float := heap3 [1%float; 0%float] [1%float; 1%float] [0%float].
(** For the LU strategies: the factors of [diag(2, 4)], which are the matrix
    itself with the identity as pivoting, and [b = (2, 4)]. *)
Definition hlu : heap float :=
  Heap (reals (heap3 [2; 0; 0; 4]%float [2; 4]%float [0; 0]%float))
       {[ 1%positive := [1; 2] ]} [].
Definition dense_lu : DenseLU.t :=
  {| DenseLU.m_view := dense_view 2 2; DenseLU.m_ipiv := 1%positive |}.

Definition trace_after {Real_t A} (r : res Real_t A) : list event :=
  match r with Ok _ h => trace h | Fault _ => [] end.
(** [hlu] once [DenseLU.solve] has run: [x = (1, 1)]. *)
Definition hlu_solved : heap float :=
  Heap (reals (heap3 [2; 0; 0; 4]%float [2; 4]%float [1; 1]%float))
       {[ 1%positive := [1; 2] ]} [EvCall Getrs].

(** [diag(4, 2)] with the buffers of a freshly constructed SVD instance. *)
Definition hfresh : heap float :=
  Heap (list_to_map
          [(1%positive, [4; 0; 0; 2]%float); (2%positive, [8; 6]%float);
           (3%positive, [0; 0]%float); (4%positive, [0; 0]%float);
           (5%positive, [0; 0; 0; 0]%float); (6%positive, [0; 0; 0; 0]%float);
           (7%positive, [0%float])]) ∅ [].
(** The rank-one system [diag(1, 0) x = (1, 1)] over the rationals. *)
Definition singular_matrix_q : list Qc := [1; 0; 0; 0]%Qc.
Definition ones_q : list Qc := [1; 1]%Qc.
End Examples.

(** ** More concrete systems *)
Module MoreExamples.
Import Examples.

(** Four vectors beside the diagonal [(2, 4)], already inverted to
    [(1/2, 1/4)], over the rationals: two right-hand sides at 2 and 4, two
    outputs at 3 and 5. *)
Definition hpair : heap Qc :=
  Heap (list_to_map
          [(1%positive, [Q2Qc (1 # 2); Q2Qc (1 # 4)]);
           (2%positive, [Q2Qc 2; Q2Qc 4]); (3%positive, [Q2Qc 0; Q2Qc 0]);
           (4%positive, [Q2Qc 6; Q2Qc 8]); (5%positive, [Q2Qc 0; Q2Qc 0])])
       ∅ [].

(** [diag(2, -3, 1/2)] and [b = A x0] for [x0 = (5, 7, 9)]. *)
Definition hround : heap Qc :=
  heap3 [Q2Qc 2; Q2Qc (-3); Q2Qc (1 # 2)]
        [Q2Qc 10; Q2Qc (-21); Q2Qc (9 # 2)] [Q2Qc 0; Q2Qc 0; Q2Qc 0].

(** The 2-by-2 diagonal [(2, 4)] in packed banded storage with no sub- or
    superdiagonal (one row per column), [b = (2, 4)] and two pivots. *)
Definition banded_lu : BandedLU.t :=
  {| BandedLU.m_view :=
       {| BandedMatrix.m_data := 1%positive; BandedMatrix.m_nr := 2;
          BandedMatrix.m_nc := 2; BandedMatrix.m_ld := 1;
          BandedMatrix.m_kl := 0; BandedMatrix.m_ku := 0 |};
     BandedLU.m_ipiv := 1%positive |}.
Definition hband : heap float :=
  Heap (reals (heap3 [2; 4]%float [2; 4]%float [0; 0]%float))
       {[ 1%positive := [0; 0] ]} [].

(** [diag(4, 2) x = (8, 6)] before any instance is constructed. *)
Definition hsystem : heap float :=
  heap3 [4; 0; 0; 2]%float [8; 6]%float [0; 0]%float.

(** [hfull] with a second right-hand side [(4, 2)] at 8 and a second output
    at 9. *)
Definition hmany : heap float :=
  Heap (<[8%positive := [4; 2]%float]>
          (<[9%positive := [0; 0]%float]> (reals hfull))) ∅ [].

(** A backend that answers the workspace query with [answer]. *)
Definition query_backend (answer : float) : Backend float :=
  {| getrf := getrf DiagBackend.backend;
     getrs := getrs DiagBackend.backend;
     gbtrf := gbtrf DiagBackend.backend;
     gbtrs := gbtrs DiagBackend.backend;
     gesvd jobu jobvt m n a lda s u ldu vt ldvt work lwork :=
       if lwork <? 0 then (a, s, u, vt, [answer], 0)
       else gesvd DiagBackend.backend jobu jobvt m n a lda s u ldu vt ldvt
                  work lwork |}.
End MoreExamples.

(** * Properties *)

(** ** Products that fit into [int] *)

Lemma int_mul_small (a b : Z) :
  0 ≤ a * b ≤ INT_MAX → int_mul a b = a * b.
Proof.
  intros Hab. unfold int_mul, int_wrap. unfold INT_MAX in Hab.
  rewrite Z.mod_small by lia. lia.
Qed.

Lemma int_cast_small (z : Z) : INT_MIN ≤ z ≤ INT_MAX → int_cast z = z.
Proof.
  intros Hz. unfold int_cast.
  destruct (Z.leb_spec INT_MIN z); [|lia].
  destruct (Z.leb_spec z INT_MAX); [|lia]. reflexivity.
Qed.

Lemma int_cast_range (z : Z) : INT_MIN ≤ int_cast z ≤ INT_MAX.
Proof.
  unfold int_cast.
  destruct (Z.leb_spec INT_MIN z); simpl; [|unfold INT_MIN, INT_MAX; lia].
  destruct (Z.leb_spec z INT_MAX); simpl; [lia|unfold INT_MIN, INT_MAX; lia].
Qed.

(** ** The monad and its loops *)

Section MonadFacts.
Context {Real_t : Type} `{RealOps Real_t}.
Implicit Types h : heap Real_t.

Lemma bind_unfold {A B} (m : M Real_t A) (k : A → M Real_t B) h :
  (m ≫= k) h = match m h with Ok a h' => k a h' | Fault f => Fault f end.
Proof. reflexivity. Qed.

Lemma bind_ok {A B} (m : M Real_t A) (k : A → M Real_t B) h a h1 :
  m h = Ok a h1 → (m ≫= k) h = k a h1.
Proof. intros E. rewrite bind_unfold, E. reflexivity. Qed.

Lemma bind_fault {A B} (m : M Real_t A) (k : A → M Real_t B) h f :
  m h = Fault f → (m ≫= k) h = Fault f.
Proof. intros E. rewrite bind_unfold, E. reflexivity. Qed.

Lemma bind_inv {A B} (m : M Real_t A) (k : A → M Real_t B) h b h' :
  (m ≫= k) h = Ok b h' → ∃ a h1, m h = Ok a h1 ∧ k a h1 = Ok b h'.
Proof.
  rewrite bind_unfold. destruct (m h) as [a h1|f]; [|discriminate].
  intros E. exists a, h1. split; [reflexivity|exact E].
Qed.

Lemma mret_unfold {A} (a : A) h : (mret a : M Real_t A) h = Ok a h.
Proof. reflexivity. Qed.

Lemma upd_id h p l : reals h !! p = Some l → upd h p l = h.
Proof.
  intros E. destruct h as [r i t]. unfold upd. simpl in *.
  f_equal. apply insert_id. exact E.
Qed.

Lemma upd_upd h p l l' : upd (upd h p l) p l' = upd h p l'.
Proof. unfold upd. simpl. f_equal. apply insert_insert_eq. Qed.

Lemma reals_upd h p l : reals (upd h p l) !! p = Some l.
Proof. unfold upd. simpl. apply lookup_insert_eq. Qed.

Lemma reals_upd_ne h p q l : p ≠ q → reals (upd h p l) !! q = reals h !! q.
Proof. intros Hne. unfold upd. simpl. apply lookup_insert_ne. exact Hne. Qed.

Lemma rd_nat {A} (l : list A) (i : nat) : rd l (Z.of_nat i) = l !! i.
Proof.
  unfold rd. destruct (Z.leb_spec 0 (Z.of_nat i)); [|lia].
  rewrite Nat2Z.id. reflexivity.
Qed.

Lemma wr_nat {A} (l : list A) (i : nat) v :
  (i < length l)%nat → wr l (Z.of_nat i) v = Some (<[i := v]> l).
Proof.
  intros Hi. unfold wr. rewrite Nat2Z.id.
  destruct (Z.leb_spec 0 (Z.of_nat i)); [|lia].
  destruct (Nat.ltb_spec i (length l)); [|lia]. reflexivity.
Qed.

Lemma load_ok h p l (i : nat) v :
  reals h !! p = Some l → l !! i = Some v → load p (Z.of_nat i) h = Ok v h.
Proof. intros Hp Hi. unfold load. rewrite Hp, rd_nat, Hi. reflexivity. Qed.

Lemma load_oob h p l (i : nat) :
  reals h !! p = Some l → (length l ≤ i)%nat →
  load p (Z.of_nat i) h = Fault OutOfBounds.
Proof.
  intros Hp Hi. unfold load. rewrite Hp, rd_nat.
  rewrite (lookup_ge_None_2 l i Hi). reflexivity.
Qed.

Lemma store_ok h p l (i : nat) v :
  reals h !! p = Some l → (i < length l)%nat →
  store p (Z.of_nat i) v h = Ok tt (upd h p (<[i := v]> l)).
Proof. intros Hp Hi. unfold store. rewrite Hp, wr_nat by exact Hi. reflexivity. Qed.

(** Invariant rule for a counted loop that runs to completion. *)
Lemma for_loop_inv (P : nat → heap Real_t → Prop) body k :
  ∀ j h,
    P j h →
    (∀ i h, (j ≤ i < j + k)%nat → P i h →
            ∃ h', body (Z.of_nat i) h = Ok tt h' ∧ P (S i) h') →
    ∃ h', for_loop body (Z.of_nat j) k h = Ok tt h' ∧ P (j + k)%nat h'.
Proof.
  induction k as [|k IH]; intros j h HP Hstep; simpl.
  - exists h. rewrite Nat.add_0_r. split; [reflexivity|exact HP].
  - destruct (Hstep j h) as (h1 & E1 & HP1); [lia|exact HP|].
    rewrite (bind_ok _ _ _ _ _ E1).
    replace (Z.of_nat j + 1) with (Z.of_nat (S j)) by lia.
    destruct (IH (S j) h1 HP1) as (h' & E' & HP').
    + intros i hi Hi. apply Hstep. lia.
    + exists h'. split; [exact E'|].
      replace (j + S k)%nat with (S j + k)%nat by lia. exact HP'.
Qed.

(** A counted loop whose body faults at iteration [stop]. *)
Lemma for_loop_fault (P : nat → heap Real_t → Prop) body f stop k :
  ∀ j h,
    P j h → (j ≤ stop < j + k)%nat →
    (∀ i h, (j ≤ i < stop)%nat → P i h →
            ∃ h', body (Z.of_nat i) h = Ok tt h' ∧ P (S i) h') →
    (∀ h, P stop h → body (Z.of_nat stop) h = Fault f) →
    for_loop body (Z.of_nat j) k h = Fault f.
Proof.
  induction k as [|k IH]; intros j h HP Hr Hstep Hstop; [lia|]. simpl.
  destruct (decide (j = stop)) as [->|Hne].
  - apply bind_fault. apply Hstop. exact HP.
  - destruct (Hstep j h) as (h1 & E1 & HP1); [lia|exact HP|].
    rewrite (bind_ok _ _ _ _ _ E1).
    replace (Z.of_nat j + 1) with (Z.of_nat (S j)) by lia.
    apply (IH (S j) h1 HP1); [lia| |exact Hstop].
    intros i hi Hi. apply Hstep. lia.
Qed.

Lemma entry_in_bounds (i j n : nat) :
  (i < n)%nat → (j < n)%nat → (i + j * n < n * n)%nat.
Proof.
  intros Hi Hj. apply Nat.lt_le_trans with (S j * n)%nat; [simpl; lia|].
  apply Nat.mul_le_mono_r. lia.
Qed.

Lemma NoDup_apart {A} (l : list A) (i j : nat) (x y : A) :
  NoDup l → l !! i = Some x → l !! j = Some y → i ≠ j → x ≠ y.
Proof.
  intros Hnd Hi Hj Hij ->. exact (Hij (NoDup_lookup l i j y Hnd Hi Hj)).
Qed.
End MonadFacts.

(** Closes [p ∉ [a; b; ...]] from disequalities at hand. *)
Ltac apart :=
  repeat (apply not_elem_of_cons; split; [congruence|]);
  apply not_elem_of_nil.

Section PointwiseLoops.
Context {Real_t : Type} `{RealOps Real_t}.
Implicit Types h : heap Real_t.

Lemma prefix_length (g : nat → Real_t) (X : list Real_t) (i : nat) :
  (i ≤ length X)%nat → length ((g <$> seq 0 i) ++ drop i X) = length X.
Proof.
  intros Hi. rewrite length_app, length_fmap, length_seq, length_drop. lia.
Qed.

Lemma prefix_lookup_rest (g : nat → Real_t) (X : list Real_t) (i j : nat) :
  (i ≤ j)%nat → ((g <$> seq 0 i) ++ drop i X) !! j = X !! j.
Proof.
  intros Hij. rewrite lookup_app_r; rewrite length_fmap, length_seq; [|lia].
  rewrite lookup_drop. f_equal. lia.
Qed.

Lemma prefix_insert (g : nat → Real_t) (X : list Real_t) (i : nat) :
  (i < length X)%nat →
  <[i := g i]> ((g <$> seq 0 i) ++ drop i X)
  = (g <$> seq 0 (S i)) ++ drop (S i) X.
Proof.
  intros Hi. destruct (lookup_lt_is_Some_2 X i Hi) as [xi Hxi].
  rewrite seq_S, fmap_app, <- app_assoc. simpl.
  rewrite (drop_S _ _ _ Hxi).
  rewrite insert_app_r_alt; rewrite length_fmap, length_seq; [|lia].
  rewrite Nat.sub_diag. reflexivity.
Qed.

(** A loop that assigns [x[i] = g i] for [i < n], whatever else its body
    reads. *)
Lemma pointwise_loop (x : loc) (g : nat → Real_t) body (n : nat) h X :
  reals h !! x = Some X → (n ≤ length X)%nat →
  (∀ i, (i < n)%nat →
     let L := (g <$> seq 0 i) ++ drop i X in
     body (Z.of_nat i) (upd h x L) = Ok tt (upd h x (<[i := g i]> L))) →
  for_loop body 0 n h = Ok tt (upd h x ((g <$> seq 0 n) ++ drop n X)).
Proof.
  intros Hx Hn Hbody.
  destruct (for_loop_inv
              (λ i h', h' = upd h x ((g <$> seq 0 i) ++ drop i X)) body n 0 h)
    as (h' & E & ->).
  - simpl. rewrite drop_0. symmetry. apply upd_id. exact Hx.
  - intros i hi Hi ->. eexists. split; [apply Hbody; lia|].
    rewrite prefix_insert by lia. reflexivity.
  - exact E.
Qed.
End PointwiseLoops.

(** ** DiagonalInv *)

Section DiagonalInvFacts.
Context {Real_t : Type} `{RealOps Real_t}.
Implicit Types h : heap Real_t.
Import DiagonalMatrix DiagonalInv.

Lemma prefix_is_fmap (f : Real_t → Real_t) (X : list Real_t) (n : nat) :
  (n ≤ length X)%nat →
  ((λ i, f (elem X i)) <$> seq 0 n) = f <$> take n X.
Proof.
  intros Hn. apply list_eq. intros i.
  rewrite !list_lookup_fmap.
  destruct (decide (i < n)%nat) as [Hi|Hi].
  - rewrite lookup_seq_lt, lookup_take_lt by lia. simpl.
    destruct (lookup_lt_is_Some_2 X i ltac:(lia)) as [v Hv].
    unfold elem. rewrite Hv. reflexivity.
  - rewrite lookup_seq_ge, lookup_take_ge by lia. reflexivity.
Qed.

(** [factorize] on a view of [m_nc] entries takes the reciprocal of each,
    in place, and returns 0. *)
Lemma DiagonalInv_factorize_run (self : t) h D :
  let v := m_view self in
  reals h !! m_data v = Some D → length D = Z.to_nat (m_nc v) →
  factorize self h = Ok 0 (upd h (m_data v) (rdiv (of_int 1) <$> D)).
Proof.
  intros v HD Hlen. unfold factorize, for_range. fold v.
  rewrite (bind_ok _ _ _ tt (upd h (m_data v) (rdiv (of_int 1) <$> D))).
  { reflexivity. }
  rewrite <- Hlen.
  rewrite (pointwise_loop (m_data v) (λ i, rdiv (of_int 1) (elem D i)) _ _ h D HD);
    [| lia |].
  - rewrite drop_all, app_nil_r, prefix_is_fmap, firstn_all by lia. reflexivity.
  - intros i Hi L.
    assert (L !! i = Some (elem D i)) as HLi.
    { unfold L. rewrite prefix_lookup_rest by lia. unfold elem.
      destruct (lookup_lt_is_Some_2 D i Hi) as [d ->]. reflexivity. }
    rewrite (bind_ok _ _ _ (elem D i) (upd h (m_data v) L)).
    + rewrite (store_ok _ _ L);
        [| apply reals_upd | unfold L; rewrite prefix_length; lia].
      rewrite upd_upd. reflexivity.
    + apply (load_ok _ _ L); [apply reals_upd | exact HLi].
Qed.

(** [solve] writes the product of the stored entry and [b[i]] to [x[i]]
    and returns 0. *)
Lemma DiagonalInv_solve_run (self : t) (b x : loc) h D B X :
  let v := m_view self in
  reals h !! m_data v = Some D → reals h !! b = Some B →
  reals h !! x = Some X →
  length D = Z.to_nat (m_nc v) → length B = Z.to_nat (m_nc v) →
  length X = Z.to_nat (m_nc v) →
  x ≠ m_data v → x ≠ b →
  solve self b x h = Ok 0 (upd h x (zip_with rmul D B)).
Proof.
  intros v HD HB HX LD LB LX Hxd Hxb. unfold solve, for_range. fold v.
  rewrite (bind_ok _ _ _ tt (upd h x (zip_with rmul D B))).
  { reflexivity. }
  rewrite <- LX.
  rewrite (pointwise_loop x (λ i, rmul (elem D i) (elem B i)) _ _ h X HX);
    [| lia |].
  - rewrite drop_all, app_nil_r. f_equal. f_equal.
    apply list_eq. intros i. rewrite list_lookup_fmap, lookup_zip_with.
    destruct (decide (i < length X)%nat) as [Hi|Hi].
    + rewrite lookup_seq_lt by lia. simpl. unfold elem.
      destruct (lookup_lt_is_Some_2 D i ltac:(lia)) as [d ->].
      destruct (lookup_lt_is_Some_2 B i ltac:(lia)) as [bi ->]. reflexivity.
    + rewrite lookup_seq_ge by lia. simpl.
      rewrite (lookup_ge_None_2 D i) by lia. reflexivity.
  - intros i Hi L.
    destruct (lookup_lt_is_Some_2 D i ltac:(lia)) as [d Hd].
    destruct (lookup_lt_is_Some_2 B i ltac:(lia)) as [bi Hbi].
    rewrite (bind_ok _ _ _ d (upd h x L)).
    2:{ apply (load_ok _ _ D); [rewrite reals_upd_ne by exact Hxd; exact HD|exact Hd]. }
    rewrite (bind_ok _ _ _ bi (upd h x L)).
    2:{ apply (load_ok _ _ B); [rewrite reals_upd_ne by exact Hxb; exact HB|exact Hbi]. }
    rewrite (store_ok _ _ L);
      [| apply reals_upd | unfold L; rewrite prefix_length; lia].
    rewrite upd_upd. unfold elem. rewrite Hd, Hbi. reflexivity.
Qed.
End DiagonalInvFacts.

Section DiagonalInvClaims.
Context {Real_t : Type} `{RealOps Real_t}.
Implicit Types h : heap Real_t.
Import DiagonalMatrix DiagonalInv.

(** C3.  For every diagonal view, zero entries included, [factorize]
    replaces each entry by its reciprocal in place (there is no test for
    zero: the entries are arbitrary) and returns 0; whenever [factorize] or
    [solve] returns at all, on any heap and any arguments, it returns 0;
    and on vectors of the view's size [solve] does return. *)
Theorem DiagonalInv_always_status_zero (self : t) h D :
  let v := m_view self in
  reals h !! m_data v = Some D → length D = Z.to_nat (m_nc v) →
  factorize self h = Ok 0 (upd h (m_data v) (rdiv (of_int 1) <$> D))
  ∧ (∀ h0 r h', factorize self h0 = Ok r h' → r = 0)
  ∧ (∀ b x h0 r h', solve self b x h0 = Ok r h' → r = 0)
  ∧ (∀ b x B X,
       reals h !! b = Some B → reals h !! x = Some X →
       length B = Z.to_nat (m_nc v) → length X = Z.to_nat (m_nc v) →
       x ≠ m_data v → x ≠ b →
       ∃ h', solve self b x h = Ok 0 h').
Proof.
  intros v HD LD. split; [|split; [|split]].
  - apply DiagonalInv_factorize_run; assumption.
  - intros h0 r h' E. unfold factorize in E.
    apply bind_inv in E as (? & h1 & _ & E).
    rewrite mret_unfold in E. congruence.
  - intros b x h0 r h' E. unfold solve in E.
    apply bind_inv in E as (? & h1 & _ & E).
    rewrite mret_unfold in E. congruence.
  - intros b x B X HB HX LB LX Hxd Hxb. eexists.
    apply (DiagonalInv_solve_run self b x h D B X); assumption.
Qed.

(** C2, as the code has it.  For every diagonal view with non-zero entries
    and every [b], [factorize] once and then [solve(b, x)] return 0 and
    leave in [x[i]] the product of the reciprocal of [A[i][i]] with [b[i]],
    for every [i] below the size; in exact arithmetic that product is
    [b[i] / A[i][i]]. *)
Theorem DiagonalInv_factorize_then_solve (self : t) (b x : loc) h D B X :
  let v := m_view self in
  reals h !! m_data v = Some D → reals h !! b = Some B →
  reals h !! x = Some X →
  length D = Z.to_nat (m_nc v) → length B = Z.to_nat (m_nc v) →
  length X = Z.to_nat (m_nc v) →
  x ≠ m_data v → x ≠ b → b ≠ m_data v →
  Forall (λ a, a ≠ of_int 0) D →
  ∃ h' X',
    (factorize self ≫= λ _, solve self b x) h = Ok 0 h'
    ∧ reals h' !! x = Some X'
    ∧ length X' = Z.to_nat (m_nc v)
    ∧ ∀ (i : nat) a bi, D !! i = Some a → B !! i = Some bi →
        X' !! i = Some (rmul (rdiv (of_int 1) a) bi)
        ∧ (ExactArith Real_t → X' !! i = Some (rdiv bi a)).
Proof.
  intros v HD HB HX LD LB LX Hxd Hxb Hbd Hnz.
  exists (upd (upd h (m_data v) (rdiv (of_int 1) <$> D)) x
              (zip_with rmul (rdiv (of_int 1) <$> D) B)),
         (zip_with rmul (rdiv (of_int 1) <$> D) B).
  split; [|split; [|split]].
  - rewrite (bind_ok _ _ _ _ _ (DiagonalInv_factorize_run self h D HD LD)).
    apply (DiagonalInv_solve_run self b x _ (rdiv (of_int 1) <$> D) B X);
      fold v;
      rewrite ?reals_upd, ?reals_upd_ne, ?length_fmap by congruence;
      try assumption; reflexivity.
  - apply reals_upd.
  - rewrite length_zip_with, length_fmap. lia.
  - intros i a bi Ha Hbi.
    assert (zip_with rmul (rdiv (of_int 1) <$> D) B !! i
            = Some (rmul (rdiv (of_int 1) a) bi)) as E.
    { rewrite lookup_zip_with, list_lookup_fmap, Ha, Hbi. reflexivity. }
    split; [exact E|]. intros HE. rewrite E. f_equal.
    apply recip_mul_div.
    exact (proj1 (Forall_lookup _ D) Hnz i a Ha).
Qed.

(** C9.  In exact arithmetic, for every diagonal view with non-zero
    entries, two [factorize] calls in succession both return 0 and the
    second leaves the heap, hence every diagonal entry, as it was before
    the first. *)
Theorem DiagonalInv_factorize_twice `{!ExactArith Real_t} (self : t) h D :
  let v := m_view self in
  reals h !! m_data v = Some D → length D = Z.to_nat (m_nc v) →
  Forall (λ a, a ≠ of_int 0) D →
  ∃ h1, factorize self h = Ok 0 h1 ∧ factorize self h1 = Ok 0 h.
Proof.
  intros v HD LD Hnz.
  exists (upd h (m_data v) (rdiv (of_int 1) <$> D)). split.
  - apply DiagonalInv_factorize_run; assumption.
  - rewrite (DiagonalInv_factorize_run self _ (rdiv (of_int 1) <$> D));
      [| apply reals_upd | rewrite length_fmap; exact LD ].
    fold v. rewrite upd_upd. f_equal.
    assert (rdiv (of_int 1) <$> (rdiv (of_int 1) <$> D) = D) as ->.
    { rewrite <- list_fmap_compose. rewrite <- (list_fmap_id D) at 2.
      apply Forall_fmap_ext_1. eapply Forall_impl; [exact Hnz|].
      intros a Ha. simpl. apply recip_involutive. exact Ha. }
    apply upd_id. exact HD.
Qed.
End DiagonalInvClaims.

(** ** The two numeric types *)

(** The rationals are exact. *)
#[global] Instance Qc_exact_arith : ExactArith Qc.
Proof.
  split.
  - intros a Ha. change (1 / (1 / a) = a)%Qc. field.
    split; [exact Ha|]. intro E. discriminate E.
  - intros a b Ha. change ((1 / a) * b = b / a)%Qc. field. exact Ha.
Qed.

#[global] Instance Qc_fabs_ratio : FabsRatio Qc.
Proof.
  intros a b Ha Hb. change (Qcabs (a / b) = a / b)%Qc.
  change (Qcabs a = a) in Ha. change (Qcabs b = b) in Hb.
  apply Qcabs_pos.
  assert (0 <= a)%Qc as Pa by (rewrite <- Ha; apply Qcabs_nonneg).
  assert (0 <= b)%Qc as Pb by (rewrite <- Hb; apply Qcabs_nonneg).
  unfold Qcle in *. unfold Qcdiv, Qcmult, Qcinv, Q2Qc. simpl.
  rewrite !Qred_correct.
  apply Qmult_le_0_compat; [exact Pa|]. apply Qinv_le_0_compat. exact Pb.
Qed.

(** In binary64 rounding keeps the sign, so the quotient of two values with a
    clear sign bit has a clear sign bit (or is not a number). *)
Lemma SFabs_round_aux m e l :
  SFabs (binary_round_aux prec emax false m e l)
  = binary_round_aux prec emax false m e l.
Proof.
  unfold binary_round_aux.
  destruct (shr_fexp prec emax m e l) as [mrs' e'].
  destruct (shr_fexp prec emax _ e' loc_Exact) as [mrs'' e''].
  destruct (shr_m mrs''); [reflexivity| |reflexivity].
  destruct (e'' <=? emax - prec); reflexivity.
Qed.

Lemma SFabs_fixed s :
  SFabs s = s →
  s = S754_nan ∨ (∃ m e, s = S754_finite false m e)
  ∨ s = S754_zero false ∨ s = S754_infinity false.
Proof.
  destruct s as [[]|[]| |[] m e]; simpl; intros E; try discriminate; eauto.
Qed.

#[global] Instance float_fabs_ratio : FabsRatio float.
Proof.
  intros a b Ha Hb. change (abs (a / b) = (a / b))%float.
  change (abs a = a) in Ha. change (abs b = b) in Hb.
  apply (f_equal Prim2SF) in Ha, Hb. rewrite abs_spec in Ha, Hb.
  apply Prim2SF_inj. rewrite abs_spec, div_spec.
  apply SFabs_fixed in Ha, Hb.
  destruct Ha as [->|[(ma & ea & ->)|[->| ->]]];
    destruct Hb as [->|[(mb & eb & ->)|[->| ->]]]; try reflexivity.
  unfold SF64div, SFdiv.
  destruct (SFdiv_core_binary prec emax (Z.pos ma) ea (Z.pos mb) eb)
    as [[mz ez] lz].
  apply SFabs_round_aux.
Qed.

(** Binary64 is not exact: the reciprocal of the reciprocal of 49 is not 49,
    and 49 times the reciprocal of 49 is not 1. *)
Lemma binary64_reciprocal_rounds :
  rdiv (of_int 1) (rdiv (of_int 1) 49%float) ≠ 49%float
  ∧ rmul (rdiv (of_int 1) 49%float) 49%float ≠ rdiv 49%float 49%float.
Proof. split; vm_compute; discriminate. Qed.

(** ** DiagonalInv on concrete systems *)

Section DiagonalInvExamples.
Import Examples.

Lemma DiagonalInv_always_status_zero_witness :
  reals hzero !! 1%positive = Some [0%float; 2%float]
  ∧ DiagonalInv.factorize (diag_inv 2) hzero
    = Ok 0 (upd hzero 1%positive [infinity; 0.5%float]).
Proof.
  split; [reflexivity|].
  exact (proj1 (DiagonalInv_always_status_zero (diag_inv 2) hzero
                  [0%float; 2%float] eq_refl eq_refl)).
Defined.

(** C2 as stated fails in binary64, and by more than rounding: for the
    1-by-1 system [a x = a] with [a = 2^-1074], which is not zero,
    [factorize] stores [1 / a], which overflows to infinity, and [solve]
    leaves [x[0] = ∞], whereas [b[0] / A[0][0]] is exactly 1. *)
Lemma DiagonalInv_quotient_counterexample :
  req tiny (of_int 0) = false
  ∧ array_after (DiagonalInv.factorize (diag_inv 1) htiny) 1%positive
    = Some [infinity]
  ∧ array_after
      ((DiagonalInv.factorize (diag_inv 1)
        ≫= λ _, DiagonalInv.solve (diag_inv 1) 2%positive 3%positive) htiny)
      3%positive
    = Some [infinity]
  ∧ rdiv tiny tiny = 1%float
  ∧ infinity ≠ rdiv tiny tiny.
Proof.
  split; [vm_compute; reflexivity|].
  split; [vm_compute; reflexivity|].
  split; [vm_compute; reflexivity|].
  split; [vm_compute; reflexivity|]. vm_compute. discriminate.
Qed.

(** Where the reciprocal is finite the two still differ by rounding: for
    [49 x = 49], [x[0] = 0x1.fffffffffffffp-1], the double next below 1,
    whereas [b[0] / A[0][0]] is exactly 1. *)
Lemma DiagonalInv_quotient_rounding_example :
  array_after
    ((DiagonalInv.factorize (diag_inv 1)
      ≫= λ _, DiagonalInv.solve (diag_inv 1) 2%positive 3%positive) h49)
    3%positive
  = Some [0x1.fffffffffffffp-1%float]
  ∧ rdiv 49%float 49%float = 1%float
  ∧ 0x1.fffffffffffffp-1%float ≠ rdiv 49%float 49%float.
Proof.
  split; [vm_compute; reflexivity|].
  split; [vm_compute; reflexivity|]. vm_compute. discriminate.
Qed.

Lemma DiagonalInv_factorize_then_solve_witness :
  ∃ h' X',
    (DiagonalInv.factorize (diag_inv 3)
     ≫= λ _, DiagonalInv.solve (diag_inv 3) 2%positive 3%positive) hq
    = Ok 0 h'
    ∧ reals h' !! 3%positive = Some X'
    ∧ length X' = 3%nat
    ∧ ∀ (i : nat) a bi,
        [Q2Qc 2; Q2Qc (-3); Q2Qc (1 # 2)] !! i = Some a →
        [Q2Qc 1; Q2Qc 1; Q2Qc 1] !! i = Some bi →
        X' !! i = Some (rmul (rdiv (of_int 1) a) bi)
        ∧ X' !! i = Some (rdiv bi a).
Proof.
  destruct (DiagonalInv_factorize_then_solve (diag_inv 3) 2%positive
              3%positive hq [Q2Qc 2; Q2Qc (-3); Q2Qc (1 # 2)]
              [Q2Qc 1; Q2Qc 1; Q2Qc 1] [Q2Qc 0; Q2Qc 0; Q2Qc 0]
              eq_refl eq_refl eq_refl eq_refl eq_refl eq_refl)
    as (h' & X' & E & HX & LX & Hall).
  - discriminate.
  - discriminate.
  - discriminate.
  - repeat constructor; intro E; discriminate E.
  - exists h', X'. split; [exact E|]. split; [exact HX|]. split; [exact LX|].
    intros i a bi Ha Hb. destruct (Hall i a bi Ha Hb) as [H1 H2].
    split; [exact H1|]. exact (H2 Qc_exact_arith).
Defined.

Lemma DiagonalInv_factorize_twice_witness :
  ∃ h1, DiagonalInv.factorize (diag_inv 3) hq = Ok 0 h1
        ∧ DiagonalInv.factorize (diag_inv 3) h1 = Ok 0 hq.
Proof.
  apply (DiagonalInv_factorize_twice (diag_inv 3) hq
           [Q2Qc 2; Q2Qc (-3); Q2Qc (1 # 2)]); [reflexivity|reflexivity|].
  repeat constructor; intro E; discriminate E.
Defined.
End DiagonalInvExamples.

(** ** The matrix-vector product *)

Section GemvFacts.
Context {Real_t : Type} `{RealOps Real_t}.
Implicit Types h : heap Real_t.

Lemma rd_entry (a : list Real_t) (ld i j : nat) v :
  a !! (i + j * ld)%nat = Some v →
  rd a (Z.of_nat i + Z.of_nat j * Z.of_nat ld) = Some v.
Proof.
  intros E.
  replace (Z.of_nat i + Z.of_nat j * Z.of_nat ld)
    with (Z.of_nat (i + j * ld)) by lia.
  rewrite rd_nat. exact E.
Qed.

(** The inner loop of the transposed product, run inside the arrays. *)
Lemma dot_col_run (a : list Real_t) (ld : nat) (x : list Real_t) (j : nat) :
  ∀ (k i : nat) temp,
    (i + k ≤ length x)%nat →
    (∀ i', (i' < i + k)%nat → (i' + j * ld < length a)%nat) →
    dot_col a (Z.of_nat ld) x 1 (Z.of_nat j) (Z.of_nat i) k temp
    = Some (fold_left (λ acc i', radd acc (rmul (entry a ld i' j) (elem x i')))
                      (seq i k) temp).
Proof.
  induction k as [|k IH]; intros i temp Hx Ha; simpl; [reflexivity|].
  destruct (lookup_lt_is_Some_2 a (i + j * ld)) as [aij Haij]; [apply Ha; lia|].
  destruct (lookup_lt_is_Some_2 x i) as [xi Hxi]; [lia|].
  rewrite (rd_entry _ _ _ _ _ Haij). simpl.
  rewrite Z.mul_1_r, rd_nat, Hxi. simpl.
  replace (Z.of_nat i + 1) with (Z.of_nat (S i)) by lia.
  rewrite IH; [|lia|intros; apply Ha; lia].
  unfold entry, elem. rewrite Haij, Hxi. reflexivity.
Qed.

(** The inner loop leaves [x] once its index reaches the end of [x]. *)
Lemma dot_col_oob (a : list Real_t) (lda : Z) (x : list Real_t) (j : Z) :
  ∀ (k i : nat) temp,
    (i ≤ length x < i + k)%nat →
    dot_col a lda x 1 j (Z.of_nat i) k temp = None.
Proof.
  induction k as [|k IH]; intros i temp Hx; [lia|]. simpl.
  destruct (rd a (Z.of_nat i + j * lda)) as [aij|]; [simpl|reflexivity].
  rewrite Z.mul_1_r, rd_nat.
  destruct (x !! i) as [xi|] eqn:Exi; simpl.
  - replace (Z.of_nat i + 1) with (Z.of_nat (S i)) by lia.
    apply IH. apply lookup_lt_Some in Exi. lia.
  - reflexivity.
Qed.

(** The transposed product with [alpha = 1], [beta = 0] and unit strides:
    [y[j]] becomes component [j] of [Aᵀ x] for [j < n]; what [y] held is not
    read. *)
Lemma gemv_T_run (a : list Real_t) (ld m : nat) (x y : list Real_t) :
  ∀ (k j : nat),
    (m ≤ length x)%nat → (j + k ≤ length y)%nat →
    (∀ i' j', (i' < m)%nat → (j' < j + k)%nat → (i' + j' * ld < length a)%nat) →
    gemv_T (Z.of_nat m) (of_int 1) a (Z.of_nat ld) x 1 (of_int 0) 1
           (Z.of_nat j) k ((transpose_times a ld m x <$> seq 0 j) ++ drop j y)
    = Some ((transpose_times a ld m x <$> seq 0 (j + k)) ++ drop (j + k) y).
Proof.
  induction k as [|k IH]; intros j Hx Hy Ha; simpl.
  - rewrite Nat.add_0_r. reflexivity.
  - rewrite Nat2Z.id.
    rewrite (dot_col_run a ld x j m 0 (of_int 0));
      [|lia|intros; apply Ha; lia]. simpl.
    unfold scaled. rewrite req_zero. simpl.
    rewrite Z.mul_1_r, wr_nat by (rewrite prefix_length; lia). simpl.
    fold (sum_n m (λ i', rmul (entry a ld i' j) (elem x i'))).
    fold (transpose_times a ld m x j).
    rewrite prefix_insert by lia.
    replace (Z.of_nat j + 1) with (Z.of_nat (S j)) by lia.
    rewrite IH; [|lia|lia|intros; apply Ha; lia].
    replace (S j + k)%nat with (j + S k)%nat by lia. reflexivity.
Qed.

Lemma gemv_transposed (a : list Real_t) (ld m n : nat) (x y : list Real_t) :
  (m ≤ length x)%nat → (n ≤ length y)%nat →
  (∀ i j, (i < m)%nat → (j < n)%nat → (i + j * ld < length a)%nat) →
  gemv "T" (Z.of_nat m) (Z.of_nat n) (of_int 1) a (Z.of_nat ld) x 1
       (of_int 0) y 1
  = Some ((transpose_times a ld m x <$> seq 0 n) ++ drop n y).
Proof.
  intros Hx Hy Ha. unfold gemv. simpl. rewrite Nat2Z.id.
  exact (gemv_T_run a ld m x y n 0 Hx Hy Ha).
Qed.

Lemma gemv_transposed_oob (a : list Real_t) (lda : Z) (m n : nat)
    (x y : list Real_t) alpha beta :
  (length x < m)%nat → (0 < n)%nat →
  gemv "T" (Z.of_nat m) (Z.of_nat n) alpha a lda x 1 beta y 1 = None.
Proof.
  intros Hx Hn. unfold gemv. simpl. rewrite Nat2Z.id.
  destruct n as [|n]; [lia|]. simpl. rewrite Nat2Z.id.
  rewrite (dot_col_oob a lda x 0 m 0); [reflexivity|lia].
Qed.
End GemvFacts.

(** ** Heap primitives *)

Section HeapFacts.
Context {Real_t : Type} `{RealOps Real_t}.
Implicit Types h : heap Real_t.

Lemma reals_log h e : reals (log h e) = reals h.
Proof. reflexivity. Qed.

Lemma overwrite_length {A} (old new : list A) :
  length (overwrite old new) = length old.
Proof. unfold overwrite. rewrite length_app, length_take, length_drop. lia. Qed.

Lemma overwrite_same_length {A} (old new : list A) :
  length new = length old → overwrite old new = new.
Proof.
  intros E. unfold overwrite.
  rewrite take_ge, drop_ge, app_nil_r by lia. reflexivity.
Qed.

Lemma read_buf_ok h p l : reals h !! p = Some l → read_buf p h = Ok l h.
Proof. intros E. unfold read_buf. rewrite E. reflexivity. Qed.

Lemma write_back_ok h p l new :
  reals h !! p = Some l → write_back p new h = Ok tt (upd h p (overwrite l new)).
Proof. intros E. unfold write_back. rewrite E. reflexivity. Qed.

Lemma buffer_factory_ok h (n : nat) :
  let p := fresh (dom (reals h)) in
  buffer_factory (Z.of_nat n) h
  = Ok p (upd (log h (EvAlloc p n)) p (replicate n (of_int 0))).
Proof.
  unfold buffer_factory.
  destruct (Z.ltb_spec (Z.of_nat n) 0); [lia|]. rewrite Nat2Z.id. reflexivity.
Qed.

Lemma fresh_unused h : reals h !! fresh (dom (reals h)) = None.
Proof. apply not_elem_of_dom. apply is_fresh. Qed.

Lemma fresh_apart h p l : reals h !! p = Some l → p ≠ fresh (dom (reals h)).
Proof. intros E ->. rewrite fresh_unused in E. discriminate. Qed.

Lemma call_gemv_ok trans m n alpha a lda x incx beta y incy h A X Y Y' :
  reals h !! a = Some A → reals h !! x = Some X → reals h !! y = Some Y →
  gemv trans m n alpha A lda X incx beta Y incy = Some Y' →
  call_gemv trans m n alpha a lda x incx beta y incy h
  = Ok tt (upd (log h (EvCall Gemv)) y (overwrite Y Y')).
Proof.
  intros HA HX HY HG. unfold call_gemv.
  rewrite (bind_ok _ _ _ _ _ (read_buf_ok _ _ _ HA)).
  rewrite (bind_ok _ _ _ _ _ (read_buf_ok _ _ _ HX)).
  rewrite (bind_ok _ _ _ _ _ (read_buf_ok _ _ _ HY)).
  rewrite (bind_ok _ _ _ tt (log h (EvCall Gemv))) by reflexivity.
  rewrite HG. apply write_back_ok. rewrite reals_log. exact HY.
Qed.

Lemma call_gemv_oob trans m n alpha a lda x incx beta y incy h A X Y :
  reals h !! a = Some A → reals h !! x = Some X → reals h !! y = Some Y →
  gemv trans m n alpha A lda X incx beta Y incy = None →
  call_gemv trans m n alpha a lda x incx beta y incy h = Fault OutOfBounds.
Proof.
  intros HA HX HY HG. unfold call_gemv.
  rewrite (bind_ok _ _ _ _ _ (read_buf_ok _ _ _ HA)).
  rewrite (bind_ok _ _ _ _ _ (read_buf_ok _ _ _ HX)).
  rewrite (bind_ok _ _ _ _ _ (read_buf_ok _ _ _ HY)).
  rewrite (bind_ok _ _ _ tt (log h (EvCall Gemv))) by reflexivity.
  rewrite HG. reflexivity.
Qed.

Lemma elem_fmap_seq (f : nat → Real_t) (n k : nat) :
  (k < n)%nat → elem (f <$> seq 0 n) k = f k.
Proof.
  intros Hk. unfold elem.
  rewrite list_lookup_fmap, lookup_seq_lt by lia. reflexivity.
Qed.
End HeapFacts.

(** ** SVD: the division by the singular values *)

Section SVDDivision.
Context {Real_t : Type} `{RealOps Real_t}.
Implicit Types h : heap Real_t.
Import DenseMatrix SVD.

(** With no more rows than columns the loop stays inside [m_s], which has
    [min(m_nr, m_nc)] entries, and divides [y1[i]] by [m_s[i]] for every
    [i < m_nr]. *)
Lemma divide_by_singular_values_run (self : t Real_t) (y1 : loc) h Y S :
  let v := m_view self in
  reals h !! y1 = Some Y → reals h !! m_s self = Some S →
  length Y = Z.to_nat (m_nr v) →
  length S = Z.to_nat (Z.min (m_nr v) (m_nc v)) →
  y1 ≠ m_s self → m_nr v ≤ m_nc v →
  divide_by_singular_values self y1 h
  = Ok tt (upd h y1 ((λ k, rdiv (elem Y k) (elem S k)) <$> seq 0 (length Y))).
Proof.
  intros v HY HS LY LS Hne Hle. unfold divide_by_singular_values, for_range.
  fold v. rewrite <- LY.
  rewrite (pointwise_loop y1 (λ k, rdiv (elem Y k) (elem S k)) _ _ h Y HY);
    [| lia |].
  - rewrite drop_all, app_nil_r. reflexivity.
  - intros i Hi L.
    destruct (lookup_lt_is_Some_2 Y i Hi) as [yi Hyi].
    destruct (lookup_lt_is_Some_2 S i) as [si Hsi]; [lia|].
    rewrite (bind_ok _ _ _ yi (upd h y1 L)).
    2:{ apply (load_ok _ _ L); [apply reals_upd|].
        unfold L. rewrite prefix_lookup_rest by lia. exact Hyi. }
    rewrite (bind_ok _ _ _ si (upd h y1 L)).
    2:{ apply (load_ok _ _ S); [|exact Hsi].
        rewrite reals_upd_ne by exact Hne. exact HS. }
    rewrite (store_ok _ _ L);
      [| apply reals_upd | unfold L; rewrite prefix_length; lia].
    rewrite upd_upd. unfold elem. rewrite Hyi, Hsi. reflexivity.
Qed.

(** With more rows than columns the loop reaches [i = m_nc], where [m_s[i]]
    lies past the end of [m_s]. *)
Lemma divide_by_singular_values_oob (self : t Real_t) (y1 : loc) h Y S :
  let v := m_view self in
  reals h !! y1 = Some Y → reals h !! m_s self = Some S →
  length Y = Z.to_nat (m_nr v) →
  length S = Z.to_nat (Z.min (m_nr v) (m_nc v)) →
  y1 ≠ m_s self → 0 ≤ m_nc v < m_nr v →
  divide_by_singular_values self y1 h = Fault OutOfBounds.
Proof.
  intros v HY HS LY LS Hne Hlt. unfold divide_by_singular_values, for_range.
  fold v. set (g := λ k, rdiv (elem Y k) (elem S k)).
  apply (for_loop_fault
           (λ i h', h' = upd h y1 ((g <$> seq 0 i) ++ drop i Y))
           _ OutOfBounds (length S) (Z.to_nat (m_nr v)) 0 h).
  - simpl. rewrite drop_0. symmetry. apply upd_id. exact HY.
  - lia.
  - intros i hi Hi ->.
    destruct (lookup_lt_is_Some_2 Y i) as [yi Hyi]; [lia|].
    destruct (lookup_lt_is_Some_2 S i) as [si Hsi]; [lia|].
    eexists. split.
    + rewrite (bind_ok _ _ _ yi (upd h y1 ((g <$> seq 0 i) ++ drop i Y))).
      2:{ apply (load_ok _ _ ((g <$> seq 0 i) ++ drop i Y)); [apply reals_upd|].
          rewrite prefix_lookup_rest by lia. exact Hyi. }
      rewrite (bind_ok _ _ _ si (upd h y1 ((g <$> seq 0 i) ++ drop i Y))).
      2:{ apply (load_ok _ _ S); [|exact Hsi].
          rewrite reals_upd_ne by exact Hne. exact HS. }
      apply (store_ok _ _ ((g <$> seq 0 i) ++ drop i Y));
        [apply reals_upd | rewrite prefix_length; lia].
    + rewrite upd_upd. f_equal.
      replace (rdiv yi si) with (g i)
        by (unfold g, elem; rewrite Hyi, Hsi; reflexivity).
      apply prefix_insert. lia.
  - intros h' ->.
    destruct (lookup_lt_is_Some_2 Y (length S)) as [yi Hyi]; [lia|].
    rewrite (bind_ok _ _ _ yi
               (upd h y1 ((g <$> seq 0 (length S)) ++ drop (length S) Y))).
    2:{ apply (load_ok _ _ ((g <$> seq 0 (length S)) ++ drop (length S) Y));
          [apply reals_upd|].
        rewrite prefix_lookup_rest by lia. exact Hyi. }
    apply bind_fault. apply (load_oob _ _ S); [|lia].
    rewrite reals_upd_ne by exact Hne. exact HS.
Qed.
End SVDDivision.

(** ** SVD: solve *)

Section SVDSolve.
Context {Real_t : Type} `{RealOps Real_t}.
Implicit Types h : heap Real_t.
Import DenseMatrix SVD.

(** [solve] up to and including its first product: a fresh [y1] of [m_nr]
    entries receives [Uᵀ b]. *)
Lemma SVD_solve_first_product (self : t Real_t) (b x : loc) h U S VT B X :
  svd_ready self b x h U S VT B X →
  let v := m_view self in
  let y1 := fresh (dom (reals h)) in
  solve self b x h
  = (divide_by_singular_values self y1;;
     call_gemv "T" (m_nc v) (m_nc v) (of_int 1) (m_vt self) (m_ldvt self)
               y1 1 (of_int 0) x 1;;
     buffer_release y1;;
     mret 0) (after_first_product h (Z.to_nat (m_nr v)) U B).
Proof.
  intros R v y1. destruct R. fold v in ready_nr0, ready_u_len0, ready_b_len0.
  unfold solve. fold v.
  set (n := Z.to_nat (m_nr v)).
  assert (m_nr v = Z.of_nat n) as En by (unfold n; lia).
  rewrite ready_ldu0. fold v. rewrite En.
  rewrite (bind_ok _ _ _ _ _ (buffer_factory_ok h n)). fold y1.
  set (hA := upd (log h (EvAlloc y1 n)) y1 (replicate n (of_int 0))).
  assert (m_u self ≠ y1) as Hu by exact (fresh_apart _ _ _ ready_u0).
  assert (b ≠ y1) as Hb by exact (fresh_apart _ _ _ ready_b0).
  rewrite (bind_ok _ _ _ tt
             (upd (log hA (EvCall Gemv)) y1
                  (transpose_times U n n B <$> seq 0 n))).
  - f_equal. unfold after_first_product, upd, log, hA. simpl. fold y1.
    rewrite insert_insert_eq, <- app_assoc. reflexivity.
  - rewrite (call_gemv_ok _ _ _ _ _ _ _ _ _ _ _ hA U B
               (replicate n (of_int 0))
               ((transpose_times U n n B <$> seq 0 n)
                ++ drop n (replicate n (of_int 0)))).
    + rewrite drop_ge, app_nil_r by (rewrite length_replicate; lia).
      rewrite overwrite_same_length;
        [reflexivity | rewrite length_fmap, length_seq, length_replicate; lia].
    + unfold hA. rewrite reals_upd_ne by congruence. exact ready_u0.
    + unfold hA. rewrite reals_upd_ne by congruence. exact ready_b0.
    + apply reals_upd.
    + apply gemv_transposed.
      * lia.
      * rewrite length_replicate. lia.
      * intros i j Hi Hj. rewrite ready_u_len0, ready_ldu0. fold v.
        rewrite Z2Nat.inj_mul by lia. apply entry_in_bounds; assumption.
Qed.

(** On a square view [solve] runs to completion inside every array, returns
    0, leaves [V Σ⁻¹ Uᵀ b] in [x] and nothing else changed, having called
    the matrix-vector product exactly twice. *)
Lemma SVD_solve_square (self : t Real_t) (b x : loc) h U S VT B X :
  svd_ready self b x h U S VT B X →
  let v := m_view self in
  let n := Z.to_nat (m_nr v) in
  let y1 := fresh (dom (reals h)) in
  m_nr v = m_nc v →
  solve self b x h
  = Ok 0 (Heap (<[x := V_Sinv_Ut U S VT n B]> (reals h)) (ints h)
               (trace h ++ [EvAlloc y1 n; EvCall Gemv; EvCall Gemv; EvFree y1])).
Proof.
  intros R v n y1 Hsq.
  rewrite (SVD_solve_first_product self b x h U S VT B X R). fold v y1 n.
  destruct R. fold v in ready_nr0, ready_nc0, ready_s_len0, ready_vt_len0,
    ready_x_len0, ready_ldvt0.
  assert (m_nc v = Z.of_nat n) as En by (unfold n; lia).
  assert (x ≠ y1) as Hx by exact (fresh_apart _ _ _ ready_x0).
  assert (m_s self ≠ y1) as Hs by exact (fresh_apart _ _ _ ready_s0).
  assert (m_vt self ≠ y1) as Hvt by exact (fresh_apart _ _ _ ready_vt0).
  set (Y1 := transpose_times U n n B <$> seq 0 n).
  set (hB := after_first_product h n U B).
  assert (reals hB !! y1 = Some Y1) as HY1 by apply lookup_insert_eq.
  assert (∀ p, p ≠ y1 → reals hB !! p = reals h !! p) as Hframe.
  { intros p Hp. unfold hB, after_first_product. simpl.
    apply lookup_insert_ne. intros E. apply Hp. symmetry. exact E. }
  assert (length Y1 = n) as LY1
    by (unfold Y1; rewrite length_fmap, length_seq; reflexivity).
  rewrite (bind_ok _ _ _ tt (upd hB y1 (scaled_projection U S n B))).
  2:{ rewrite (divide_by_singular_values_run self y1 hB Y1 S); fold v;
        try (first [exact HY1 | congruence | lia]).
      - f_equal. f_equal. rewrite LY1. unfold scaled_projection.
        apply list_fmap_ext. intros i k Hk.
        apply lookup_seq in Hk as [-> Hk]. simpl.
        unfold Y1. rewrite elem_fmap_seq by lia. reflexivity.
      - rewrite Hframe by exact Hs. exact ready_s0. }
  set (Y2 := scaled_projection U S n B).
  rewrite En, ready_ldvt0. fold v. rewrite En.
  rewrite (bind_ok _ _ _ tt
             (upd (log (upd hB y1 Y2) (EvCall Gemv)) x (V_Sinv_Ut U S VT n B))).
  - rewrite bind_unfold. unfold buffer_release. rewrite mret_unfold.
    f_equal. unfold upd, log, hB, after_first_product. simpl. fold y1.
    f_equal.
    + rewrite delete_insert_ne by congruence.
      rewrite insert_insert_eq, delete_insert_id by apply fresh_unused.
      reflexivity.
    + rewrite <- !app_assoc. reflexivity.
  - rewrite (call_gemv_ok _ _ _ _ _ _ _ _ _ _ _ (upd hB y1 Y2) VT Y2 X
               ((transpose_times VT n n Y2 <$> seq 0 n) ++ drop n X)).
    + rewrite drop_ge, app_nil_r by lia.
      rewrite overwrite_same_length;
        [reflexivity | rewrite length_fmap, length_seq; lia].
    + rewrite reals_upd_ne by congruence. rewrite Hframe by exact Hvt.
      exact ready_vt0.
    + apply reals_upd.
    + rewrite reals_upd_ne by congruence. rewrite Hframe by exact Hx.
      exact ready_x0.
    + apply gemv_transposed.
      * unfold Y2, scaled_projection. rewrite length_fmap, length_seq. lia.
      * lia.
      * intros i j Hi Hj. rewrite ready_vt_len0, ready_ldvt0. fold v.
        rewrite Z2Nat.inj_mul by lia.
        replace (Z.to_nat (m_nc v)) with n by lia.
        apply entry_in_bounds; assumption.
Qed.

(** With more rows than columns [solve] leaves [m_s] in its division loop. *)
Lemma SVD_solve_tall (self : t Real_t) (b x : loc) h U S VT B X :
  svd_ready self b x h U S VT B X →
  let v := m_view self in
  m_nc v < m_nr v →
  solve self b x h = Fault OutOfBounds.
Proof.
  intros R v Hlt.
  rewrite (SVD_solve_first_product self b x h U S VT B X R). fold v.
  destruct R. fold v in ready_nr0, ready_nc0, ready_s_len0.
  set (n := Z.to_nat (m_nr v)). set (y1 := fresh (dom (reals h))).
  assert (m_s self ≠ y1) as Hs by exact (fresh_apart _ _ _ ready_s0).
  apply bind_fault.
  apply (divide_by_singular_values_oob self y1 _
           (transpose_times U n n B <$> seq 0 n) S); fold v.
  - apply lookup_insert_eq.
  - unfold after_first_product. simpl. fold y1.
    rewrite lookup_insert_ne by congruence. exact ready_s0.
  - rewrite length_fmap, length_seq. reflexivity.
  - exact ready_s_len0.
  - congruence.
  - lia.
Qed.

(** With fewer rows than columns the second product reads [y1], which has
    [m_nr] entries, up to index [m_nc - 1]. *)
Lemma SVD_solve_wide (self : t Real_t) (b x : loc) h U S VT B X :
  svd_ready self b x h U S VT B X →
  let v := m_view self in
  m_nr v < m_nc v →
  solve self b x h = Fault OutOfBounds.
Proof.
  intros R v Hlt.
  rewrite (SVD_solve_first_product self b x h U S VT B X R). fold v.
  destruct R. fold v in ready_nr0, ready_nc0, ready_s_len0.
  set (n := Z.to_nat (m_nr v)). set (y1 := fresh (dom (reals h))).
  assert (x ≠ y1) as Hx by exact (fresh_apart _ _ _ ready_x0).
  assert (m_s self ≠ y1) as Hs by exact (fresh_apart _ _ _ ready_s0).
  assert (m_vt self ≠ y1) as Hvt by exact (fresh_apart _ _ _ ready_vt0).
  set (Y1 := transpose_times U n n B <$> seq 0 n).
  set (hB := after_first_product h n U B).
  assert (reals hB !! y1 = Some Y1) as HY1 by apply lookup_insert_eq.
  assert (∀ p, p ≠ y1 → reals hB !! p = reals h !! p) as Hframe.
  { intros p Hp. unfold hB, after_first_product. simpl.
    apply lookup_insert_ne. intros E. apply Hp. symmetry. exact E. }
  assert (length Y1 = n) as LY1
    by (unfold Y1; rewrite length_fmap, length_seq; reflexivity).
  rewrite (bind_ok _ _ _ _ _
             (divide_by_singular_values_run self y1 hB Y1 S HY1
                ltac:(rewrite Hframe by exact Hs; exact ready_s0)
                LY1 ready_s_len0 ltac:(congruence) ltac:(fold v; lia))).
  apply bind_fault.
  set (Y2 := (λ k, rdiv (elem Y1 k) (elem S k)) <$> seq 0 (length Y1)).
  apply (call_gemv_oob _ _ _ _ _ _ _ _ _ _ _ _ VT Y2 X).
  - rewrite reals_upd_ne by congruence. rewrite Hframe by exact Hvt.
    exact ready_vt0.
  - apply reals_upd.
  - rewrite reals_upd_ne by congruence. rewrite Hframe by exact Hx.
    exact ready_x0.
  - rewrite <- (Z2Nat.id (m_nc v)) by lia.
    apply gemv_transposed_oob; [|lia].
    unfold Y2. rewrite length_fmap, length_seq. lia.
Qed.
End SVDSolve.

Section SVDSolveClaims.
Context {Real_t : Type} `{RealOps Real_t}.
Implicit Types h : heap Real_t.
Import DenseMatrix SVD.

(** C1, as the code has it.  For every factorized SVD instance over a square
    view and every [b], [solve] returns 0 and leaves [x = V Σ⁻¹ Uᵀ b],
    computed by exactly two matrix-vector products: first [y1 = Uᵀ b] into a
    temporary, then, after [y1] has been divided elementwise by the singular
    values, [x = V y1].  Every singular value is divided by, a zero one
    too: there is no cut-off that would make the result the minimum-norm
    least-squares solution of a rank-deficient system. *)
Theorem SVD_solve_computes (self : t Real_t) (b x : loc) h U S VT B X :
  svd_ready self b x h U S VT B X →
  let v := m_view self in
  let n := Z.to_nat (m_nr v) in
  m_nr v = m_nc v →
  ∃ h' y1,
    solve self b x h = Ok 0 h'
    ∧ reals h' !! x = Some (V_Sinv_Ut U S VT n B)
    ∧ scaled_projection U S n B
      = (λ k, rdiv (transpose_times U n n B k) (elem S k)) <$> seq 0 n
    ∧ (∀ p, p ≠ x → reals h' !! p = reals h !! p)
    ∧ trace h' = trace h ++ [EvAlloc y1 n; EvCall Gemv; EvCall Gemv; EvFree y1].
Proof.
  intros R v n Hsq. eexists. exists (fresh (dom (reals h))).
  split; [apply (SVD_solve_square self b x h U S VT B X R Hsq)|]. simpl.
  split; [apply lookup_insert_eq|].
  split; [reflexivity|].
  split; [|reflexivity].
  intros p Hp. apply lookup_insert_ne. congruence.
Qed.

(** C8, as the code has it.  For every SVD instance over a square view every
    array access of [solve] is within bounds.  The division loop reads
    [m_s[i]] for [i < m_nr] only, inside the [min(m_nr, m_nc)] entries of
    [m_s] whenever [m_nr <= m_nc], and past them when [m_nr > m_nc]; but
    with [m_nr < m_nc] the second product reads [y1], of [m_nr] entries, up
    to index [m_nc - 1], so [solve] is within bounds on square views only. *)
Theorem SVD_solve_bounds (self : t Real_t) (b x : loc) h U S VT B X :
  svd_ready self b x h U S VT B X →
  let v := m_view self in
  (m_nr v = m_nc v → ∃ h', solve self b x h = Ok 0 h')
  ∧ (m_nc v < m_nr v → solve self b x h = Fault OutOfBounds)
  ∧ (m_nr v < m_nc v → solve self b x h = Fault OutOfBounds)
  ∧ (∀ y1 h1 Y,
       reals h1 !! y1 = Some Y → reals h1 !! m_s self = Some S →
       length Y = Z.to_nat (m_nr v) → y1 ≠ m_s self →
       (m_nr v ≤ m_nc v → ∃ h2, divide_by_singular_values self y1 h1 = Ok tt h2)
       ∧ (m_nc v < m_nr v →
          divide_by_singular_values self y1 h1 = Fault OutOfBounds)).
Proof.
  intros R v. split; [|split; [|split]].
  - intros Hsq. eexists. apply (SVD_solve_square self b x h U S VT B X R Hsq).
  - apply (SVD_solve_tall self b x h U S VT B X R).
  - apply (SVD_solve_wide self b x h U S VT B X R).
  - intros y1 h1 Y HY HS LY Hne. destruct R. subst v. split.
    + intros Hle. eexists.
      apply (divide_by_singular_values_run self y1 h1 Y S); assumption.
    + intros Hlt.
      apply (divide_by_singular_values_oob self y1 h1 Y S); try assumption.
      lia.
Qed.
End SVDSolveClaims.

(** ** SVD.solve on concrete systems *)

Section SVDSolveExamples.
Import Examples.

Lemma hfull_ready :
  svd_ready (svd_at 2 2 1 2%float) 2%positive 3%positive hfull
            [1; 0; 0; 1]%float [4; 2]%float [1; 0; 0; 1]%float
            [8; 6]%float [0; 0]%float.
Proof.
  constructor; try reflexivity; try (simpl; lia).
  intros Hin.
  repeat (apply elem_of_cons in Hin as [Hin|Hin]; [discriminate Hin|]).
  inversion Hin.
Defined.

Lemma SVD_solve_computes_witness :
  ∃ h' y1,
    SVD.solve (svd_at 2 2 1 2%float) 2%positive 3%positive hfull = Ok 0 h'
    ∧ reals h' !! 3%positive = Some [2%float; 3%float]
    ∧ trace h' = [EvAlloc y1 2; EvCall Gemv; EvCall Gemv; EvFree y1].
Proof.
  destruct (SVD_solve_computes _ _ _ _ _ _ _ _ _ hfull_ready eq_refl)
    as (h' & y1 & E & Hx & _ & _ & Ht).
  exists h', y1. split; [exact E|]. split; [|exact Ht].
  etransitivity; [exact Hx|]. vm_compute. reflexivity.
Defined.

(** C1 as stated fails on a rank-deficient system.  For [diag(1, 0)], whose
    factors are [U = Vᵀ = I] and the singular values 1 and 0 (their product
    [U Σ Vᵀ] is the matrix), and [b = (1, 1)], constructing, factorizing and
    solving return 0 and leave [x = (NaN, ∞)]: the division by the zero
    singular value gives [∞], which the second product spreads.  The
    residual of that [x] is not a number, so it is no least-squares
    solution, let alone the one of minimum norm, which is [(1, 0)]. *)
Lemma SVD_solve_rank_deficient_counterexample :
  let r := svd_solved (dense_view 2 2) 2%positive 3%positive hsing in
  status_of r = Some (0, svd_at 2 2 1 infinity)
  ∧ array_after r 5%positive = Some [1; 0; 0; 1]%float
  ∧ array_after r 4%positive = Some [1; 0]%float
  ∧ array_after r 6%positive = Some [1; 0; 0; 1]%float
  ∧ U_S_Vt [1; 0; 0; 1]%float [1; 0]%float [1; 0; 0; 1]%float 2
    = singular_matrix
  ∧ array_after r 3%positive = Some [nan; infinity]
  ∧ ¬ min_norm_least_squares singular_matrix 2 [1; 1]%float [nan; infinity].
Proof.
  repeat (split; [vm_compute; reflexivity|]).
  intros [(_ & Hnum & _) _]. vm_compute in Hnum. discriminate Hnum.
Qed.

Lemma SVD_solve_bounds_witness :
  DenseMatrix.m_nr (dense_view 2 2) = DenseMatrix.m_nc (dense_view 2 2)
  ∧ ∃ h', SVD.solve (svd_at 2 2 1 2%float) 2%positive 3%positive hfull
          = Ok 0 h'.
Proof.
  split; [reflexivity|].
  exact (proj1 (SVD_solve_bounds _ _ _ _ _ _ _ _ _ hfull_ready) eq_refl).
Defined.

(** C8 as stated fails on a view with fewer rows than columns.  On a 1-by-2
    view construction and factorization succeed, [m_nr <= m_nc] holds, and
    [solve] leaves its arrays: the second product, of order [m_nc = 2],
    reads [y1[1]] where [y1] has [m_nr = 1] entry. *)
Lemma SVD_solve_wide_counterexample :
  status_of (svd_built (dense_view 1 2) hwide) = Some (svd_at 1 2 1 1%float)
  ∧ DenseMatrix.m_nr (dense_view 1 2) ≤ DenseMatrix.m_nc (dense_view 1 2)
  ∧ fault_of (svd_solved (dense_view 1 2) 2%positive 3%positive hwide)
    = Some OutOfBounds.
Proof.
  split; [vm_compute; reflexivity|].
  split; [simpl; lia|]. vm_compute. reflexivity.
Qed.

(** And on a 2-by-1 view the division loop reads [m_s[1]] where [m_s] has
    one entry. *)
Lemma SVD_solve_tall_example :
  status_of (svd_built (dense_view 2 1) htall) = Some (svd_at 2 1 1 1%float)
  ∧ fault_of (svd_solved (dense_view 2 1) 2%positive 3%positive htall)
    = Some OutOfBounds.
Proof. split; vm_compute; reflexivity. Qed.
End SVDSolveExamples.

(** ** What a run leaves alone *)

Section Preservation.
Context {Real_t : Type} `{RealOps Real_t}.
Implicit Types (h : heap Real_t) (R : heap Real_t → heap Real_t → Prop).
Implicit Types (v : Real_t) (new : list Real_t).

#[global] Instance same_except_preorder E :
  PreOrder (same_except (Real_t := Real_t) E).
Proof.
  split.
  - intros h. split; reflexivity.
  - intros h1 h2 h3 [F12 I12] [F23 I23]. split.
    + intros p Hp. rewrite F23, F12 by exact Hp. reflexivity.
    + congruence.
Qed.

#[global] Instance sizes_kept_preorder E :
  PreOrder (sizes_kept_except (Real_t := Real_t) E).
Proof.
  split.
  - intros h. split; intros p l; eauto.
  - intros h1 h2 h3 [F12 I12] [F23 I23]. split.
    + intros p l Hp E1. destruct (F12 p l Hp E1) as (l2 & E2 & L2).
      destruct (F23 p l2 Hp E2) as (l3 & E3 & L3).
      exists l3. split; [exact E3|congruence].
    + intros p l E1. destruct (I12 p l E1) as (l2 & E2 & L2).
      destruct (I23 p l2 E2) as (l3 & E3 & L3).
      exists l3. split; [exact E3|congruence].
Qed.

#[global] Instance no_allocation_preorder :
  PreOrder (no_allocation (Real_t := Real_t)).
Proof.
  split.
  - intros h. reflexivity.
  - intros h1 h2 h3 E12 E23. unfold no_allocation in *. congruence.
Qed.

Lemma preserves_ret {A} R `{!Reflexive R} (a : A) :
  preserves R (mret a : M Real_t A).
Proof. intros h a' h' E. rewrite mret_unfold in E. inversion E. reflexivity. Qed.

Lemma preserves_raise {A} R f : preserves R (raise f : M Real_t A).
Proof. intros h a h' E. discriminate E. Qed.

Lemma preserves_bind {A B} R `{!Transitive R}
    (m : M Real_t A) (k : A → M Real_t B) :
  preserves R m → (∀ a, preserves R (k a)) → preserves R (m ≫= k).
Proof.
  intros Pm Pk h b h' E. apply bind_inv in E as (a & h1 & E1 & E2).
  transitivity h1; [exact (Pm _ _ _ E1)|exact (Pk _ _ _ _ E2)].
Qed.

Lemma preserves_for_loop R `{!PreOrder R} body :
  (∀ i, preserves R (body i)) → ∀ k i, preserves R (for_loop body i k).
Proof.
  intros Pb. induction k as [|k IH]; intros i; simpl.
  - apply preserves_ret. apply _.
  - apply preserves_bind; [apply _|apply Pb|intros _; apply IH].
Qed.

Lemma preserves_unchanged {A} R `{!Reflexive R} (m : M Real_t A) :
  (∀ h a h', m h = Ok a h' → h' = h) → preserves R m.
Proof. intros Hm h a h' E. rewrite (Hm _ _ _ E). reflexivity. Qed.

Lemma load_unchanged p i h v h' : load p i h = Ok v h' → h' = h.
Proof.
  unfold load. destruct (reals h !! p); [|discriminate].
  destruct (rd _ i); [|discriminate]. congruence.
Qed.

Lemma read_buf_unchanged p h l h' : read_buf p h = Ok l h' → h' = h.
Proof. unfold read_buf. destruct (reals h !! p); [|discriminate]. congruence. Qed.

Lemma read_ints_unchanged p h l h' : read_ints p h = Ok l h' → h' = h.
Proof. unfold read_ints. destruct (ints h !! p); [|discriminate]. congruence. Qed.

Lemma store_inv p i v h u h' :
  store p i v h = Ok u h' →
  ∃ l l', reals h !! p = Some l ∧ length l' = length l ∧ h' = upd h p l'.
Proof.
  unfold store. destruct (reals h !! p) as [l|]; [|discriminate].
  unfold wr. destruct (_ && _); [|discriminate]. intros E.
  exists l, (<[Z.to_nat i := v]> l).
  split; [reflexivity|]. split; [apply length_insert|congruence].
Qed.

Lemma write_back_inv p new h u h' :
  write_back p new h = Ok u h' →
  ∃ l, reals h !! p = Some l ∧ h' = upd h p (overwrite l new).
Proof.
  unfold write_back. destruct (reals h !! p) as [l|]; [|discriminate].
  intros E. exists l. split; [reflexivity|congruence].
Qed.

Lemma write_back_ints_inv p (new : list Z) h u h' :
  write_back_ints p new h = Ok u h' →
  ∃ l, ints h !! p = Some l
       ∧ h' = Heap (reals h) (<[p := overwrite l new]> (ints h)) (trace h).
Proof.
  unfold write_back_ints. destruct (ints h !! p) as [l|]; [|discriminate].
  intros E. exists l. split; [reflexivity|congruence].
Qed.

(** Replacing one array. *)
Lemma upd_same_except E h p l : p ∈ E → same_except E h (upd h p l).
Proof.
  intros Hp. split; [|reflexivity].
  intros q Hq. apply reals_upd_ne. intros ->. exact (Hq Hp).
Qed.

Lemma upd_sizes_kept E h p l l' :
  reals h !! p = Some l → length l' = length l →
  sizes_kept_except E h (upd h p l').
Proof.
  intros Hl Hlen. split.
  - intros q lq _ Hq. destruct (decide (p = q)) as [->|Hne].
    + exists l'. split; [apply reals_upd|congruence].
    + exists lq. rewrite reals_upd_ne by exact Hne. split; [exact Hq|reflexivity].
  - intros q lq Hq. exists lq. split; [exact Hq|reflexivity].
Qed.

Lemma store_same_except E p i v : p ∈ E → preserves (same_except E) (store p i v).
Proof.
  intros Hp h u h' E'. apply store_inv in E' as (l & l' & _ & _ & ->).
  apply upd_same_except. exact Hp.
Qed.

Lemma store_sizes_kept E p i v : preserves (sizes_kept_except E) (store p i v).
Proof.
  intros h u h' E'. apply store_inv in E' as (l & l' & Hl & Hlen & ->).
  apply (upd_sizes_kept E h p l l' Hl Hlen).
Qed.

Lemma store_no_allocation p i v : preserves no_allocation (store p i v).
Proof.
  intros h u h' E'. apply store_inv in E' as (l & l' & _ & _ & ->). reflexivity.
Qed.

Lemma write_back_same_except E p new :
  p ∈ E → preserves (same_except E) (write_back p new).
Proof.
  intros Hp h u h' E'. apply write_back_inv in E' as (l & _ & ->).
  apply upd_same_except. exact Hp.
Qed.

Lemma write_back_sizes_kept E p new :
  preserves (sizes_kept_except E) (write_back p new).
Proof.
  intros h u h' E'. apply write_back_inv in E' as (l & Hl & ->).
  apply (upd_sizes_kept E h p l _ Hl). apply overwrite_length.
Qed.

Lemma write_back_no_allocation p new : preserves no_allocation (write_back p new).
Proof.
  intros h u h' E'. apply write_back_inv in E' as (l & _ & ->). reflexivity.
Qed.

Lemma write_back_ints_sizes_kept E p (new : list Z) :
  preserves (sizes_kept_except E) (write_back_ints p new : M Real_t unit).
Proof.
  intros h u h' E'. apply write_back_ints_inv in E' as (l & Hl & ->). split.
  - intros q lq _ Hq. exists lq. split; [exact Hq|reflexivity].
  - intros q lq Hq. simpl. destruct (decide (p = q)) as [->|Hne].
    + exists (overwrite l new). rewrite lookup_insert_eq.
      split; [reflexivity|]. rewrite overwrite_length. congruence.
    + exists lq. rewrite lookup_insert_ne by exact Hne.
      split; [exact Hq|reflexivity].
Qed.

Lemma write_back_ints_no_allocation p (new : list Z) :
  preserves no_allocation (write_back_ints p new : M Real_t unit).
Proof.
  intros h u h' E'. apply write_back_ints_inv in E' as (l & _ & ->). reflexivity.
Qed.

Lemma emit_same_except E e : preserves (same_except E) (emit e : M Real_t unit).
Proof. intros h u h' E'. inversion E'. split; reflexivity. Qed.

Lemma emit_sizes_kept E e : preserves (sizes_kept_except E) (emit e : M Real_t unit).
Proof. intros h u h' E'. inversion E'. split; intros p l; eauto. Qed.

Lemma emit_call_no_allocation f : preserves no_allocation (emit (EvCall f) : M Real_t unit).
Proof.
  intros h u h' E'. inversion E'. unfold no_allocation, allocations. simpl.
  rewrite omap_app. simpl. apply app_nil_r.
Qed.

Lemma release_same_except E p :
  p ∈ E → preserves (same_except E) (buffer_release p : M Real_t unit).
Proof.
  intros Hp h u h' E'. inversion E'. split; [|reflexivity].
  intros q Hq. simpl. apply lookup_delete_ne. intros ->. exact (Hq Hp).
Qed.

Lemma release_sizes_kept E p :
  p ∈ E → preserves (sizes_kept_except E) (buffer_release p : M Real_t unit).
Proof.
  intros Hp h u h' E'. inversion E'. split.
  - intros q lq Hq Hl. exists lq. simpl.
    rewrite lookup_delete_ne by (intros ->; exact (Hq Hp)).
    split; [exact Hl|reflexivity].
  - intros q lq Hq. exists lq. split; [exact Hq|reflexivity].
Qed.

Lemma release_no_allocation p :
  preserves no_allocation (buffer_release p : M Real_t unit).
Proof.
  intros h u h' E'. inversion E'. unfold no_allocation, allocations. simpl.
  rewrite omap_app. simpl. apply app_nil_r.
Qed.
End Preservation.

Create HintDb preserves.
#[global] Hint Resolve preserves_ret preserves_raise preserves_for_loop
  store_sizes_kept store_no_allocation write_back_sizes_kept
  write_back_no_allocation write_back_ints_sizes_kept
  write_back_ints_no_allocation emit_same_except emit_sizes_kept
  emit_call_no_allocation release_no_allocation : preserves.
#[global] Hint Extern 1 (preserves _ (load _ _)) =>
  apply preserves_unchanged; [apply _ | apply load_unchanged] : preserves.
#[global] Hint Extern 1 (preserves _ (read_buf _)) =>
  apply preserves_unchanged; [apply _ | apply read_buf_unchanged] : preserves.
#[global] Hint Extern 1 (preserves _ (read_ints _)) =>
  apply preserves_unchanged; [apply _ | apply read_ints_unchanged] : preserves.
#[global] Hint Extern 1 (preserves (same_except _) (store _ _ _)) =>
  apply store_same_except; set_solver : preserves.
#[global] Hint Extern 1 (preserves (same_except _) (write_back _ _)) =>
  apply write_back_same_except; set_solver : preserves.
#[global] Hint Extern 1 (preserves (same_except _) (buffer_release _)) =>
  apply release_same_except; set_solver : preserves.
#[global] Hint Extern 1 (preserves (sizes_kept_except _) (buffer_release _)) =>
  apply release_sizes_kept; set_solver : preserves.

(** Runs a preservation goal through the structure of the program. *)
Ltac preserve :=
  repeat first
    [ apply preserves_bind; [apply _ | | intros ?]
    | apply preserves_for_loop; [apply _ | intros ?]
    | match goal with
      | |- preserves _ (match ?e with _ => _ end) => destruct e
      end
    | solve [eauto with preserves typeclass_instances] ].

(** ** C5: what solve leaves alone *)

Section SolveFrame.
Context {Real_t : Type} `{RealOps Real_t} (bk : Backend Real_t).
Implicit Types h : heap Real_t.

Lemma overwrite_self {A} (l : list A) : overwrite l l = l.
Proof. apply overwrite_same_length. reflexivity. Qed.

Lemma call_gemv_same_except E trans m n (alpha : Real_t) a lda x incx beta y incy :
  y ∈ E →
  preserves (same_except E) (call_gemv trans m n alpha a lda x incx beta y incy).
Proof. intros Hy. unfold call_gemv. preserve. Qed.

Lemma std_copy_same_except E src n dst :
  dst ∈ E → preserves (same_except E) (std_copy src n dst : M Real_t unit).
Proof. intros Hd. unfold std_copy, for_range. preserve. Qed.

(** A solve routine that only reads the factors and the pivots changes the
    right-hand side array and nothing else. *)
Lemma write_factors_back h a A ipiv P b new :
  reals h !! a = Some A → ints h !! ipiv = Some P →
  ∀ (info r : Z) h',
    (write_back a A;; write_back_ints ipiv P;; write_back b new;; mret info
     : M Real_t Z) h
    = Ok r h' → same_except [b] h h'.
Proof.
  intros HA HP info r h' E.
  rewrite (bind_ok _ _ _ tt h) in E.
  2:{ rewrite (write_back_ok _ _ _ _ HA), overwrite_self, upd_id by exact HA.
      reflexivity. }
  rewrite (bind_ok _ _ _ tt h) in E.
  2:{ unfold write_back_ints. rewrite HP, overwrite_self.
      rewrite insert_id by exact HP. destruct h; reflexivity. }
  apply bind_inv in E as ([] & h1 & E1 & E2).
  rewrite mret_unfold in E2. inversion E2; subst.
  revert E1. apply write_back_same_except. set_solver.
Qed.

Lemma call_getrs_same_except trans n nrhs a lda ipiv b ldb :
  solve_reads_factors bk →
  preserves (same_except [b]) (call_getrs bk trans n nrhs a lda ipiv b ldb).
Proof.
  intros [Hg _] h r h' E. unfold call_getrs in E.
  apply bind_inv in E as (A & h1 & E1 & E).
  pose proof (read_buf_unchanged _ _ _ _ E1) as ->.
  apply bind_inv in E as (P & h1 & E2 & E).
  pose proof (read_ints_unchanged _ _ _ _ E2) as ->.
  apply bind_inv in E as (B & h1 & E3 & E).
  pose proof (read_buf_unchanged _ _ _ _ E3) as ->.
  apply bind_inv in E as ([] & h1 & E4 & E). inversion E4; subst h1.
  specialize (Hg trans n nrhs A lda P B ldb).
  destruct (getrs bk trans n nrhs A lda P B ldb) as [[[A' P'] B'] info].
  simpl in Hg. inversion Hg; subst A' P'.
  transitivity (log h (EvCall Getrs)); [split; reflexivity|].
  unfold read_buf in E1. unfold read_ints in E2.
  destruct (reals h !! a) as [A0|] eqn:HA; [|discriminate].
  destruct (ints h !! ipiv) as [P0|] eqn:HP; [|discriminate].
  inversion E1; inversion E2; subst A0 P0.
  exact (write_factors_back (log h (EvCall Getrs)) a A ipiv P b B' HA HP _ _ _ E).
Qed.

Lemma call_gbtrs_same_except trans n kl ku nrhs ab ldab ipiv b ldb :
  solve_reads_factors bk →
  preserves (same_except [b])
            (call_gbtrs bk trans n kl ku nrhs ab ldab ipiv b ldb).
Proof.
  intros [_ Hg] h r h' E. unfold call_gbtrs in E.
  apply bind_inv in E as (A & h1 & E1 & E).
  pose proof (read_buf_unchanged _ _ _ _ E1) as ->.
  apply bind_inv in E as (P & h1 & E2 & E).
  pose proof (read_ints_unchanged _ _ _ _ E2) as ->.
  apply bind_inv in E as (B & h1 & E3 & E).
  pose proof (read_buf_unchanged _ _ _ _ E3) as ->.
  apply bind_inv in E as ([] & h1 & E4 & E). inversion E4; subst h1.
  specialize (Hg trans n kl ku nrhs A ldab P B ldb).
  destruct (gbtrs bk trans n kl ku nrhs A ldab P B ldb) as [[[A' P'] B'] info].
  simpl in Hg. inversion Hg; subst A' P'.
  transitivity (log h (EvCall Gbtrs)); [split; reflexivity|].
  unfold read_buf in E1. unfold read_ints in E2.
  destruct (reals h !! ab) as [A0|] eqn:HA; [|discriminate].
  destruct (ints h !! ipiv) as [P0|] eqn:HP; [|discriminate].
  inversion E1; inversion E2; subst A0 P0.
  exact (write_factors_back (log h (EvCall Gbtrs)) ab A ipiv P b B' HA HP _ _ _ E).
Qed.

Lemma buffer_factory_inv (n : Z) h p h1 :
  buffer_factory n h = Ok p h1 →
  0 ≤ n ∧ p = fresh (dom (reals h))
  ∧ h1 = upd (log h (EvAlloc p (Z.to_nat n))) p
             (replicate (Z.to_nat n) (of_int 0)).
Proof.
  unfold buffer_factory. destruct (Z.ltb_spec n 0); [discriminate|].
  intros E. inversion E; subst. split; [lia|]. split; reflexivity.
Qed.

Lemma SVD_solve_same_except (self : SVD.t Real_t) (b x : loc) :
  preserves (same_except [x]) (SVD.solve self b x).
Proof.
  intros h r h' E. unfold SVD.solve in E.
  apply bind_inv in E as (y1 & h1 & E1 & E).
  apply buffer_factory_inv in E1 as (_ & Hy1 & ->).
  assert (same_except [x; y1]
            (upd (log h (EvAlloc y1 (Z.to_nat (DenseMatrix.m_nr (SVD.m_view self)))))
                 y1 (replicate (Z.to_nat (DenseMatrix.m_nr (SVD.m_view self)))
                               (of_int 0))) h') as [F I].
  { revert E. generalize r. generalize h'.
    match goal with |- ∀ h' r, ?m ?h0 = Ok r h' → _ =>
      cut (preserves (same_except [x; y1]) m); [intros P ? ?; apply P|] end.
    apply preserves_bind; [apply _| |intros ?].
    { apply call_gemv_same_except. set_solver. }
    apply preserves_bind; [apply _| |intros ?].
    { unfold SVD.divide_by_singular_values, for_range. preserve. }
    apply preserves_bind; [apply _| |intros ?].
    { apply call_gemv_same_except. set_solver. }
    preserve. }
  assert (reals h' !! y1 = None) as Hgone.
  { apply bind_inv in E as (? & h2 & _ & E).
    apply bind_inv in E as (? & h3 & _ & E).
    apply bind_inv in E as (? & h4 & _ & E).
    apply bind_inv in E as (? & h5 & E5 & E).
    rewrite mret_unfold in E. assert (h' = h5) as -> by congruence.
    unfold buffer_release in E5.
    apply (f_equal (λ o, match o with
                         | Ok _ hh => reals hh !! y1
                         | Fault _ => None
                         end)) in E5.
    simpl in E5. rewrite <- E5. apply lookup_delete_eq. }
  split.
  - intros p Hp. apply not_elem_of_cons in Hp as [Hp _].
    destruct (decide (p = y1)) as [->|Hne].
    + rewrite Hgone, Hy1. symmetry. apply fresh_unused.
    + rewrite F by apart. rewrite reals_upd_ne by congruence.
      reflexivity.
  - rewrite I. reflexivity.
Qed.

(** C5.  With a backend whose solve routines only read the factors and the
    pivot indices, as LAPACK documents, every [solve(b, x)] of every
    strategy that returns leaves every real array other than [x] as it was,
    in particular [b], the view's storage and the singular values, [U] and
    [Vᵀ], and leaves every integer array, the pivots, as it was.  The
    strategy object is not assigned either: [solve] hands back a status only
    (see [SVD.invoke]).  So of [factorize] and [solve] only [factorize]
    changes the view's storage. *)
Theorem solve_mutates_only_x :
  solve_reads_factors bk →
  ∀ (b x : loc) h (r : Z) h',
    (∃ self, DenseLU.solve bk self b x h = Ok r h')
    ∨ (∃ self, BandedLU.solve bk self b x h = Ok r h')
    ∨ (∃ self, DiagonalInv.solve self b x h = Ok r h')
    ∨ (∃ self : SVD.t Real_t, SVD.solve self b x h = Ok r h') →
    (∀ p, p ≠ x → reals h' !! p = reals h !! p) ∧ ints h' = ints h.
Proof.
  intros Hbk b x h r h' Hrun.
  assert (same_except [x] h h') as [F I].
  { destruct Hrun as [[self E]|[[self E]|[[self E]|[self E]]]]; revert E.
    - revert h r h'.
      change (preserves (same_except [x]) (DenseLU.solve bk self b x)).
      unfold DenseLU.solve.
      apply preserves_bind; [apply _| |intros _].
      + apply std_copy_same_except. set_solver.
      + apply call_getrs_same_except. exact Hbk.
    - revert h r h'.
      change (preserves (same_except [x]) (BandedLU.solve bk self b x)).
      unfold BandedLU.solve.
      apply preserves_bind; [apply _| |intros _].
      + apply std_copy_same_except. set_solver.
      + apply call_gbtrs_same_except. exact Hbk.
    - revert h r h'.
      change (preserves (same_except [x]) (DiagonalInv.solve self b x)).
      unfold DiagonalInv.solve, for_range. preserve.
    - apply SVD_solve_same_except. }
  split; [|exact I]. intros p Hp. apply F. apart.
Qed.
End SolveFrame.

(** ** C6: allocations and sizes *)

Section Allocation.
Context {Real_t : Type} `{RealOps Real_t} (bk : Backend Real_t).
Implicit Types h : heap Real_t.

Lemma buffer_factory_sizes_kept E (n : Z) :
  preserves (sizes_kept_except E) (buffer_factory n : M Real_t loc).
Proof.
  intros h p h1 E1. apply buffer_factory_inv in E1 as (_ & Hp & ->). split.
  - intros q l _ Hq. exists l. split; [|reflexivity].
    rewrite reals_upd_ne; [exact Hq|].
    intros <-. rewrite Hp, fresh_unused in Hq. discriminate.
  - intros q l Hq. exists l. split; [exact Hq|reflexivity].
Qed.

Lemma buffer_factory_int_inv (n : Z) h p h1 :
  (buffer_factory_int n : M Real_t loc) h = Ok p h1 →
  0 ≤ n ∧ p = fresh (dom (ints h))
  ∧ h1 = Heap (reals h) (<[p := replicate (Z.to_nat n) 0]> (ints h))
              (trace h ++ [EvAllocInt p (Z.to_nat n)]).
Proof.
  unfold buffer_factory_int. destruct (Z.ltb_spec n 0); [discriminate|].
  intros E. inversion E; subst. split; [lia|]. split; reflexivity.
Qed.

Lemma settled_intro {A} (m : M Real_t A) :
  preserves no_allocation m → preserves (sizes_kept_except []) m →
  ∀ h a h', m h = Ok a h' → settled h h'.
Proof. intros P1 P2 h a h' E. split; [exact (P1 _ _ _ E)|exact (P2 _ _ _ E)]. Qed.

Lemma DenseLU_factorize_settled self h r h' :
  DenseLU.factorize bk self h = Ok r h' → settled h h'.
Proof.
  apply settled_intro; unfold DenseLU.factorize, call_getrf; preserve.
Qed.

Lemma DenseLU_solve_settled self b x h r h' :
  DenseLU.solve bk self b x h = Ok r h' → settled h h'.
Proof.
  apply settled_intro;
    unfold DenseLU.solve, call_getrs, std_copy, for_range; preserve.
Qed.

Lemma BandedLU_factorize_settled self h r h' :
  BandedLU.factorize bk self h = Ok r h' → settled h h'.
Proof.
  apply settled_intro; unfold BandedLU.factorize, call_gbtrf; preserve.
Qed.

Lemma BandedLU_solve_settled self b x h r h' :
  BandedLU.solve bk self b x h = Ok r h' → settled h h'.
Proof.
  apply settled_intro;
    unfold BandedLU.solve, call_gbtrs, std_copy, for_range; preserve.
Qed.

Lemma DiagonalInv_factorize_settled self h (r : Z) h' :
  DiagonalInv.factorize self h = Ok r h' → settled h h'.
Proof. apply settled_intro; unfold DiagonalInv.factorize, for_range; preserve. Qed.

Lemma DiagonalInv_solve_settled self b x h (r : Z) h' :
  DiagonalInv.solve self b x h = Ok r h' → settled h h'.
Proof. apply settled_intro; unfold DiagonalInv.solve, for_range; preserve. Qed.

Lemma SVD_factorize_settled (self : SVD.t Real_t) h r h' :
  SVD.factorize bk self h = Ok r h' → settled h h'.
Proof.
  apply settled_intro; unfold SVD.factorize, SVD.call_gesvd; preserve.
Qed.
End Allocation.

(** ** SVD: construction and factorization *)

Section SVDConstruction.
Context {Real_t : Type} `{RealOps Real_t} (bk : Backend Real_t).
Implicit Types h : heap Real_t.
Import DenseMatrix SVD.

Lemma buffer_factory_run (n : Z) h :
  0 ≤ n →
  let p := fresh (dom (reals h)) in
  buffer_factory n h
  = Ok p (upd (log h (EvAlloc p (Z.to_nat n))) p
              (replicate (Z.to_nat n) (of_int 0))).
Proof.
  intros Hn p. unfold buffer_factory.
  destruct (Z.ltb_spec n 0); [lia|]. reflexivity.
Qed.

(** The singular value decomposition routine, run on four distinct arrays:
    each receives what the backend leaves for it. *)
Lemma call_gesvd_run (v : DenseMatrix.t) s ldu u ldvt vt work lwork h A S U VT :
  reals h !! m_data v = Some A → reals h !! s = Some S →
  reals h !! u = Some U → reals h !! vt = Some VT →
  NoDup [m_data v; s; u; vt] →
  let r := gesvd bk "A" "A" (m_nr v) (m_nc v) A (m_ld v) S U ldu VT ldvt
                 work lwork in
  call_gesvd bk v s ldu u ldvt vt work lwork h
  = Ok (overwrite work r.1.2, r.2)
       (upd (upd (upd (upd (log h (EvCall Gesvd))
                           (m_data v) (overwrite A r.1.1.1.1.1))
                      s (overwrite S r.1.1.1.1.2))
                 u (overwrite U r.1.1.1.2))
            vt (overwrite VT r.1.1.2)).
Proof.
  intros HA HS HU HVT Hnd r. unfold call_gesvd.
  assert (m_data v ≠ s ∧ m_data v ≠ u ∧ m_data v ≠ vt ∧ s ≠ u ∧ s ≠ vt ∧ u ≠ vt)
    as (N1 & N2 & N3 & N4 & N5 & N6).
  { apply NoDup_cons in Hnd as [I1 Hnd]. apply NoDup_cons in Hnd as [I2 Hnd].
    apply NoDup_cons in Hnd as [I3 _].
    repeat split; set_solver. }
  rewrite (bind_ok _ _ _ _ _ (read_buf_ok _ _ _ HA)).
  rewrite (bind_ok _ _ _ _ _ (read_buf_ok _ _ _ HS)).
  rewrite (bind_ok _ _ _ _ _ (read_buf_ok _ _ _ HU)).
  rewrite (bind_ok _ _ _ _ _ (read_buf_ok _ _ _ HVT)).
  rewrite (bind_ok _ _ _ tt (log h (EvCall Gesvd))) by reflexivity.
  fold r. destruct r as [[[[[A' S'] U'] VT'] W'] info]. cbn [fst snd].
  set (h0 := log h (EvCall Gesvd)).
  set (h1 := upd h0 (m_data v) (overwrite A A')).
  set (h2 := upd h1 s (overwrite S S')).
  set (h3 := upd h2 u (overwrite U U')).
  assert (reals h1 !! s = Some S) as HS1
    by (unfold h1; rewrite reals_upd_ne by exact N1; exact HS).
  assert (reals h2 !! u = Some U) as HU2
    by (unfold h2, h1; rewrite !reals_upd_ne by congruence; exact HU).
  assert (reals h3 !! vt = Some VT) as HVT3
    by (unfold h3, h2, h1; rewrite !reals_upd_ne by congruence; exact HVT).
  rewrite (bind_ok _ _ _ tt h1 (write_back_ok h0 _ A A' HA)).
  rewrite (bind_ok _ _ _ tt h2 (write_back_ok h1 _ S S' HS1)).
  rewrite (bind_ok _ _ _ tt h3 (write_back_ok h2 _ U U' HU2)).
  rewrite (bind_ok _ _ _ tt _ (write_back_ok h3 _ VT VT' HVT3)).
  reflexivity.
Qed.

(** Whatever the arrays, a returning call appends one event, resizes
    nothing, and hands back the work array as the backend left it. *)
Lemma call_gesvd_inv (v : DenseMatrix.t) s ldu u ldvt vt work lwork h w info h' :
  call_gesvd bk v s ldu u ldvt vt work lwork h = Ok (w, info) h' →
  trace h' = trace h ++ [EvCall Gesvd]
  ∧ sizes_kept_except [] h h'
  ∧ ∃ a s0 u0 vt0,
      w = overwrite work
            (gesvd bk "A" "A" (m_nr v) (m_nc v) a (m_ld v) s0 u0 ldu vt0 ldvt
                   work lwork).1.2.
Proof.
  intros E. split; [|split].
  - unfold call_gesvd in E.
    apply bind_inv in E as (A & h1 & E1 & E).
    pose proof (read_buf_unchanged _ _ _ _ E1) as ->.
    apply bind_inv in E as (S & h1 & E2 & E).
    pose proof (read_buf_unchanged _ _ _ _ E2) as ->.
    apply bind_inv in E as (U & h1 & E3 & E).
    pose proof (read_buf_unchanged _ _ _ _ E3) as ->.
    apply bind_inv in E as (VT & h1 & E4 & E).
    pose proof (read_buf_unchanged _ _ _ _ E4) as ->.
    apply bind_inv in E as ([] & h1 & E5 & E).
    unfold emit in E5. injection E5 as <-.
    destruct (gesvd _ _ _ _ _ _ _ _ _ _ _ _ _ _) as [[[[[A' S'] U'] VT'] W'] i].
    apply bind_inv in E as ([] & h2 & W1 & E).
    apply write_back_inv in W1 as (? & _ & ->).
    apply bind_inv in E as ([] & h3 & W2 & E).
    apply write_back_inv in W2 as (? & _ & ->).
    apply bind_inv in E as ([] & h4 & W3 & E).
    apply write_back_inv in W3 as (? & _ & ->).
    apply bind_inv in E as ([] & h5 & W4 & E).
    apply write_back_inv in W4 as (? & _ & ->).
    rewrite mret_unfold in E. injection E as _ _ <-. reflexivity.
  - assert (preserves (sizes_kept_except [])
              (call_gesvd bk v s ldu u ldvt vt work lwork)) as P
      by (unfold call_gesvd; preserve).
    exact (P _ _ _ E).
  - unfold call_gesvd in E.
    apply bind_inv in E as (A & h1 & _ & E).
    apply bind_inv in E as (S & h2 & _ & E).
    apply bind_inv in E as (U & h3 & _ & E).
    apply bind_inv in E as (VT & h4 & _ & E).
    apply bind_inv in E as ([] & h5 & _ & E).
    exists A, S, U, VT.
    destruct (gesvd _ _ _ _ _ _ _ _ _ _ _ _ _ _) as [[[[[A' S'] U'] VT'] W'] i].
    apply bind_inv in E as ([] & ? & _ & E).
    apply bind_inv in E as ([] & ? & _ & E).
    apply bind_inv in E as ([] & ? & _ & E).
    apply bind_inv in E as ([] & ? & _ & E).
    rewrite mret_unfold in E. injection E as <- _ _. reflexivity.
Qed.
End SVDConstruction.

Section SVDConstructor.
Context {Real_t : Type} `{RealOps Real_t} (bk : Backend Real_t).
Implicit Types h : heap Real_t.
Import DenseMatrix SVD.

Lemma sizes_kept_lookup h h' p l :
  sizes_kept_except [] h h' → reals h !! p = Some l →
  ∃ l', reals h' !! p = Some l' ∧ length l' = length l.
Proof. intros [K _] Hl. apply K; [set_solver|exact Hl]. Qed.

(** What a returning constructor has done: the members it set, the four
    allocations it made, in order and with their sizes, around its workspace
    query, and the arrays it left. *)
Lemma SVD_ctor_inv (view : DenseMatrix.t) h (self : t Real_t) h' :
  ctor bk view h = Ok self h' →
  m_view self = view ∧ m_ldu self = m_nr view ∧ m_ldvt self = m_nc view
  ∧ m_condition_number self = of_int (-1)
  ∧ trace h' = trace h ++
      [EvAlloc (m_s self) (Z.to_nat (Z.min (m_nr view) (m_nc view)));
       EvAlloc (m_u self) (Z.to_nat (int_mul (m_nr view) (m_nr view)));
       EvAlloc (m_vt self) (Z.to_nat (int_mul (m_nc view) (m_nc view)));
       EvCall Gesvd;
       EvAlloc (m_work self) (Z.to_nat (m_lwork self))]
  ∧ (∃ S U VT W,
       reals h' !! m_s self = Some S
       ∧ length S = Z.to_nat (Z.min (m_nr view) (m_nc view))
       ∧ reals h' !! m_u self = Some U
       ∧ length U = Z.to_nat (int_mul (m_nr view) (m_nr view))
       ∧ reals h' !! m_vt self = Some VT
       ∧ length VT = Z.to_nat (int_mul (m_nc view) (m_nc view))
       ∧ reals h' !! m_work self = Some W
       ∧ length W = Z.to_nat (m_lwork self))
  ∧ sizes_kept_except [] h h'.
Proof.
  intros E. unfold ctor in E.
  apply bind_inv in E as (s & h1 & E1 & E).
  apply bind_inv in E as (u & h2 & E2 & E).
  apply bind_inv in E as (vt & h3 & E3 & E).
  apply bind_inv in E as ([w info] & h4 & E4 & E).
  apply bind_inv in E as (work & h5 & E5 & E).
  rewrite mret_unfold in E. injection E as <- <-.
  pose proof (buffer_factory_sizes_kept [] _ _ _ _ E1) as K1.
  pose proof (buffer_factory_sizes_kept [] _ _ _ _ E2) as K2.
  pose proof (buffer_factory_sizes_kept [] _ _ _ _ E3) as K3.
  pose proof (buffer_factory_sizes_kept [] _ _ _ _ E5) as K5.
  apply call_gesvd_inv in E4 as (T4 & K4 & _).
  apply buffer_factory_inv in E1 as (_ & _ & E1).
  apply buffer_factory_inv in E2 as (_ & _ & E2).
  apply buffer_factory_inv in E3 as (_ & _ & E3).
  apply buffer_factory_inv in E5 as (_ & _ & E5).
  assert (reals h1 !! s = Some (replicate (Z.to_nat (Z.min (m_nr view) (m_nc view)))
                                          (of_int 0))) as L1
    by (rewrite E1; apply reals_upd).
  assert (reals h2 !! u = Some (replicate (Z.to_nat (int_mul (m_nr view) (m_nr view)))
                                          (of_int 0))) as L2
    by (rewrite E2; apply reals_upd).
  assert (reals h3 !! vt = Some (replicate (Z.to_nat (int_mul (m_nc view) (m_nc view)))
                                           (of_int 0))) as L3
    by (rewrite E3; apply reals_upd).
  assert (sizes_kept_except [] h3 h5) as K35 by (transitivity h4; assumption).
  assert (sizes_kept_except [] h2 h5) as K25 by (transitivity h3; assumption).
  assert (sizes_kept_except [] h1 h5) as K15 by (transitivity h2; assumption).
  simpl. do 4 (split; [reflexivity|]). split; [|split].
  - rewrite E5. simpl. rewrite T4, E3. simpl. rewrite E2. simpl. rewrite E1.
    simpl. rewrite <- !app_assoc. reflexivity.
  - destruct (sizes_kept_lookup _ _ _ _ K15 L1) as (S & HS & LS).
    destruct (sizes_kept_lookup _ _ _ _ K25 L2) as (U & HU & LU).
    destruct (sizes_kept_lookup _ _ _ _ K35 L3) as (VT & HVT & LVT).
    rewrite length_replicate in LS, LU, LVT.
    exists S, U, VT, (replicate (Z.to_nat
      (to_int (default (of_int 0) (head w)))) (of_int 0)).
    repeat split; try assumption.
    + rewrite E5. apply reals_upd.
    + apply length_replicate.
  - transitivity h1; [exact K1|exact K15].
Qed.

(** On a view with non-negative dimensions over an allocated array, with a
    backend that answers the workspace query with a size, the constructor
    returns. *)
Lemma SVD_ctor_returns (view : DenseMatrix.t) h A :
  0 ≤ m_nr view → 0 ≤ m_nc view →
  m_nr view * m_nr view ≤ INT_MAX → m_nc view * m_nc view ≤ INT_MAX →
  reals h !! m_data view = Some A →
  query_answers_size bk →
  ∃ self h', ctor bk view h = Ok self h'.
Proof.
  intros Hr Hc Br Bc HA Hq. unfold ctor.
  rewrite (int_mul_small (m_nr view) (m_nr view)) by nia.
  rewrite (int_mul_small (m_nc view) (m_nc view)) by nia.
  rewrite (bind_ok _ _ _ _ _
             (buffer_factory_run (Z.min (m_nr view) (m_nc view)) h ltac:(lia))).
  set (s := fresh (dom (reals h))).
  set (h1 := upd (log h _) s _).
  rewrite (bind_ok _ _ _ _ _
             (buffer_factory_run (m_nr view * m_nr view) h1 ltac:(nia))).
  set (u := fresh (dom (reals h1))).
  set (h2 := upd (log h1 _) u _).
  rewrite (bind_ok _ _ _ _ _
             (buffer_factory_run (m_nc view * m_nc view) h2 ltac:(nia))).
  set (vt := fresh (dom (reals h2))).
  set (h3 := upd (log h2 _) vt _).
  assert (reals h1 !! s = Some (replicate (Z.to_nat (Z.min (m_nr view) (m_nc view)))
                                          (of_int 0))) as L1 by apply reals_upd.
  assert (reals h1 !! m_data view = Some A) as A1.
  { unfold h1. rewrite reals_upd_ne; [exact HA|].
    intros E. symmetry in E. revert E. exact (fresh_apart _ _ _ HA). }
  assert (reals h2 !! u = Some (replicate (Z.to_nat (m_nr view * m_nr view))
                                          (of_int 0))) as L2 by apply reals_upd.
  assert (u ≠ s) as Nus
    by (intros E; symmetry in E; revert E; exact (fresh_apart _ _ _ L1)).
  assert (u ≠ m_data view) as Nua
    by (intros E; symmetry in E; revert E; exact (fresh_apart _ _ _ A1)).
  assert (reals h2 !! s = Some (replicate (Z.to_nat (Z.min (m_nr view) (m_nc view)))
                                          (of_int 0))) as S2
    by (unfold h2; rewrite reals_upd_ne by exact Nus; exact L1).
  assert (reals h2 !! m_data view = Some A) as A2
    by (unfold h2; rewrite reals_upd_ne by exact Nua; exact A1).
  assert (vt ≠ s) as Nvs
    by (intros E; symmetry in E; revert E; exact (fresh_apart _ _ _ S2)).
  assert (vt ≠ u) as Nvu
    by (intros E; symmetry in E; revert E; exact (fresh_apart _ _ _ L2)).
  assert (vt ≠ m_data view) as Nva
    by (intros E; symmetry in E; revert E; exact (fresh_apart _ _ _ A2)).
  assert (reals h3 !! m_data view = Some A) as A3
    by (unfold h3; rewrite reals_upd_ne by exact Nva; exact A2).
  assert (reals h3 !! s = Some (replicate (Z.to_nat (Z.min (m_nr view) (m_nc view)))
                                          (of_int 0))) as S3
    by (unfold h3; rewrite reals_upd_ne by exact Nvs; exact S2).
  assert (reals h3 !! u = Some (replicate (Z.to_nat (m_nr view * m_nr view))
                                          (of_int 0))) as U3
    by (unfold h3; rewrite reals_upd_ne by exact Nvu; exact L2).
  assert (reals h3 !! vt = Some (replicate (Z.to_nat (m_nc view * m_nc view))
                                           (of_int 0))) as V3
    by apply reals_upd.
  assert (m_data view ≠ s) as Nas by exact (fresh_apart _ _ _ HA).
  assert (NoDup [m_data view; s; u; vt]) as Hnd.
  { repeat (apply NoDup_cons_2; [apart|]). apply NoDup_nil_2. }
  rewrite (bind_ok _ _ _ _ _
             (call_gesvd_run bk view s (m_nr view) u (m_nc view) vt
                [of_int 0] (-1) h3 _ _ _ _ A3 S3 U3 V3 Hnd)).
  cbv beta iota.
  match goal with
  | |- ∃ self h', (buffer_factory ?n ≫= _) ?h4 = _ =>
      assert (0 ≤ n) as Hn by apply Hq;
      rewrite (bind_ok _ _ _ _ _ (buffer_factory_run n h4 Hn))
  end.
  eexists. eexists. reflexivity.
Qed.
End SVDConstructor.

Section SVDFactorize.
Context {Real_t : Type} `{RealOps Real_t} (bk : Backend Real_t).
Implicit Types h : heap Real_t.
Import DenseMatrix SVD.

(** [factorize] hands the five arrays to the backend, returns its status and
    stores the absolute value of the ratio of the first to the last of the
    [min(m_nr, m_nc)] singular values. *)
Lemma SVD_factorize_run (self : t Real_t) h A S U VT W :
  svd_allocated self h A S U VT W →
  let v := m_view self in
  let r := gesvd bk "A" "A" (m_nr v) (m_nc v) A (m_ld v) S U (m_ldu self)
                 VT (m_ldvt self) W (m_lwork self) in
  let S' := singular_values_after bk self A S U VT W in
  ∃ h',
    factorize bk self h
    = Ok (r.2,
          set_condition_number self
            (rfabs (rdiv (elem S' 0)
                         (elem S' (Z.to_nat (Z.min (m_nr v) (m_nc v)) - 1)))))
         h'
    ∧ reals h' !! m_s self = Some S'.
Proof.
  intros R v r S'. destruct R. fold v in allocated_data0, allocated_apart0,
    allocated_s_len0, allocated_nonempty0.
  assert (m_data v ≠ m_s self ∧ m_s self ≠ m_u self ∧ m_s self ≠ m_vt self
          ∧ m_s self ≠ m_work self ∧ m_work self ≠ m_data v
          ∧ m_work self ≠ m_u self ∧ m_work self ≠ m_vt self
          ∧ NoDup [m_data v; m_s self; m_u self; m_vt self])
    as (N1 & N2 & N3 & N4 & N5 & N6 & N7 & Hnd).
  { pose proof allocated_apart0 as Hnd.
    repeat split;
      try (first
        [ exact (NoDup_apart _ 0 1 _ _ Hnd eq_refl eq_refl ltac:(lia))
        | exact (NoDup_apart _ 1 2 _ _ Hnd eq_refl eq_refl ltac:(lia))
        | exact (NoDup_apart _ 1 3 _ _ Hnd eq_refl eq_refl ltac:(lia))
        | exact (NoDup_apart _ 1 4 _ _ Hnd eq_refl eq_refl ltac:(lia))
        | exact (NoDup_apart _ 4 0 _ _ Hnd eq_refl eq_refl ltac:(lia))
        | exact (NoDup_apart _ 4 2 _ _ Hnd eq_refl eq_refl ltac:(lia))
        | exact (NoDup_apart _ 4 3 _ _ Hnd eq_refl eq_refl ltac:(lia)) ]).
    change (NoDup ([m_data v; m_s self; m_u self; m_vt self]
                   ++ [m_work self])) in Hnd.
    apply NoDup_app in Hnd as [Hnd _]. exact Hnd. }
  unfold factorize. fold v.
  rewrite (bind_ok _ _ _ _ _ (read_buf_ok _ _ _ allocated_work0)).
  rewrite (bind_ok _ _ _ _ _
             (call_gesvd_run bk v (m_s self) (m_ldu self) (m_u self)
                (m_ldvt self) (m_vt self) W (m_lwork self) h A S U VT
                allocated_data0 allocated_s0 allocated_u0 allocated_vt0 Hnd)).
  fold r. cbv beta iota.
  set (h4 := upd (upd (upd (upd (log h (EvCall Gesvd)) _ _) _ _) _ _) _ _).
  assert (reals h4 !! m_work self = Some W) as HW4.
  { unfold h4. rewrite !reals_upd_ne by congruence. exact allocated_work0. }
  assert (reals h4 !! m_s self = Some S') as HS4.
  { unfold h4. rewrite !reals_upd_ne by congruence. apply reals_upd. }
  rewrite (bind_ok _ _ _ _ _ (write_back_ok h4 _ W _ HW4)).
  set (h5 := upd h4 _ _).
  assert (reals h5 !! m_s self = Some S') as HS5.
  { unfold h5. rewrite reals_upd_ne by congruence. exact HS4. }
  assert (length S' = Z.to_nat (Z.min (m_nr v) (m_nc v))) as LS'.
  { unfold S', singular_values_after. rewrite overwrite_length.
    exact allocated_s_len0. }
  destruct (lookup_lt_is_Some_2 S' 0) as [s0 Hs0]; [lia|].
  destruct (lookup_lt_is_Some_2 S' (Z.to_nat (Z.min (m_nr v) (m_nc v)) - 1))
    as [sl Hsl]; [lia|].
  rewrite (bind_ok _ _ _ s0 h5) by exact (load_ok h5 _ S' 0 s0 HS5 Hs0).
  replace (Z.min (m_nr v) (m_nc v) - 1)
    with (Z.of_nat (Z.to_nat (Z.min (m_nr v) (m_nc v)) - 1)) by lia.
  rewrite (bind_ok _ _ _ sl h5) by exact (load_ok h5 _ S' _ sl HS5 Hsl).
  exists h5. split; [|exact HS5].
  rewrite mret_unfold. unfold elem. rewrite Hs0, Hsl. reflexivity.
Qed.

(** C4.  For every SVD instance over an nr-by-nc view, [factorize] hands
    the view's storage and its buffers to the backend and returns the
    backend's status; [m_s] then holds the singular values [s] that the
    backend left, [min(nr, nc)] of them, and, these being non-negative, the
    stored condition number is the ratio [s[0] / s[min(nr, nc) - 1]] of the
    first of them to the last, the largest and the smallest in the backend's
    descending order.  No other member is assigned, and [solve] does not
    depend on the stored value. *)
Theorem SVD_condition_number `{!FabsRatio Real_t} (self : t Real_t) h A S U VT W :
  svd_allocated self h A S U VT W →
  Forall (λ σ, rfabs σ = σ) (singular_values_after bk self A S U VT W) →
  let v := m_view self in
  let s := singular_values_after bk self A S U VT W in
  let info :=
    (gesvd bk "A" "A" (m_nr v) (m_nc v) A (m_ld v) S U (m_ldu self)
           VT (m_ldvt self) W (m_lwork self)).2 in
  let ratio := rdiv (elem s 0) (elem s (Z.to_nat (Z.min (m_nr v) (m_nc v)) - 1)) in
  ∃ self' h',
    factorize bk self h = Ok (info, self') h'
    ∧ self' = set_condition_number self ratio
    ∧ reals h' !! m_s self' = Some s
    ∧ length s = Z.to_nat (Z.min (m_nr v) (m_nc v))
    ∧ m_condition_number self' = ratio
    ∧ (∀ c b x, solve (set_condition_number self' c) b x = solve self' b x).
Proof.
  intros R Hpos v S' info ratio.
  destruct (SVD_factorize_run self h A S U VT W R) as (h' & E & HS').
  fold v S' info in E.
  assert (length S' = Z.to_nat (Z.min (m_nr v) (m_nc v))) as LS'.
  { unfold S', singular_values_after. rewrite overwrite_length.
    destruct R. assumption. }
  assert (1 ≤ Z.min (m_nr v) (m_nc v)) as Hne by (destruct R; assumption).
  assert (rfabs ratio = ratio) as Hratio.
  { destruct (lookup_lt_is_Some_2 S' 0) as [s0 Hs0]; [lia|].
    destruct (lookup_lt_is_Some_2 S' (Z.to_nat (Z.min (m_nr v) (m_nc v)) - 1))
      as [sl Hsl]; [lia|].
    unfold ratio, elem. rewrite Hs0, Hsl. simpl.
    apply fabs_ratio.
    - exact (proj1 (Forall_lookup _ S') Hpos _ _ Hs0).
    - exact (proj1 (Forall_lookup _ S') Hpos _ _ Hsl). }
  exists (set_condition_number self ratio), h'.
  split; [|split; [reflexivity|split; [exact HS'|split; [exact LS'|]]]].
  - rewrite E. unfold ratio in *. rewrite Hratio. reflexivity.
  - split; reflexivity.
Qed.


Lemma invoke_all_without_factorize (cs : list call) :
  ∀ (self : t Real_t) h self' h',
    Factorize ∉ cs → invoke_all bk self cs h = Ok self' h' → self' = self.
Proof.
  induction cs as [|c cs IH]; intros self h self' h' Hnf E; simpl in E.
  - rewrite mret_unfold in E. congruence.
  - apply bind_inv in E as ([r self1] & h1 & E1 & E).
    destruct c as [|b x]; [set_solver|]. simpl in E1.
    apply bind_inv in E1 as (r1 & h2 & _ & E1).
    rewrite mret_unfold in E1. injection E1 as _ <- _.
    apply (IH self h1 self' h'); [set_solver|exact E].
Qed.

(** C10.  On a view with non-negative dimensions whose squares fit into
    [int], with a backend whose answer to the workspace query converts to
    an [int] that is not negative, the constructor returns, and the instance
    it returns has the condition number -1; whatever sequence of calls
    follows, as long as none of them is [factorize] the condition number is
    still -1: [solve] does not assign it. *)
Theorem SVD_condition_number_sentinel (view : DenseMatrix.t) h A :
  0 ≤ m_nr view → 0 ≤ m_nc view →
  m_nr view * m_nr view ≤ INT_MAX → m_nc view * m_nc view ≤ INT_MAX →
  reals h !! m_data view = Some A →
  query_answers_size bk →
  (∃ self h1, ctor bk view h = Ok self h1)
  ∧ ∀ self h1,
      ctor bk view h = Ok self h1 →
      m_condition_number self = of_int (-1)
      ∧ ∀ cs self' h2,
          Factorize ∉ cs → invoke_all bk self cs h1 = Ok self' h2 →
          m_condition_number self' = of_int (-1).
Proof.
  intros Hr Hc Br Bc HA Hq. split.
  - exact (SVD_ctor_returns bk view h A Hr Hc Br Bc HA Hq).
  - intros self h1 E.
    destruct (SVD_ctor_inv bk view h self h1 E) as (_ & _ & _ & Hcn & _).
    split; [exact Hcn|].
    intros cs self' h2 Hnf E2.
    rewrite (invoke_all_without_factorize cs self h1 self' h2 Hnf E2).
    exact Hcn.
Qed.
End SVDFactorize.

Section AllocationClaim.
Context {Real_t : Type} `{RealOps Real_t} (bk : Backend Real_t).
Implicit Types h : heap Real_t.

Lemma allocations_snoc (tr : list event) p (n : nat) :
  allocations (tr ++ [EvAlloc p n]) = allocations tr ++ [n].
Proof. unfold allocations. rewrite omap_app. reflexivity. Qed.

(** [solve] of the SVD strategy makes one allocation, of [m_nr] elements,
    and resizes nothing. *)
Lemma SVD_solve_allocates (self : SVD.t Real_t) (b x : loc) h r h' :
  SVD.solve self b x h = Ok r h' →
  allocations (trace h')
  = allocations (trace h) ++ [Z.to_nat (DenseMatrix.m_nr (SVD.m_view self))]
  ∧ sizes_kept_except [] h h'.
Proof.
  intros E. unfold SVD.solve in E.
  apply bind_inv in E as (y1 & h1 & E1 & E).
  pose proof (buffer_factory_sizes_kept [] _ _ _ _ E1) as K1.
  apply buffer_factory_inv in E1 as (_ & Hy1 & E1).
  assert (preserves no_allocation
            (call_gemv "T" (DenseMatrix.m_nr (SVD.m_view self))
               (DenseMatrix.m_nr (SVD.m_view self)) (of_int 1) (SVD.m_u self)
               (SVD.m_ldu self) b 1 (of_int 0) y1 1;;
             SVD.divide_by_singular_values self y1;;
             call_gemv "T" (DenseMatrix.m_nc (SVD.m_view self))
               (DenseMatrix.m_nc (SVD.m_view self)) (of_int 1) (SVD.m_vt self)
               (SVD.m_ldvt self) y1 1 (of_int 0) x 1;;
             buffer_release y1;; mret 0)) as P1.
  { unfold call_gemv, SVD.divide_by_singular_values, for_range. preserve. }
  assert (preserves (sizes_kept_except [y1])
            (call_gemv "T" (DenseMatrix.m_nr (SVD.m_view self))
               (DenseMatrix.m_nr (SVD.m_view self)) (of_int 1) (SVD.m_u self)
               (SVD.m_ldu self) b 1 (of_int 0) y1 1;;
             SVD.divide_by_singular_values self y1;;
             call_gemv "T" (DenseMatrix.m_nc (SVD.m_view self))
               (DenseMatrix.m_nc (SVD.m_view self)) (of_int 1) (SVD.m_vt self)
               (SVD.m_ldvt self) y1 1 (of_int 0) x 1;;
             buffer_release y1;; mret 0)) as P2.
  { unfold call_gemv, SVD.divide_by_singular_values, for_range. preserve. }
  pose proof (P1 _ _ _ E) as A1. destruct (P2 _ _ _ E) as [K2 K2i].
  split.
  - unfold no_allocation in A1. rewrite A1, E1. apply allocations_snoc.
  - destruct K1 as [K1 K1i]. split.
    + intros q l _ Hq. destruct (K1 q l ltac:(set_solver) Hq) as (l1 & Hl1 & L1).
      assert (q ≠ y1) as Hne by (rewrite Hy1; exact (fresh_apart _ _ _ Hq)).
      destruct (K2 q l1 ltac:(apart) Hl1) as (l2 & Hl2 & L2).
      exists l2. split; [exact Hl2|congruence].
    + intros q l Hq. destruct (K1i q l Hq) as (l1 & Hl1 & L1).
      destruct (K2i q l1 Hl1) as (l2 & Hl2 & L2).
      exists l2. split; [exact Hl2|congruence].
Qed.

#[local] Instance same_trace_preorder : PreOrder (same_trace (Real_t := Real_t)).
Proof.
  split.
  - intros h. reflexivity.
  - intros h1 h2 h3 E1 E2. unfold same_trace in *. congruence.
Qed.

Lemma call_gemv_trace trans m n alpha a lda x incx beta y incy h u h' :
  call_gemv trans m n alpha a lda x incx beta y incy h = Ok u h' →
  trace h' = trace h ++ [EvCall Gemv].
Proof.
  intros E. unfold call_gemv in E.
  apply bind_inv in E as (A & h1 & E1 & E).
  pose proof (read_buf_unchanged _ _ _ _ E1) as ->.
  apply bind_inv in E as (X & h1 & E2 & E).
  pose proof (read_buf_unchanged _ _ _ _ E2) as ->.
  apply bind_inv in E as (Y & h1 & E3 & E).
  pose proof (read_buf_unchanged _ _ _ _ E3) as ->.
  apply bind_inv in E as ([] & h1 & E4 & E).
  unfold emit in E4. injection E4 as <-.
  destruct (gemv _ _ _ _ _ _ _ _ _ _ _) as [Y'|]; [|discriminate].
  apply write_back_inv in E as (l & _ & ->). reflexivity.
Qed.

Lemma divide_by_singular_values_trace (self : SVD.t Real_t) y1 :
  preserves same_trace (SVD.divide_by_singular_values self y1).
Proof.
  unfold SVD.divide_by_singular_values, for_range.
  apply preserves_for_loop; [apply _|]. intros i.
  apply preserves_bind; [apply _| |intros yi].
  { apply preserves_unchanged; [apply _|apply load_unchanged]. }
  apply preserves_bind; [apply _| |intros si].
  { apply preserves_unchanged; [apply _|apply load_unchanged]. }
  intros h u h' E. apply store_inv in E as (l & l' & _ & _ & ->). reflexivity.
Qed.

(** What every returning [solve] of the SVD strategy records: its temporary
    is a new array, allocated at entry and released before the return, with
    the two products in between. *)
Lemma SVD_solve_trace (self : SVD.t Real_t) (b x : loc) h r h' :
  SVD.solve self b x h = Ok r h' →
  let y1 := fresh (dom (reals h)) in
  trace h' = trace h ++
    [EvAlloc y1 (Z.to_nat (DenseMatrix.m_nr (SVD.m_view self)));
     EvCall Gemv; EvCall Gemv; EvFree y1]
  ∧ reals h !! y1 = None ∧ reals h' !! y1 = None.
Proof.
  intros E y1. unfold SVD.solve in E.
  apply bind_inv in E as (y & h1 & E1 & E).
  apply buffer_factory_inv in E1 as (_ & Hy & ->). fold y1 in Hy. subst y.
  apply bind_inv in E as ([] & h2 & G1 & E). apply call_gemv_trace in G1.
  apply bind_inv in E as ([] & h3 & Dv & E).
  apply divide_by_singular_values_trace in Dv. unfold same_trace in Dv.
  apply bind_inv in E as ([] & h4 & G2 & E). apply call_gemv_trace in G2.
  apply bind_inv in E as ([] & h5 & Rl & E).
  unfold buffer_release in Rl. injection Rl as <-.
  rewrite mret_unfold in E. injection E as _ <-. simpl.
  split; [|split].
  - rewrite G2, Dv, G1. simpl. rewrite <- !app_assoc. reflexivity.
  - apply fresh_unused.
  - apply lookup_delete_eq.
Qed.

(** The size of the work array is the backend's answer to the query. *)
Lemma SVD_ctor_lwork (view : DenseMatrix.t) h (self : SVD.t Real_t) h' A :
  reals h !! DenseMatrix.m_data view = Some A →
  SVD.ctor bk view h = Ok self h' →
  SVD.m_lwork self = to_int (workspace_query bk view A).
Proof.
  intros HA E. unfold SVD.ctor in E.
  apply bind_inv in E as (s & h1 & E1 & E).
  apply bind_inv in E as (u & h2 & E2 & E).
  apply bind_inv in E as (vt & h3 & E3 & E).
  apply bind_inv in E as ([w info] & h4 & E4 & E).
  apply bind_inv in E as (work & h5 & E5 & E).
  rewrite mret_unfold in E. injection E as <- <-. simpl.
  apply buffer_factory_inv in E1 as (_ & Hs & E1).
  apply buffer_factory_inv in E2 as (_ & Hu & E2).
  apply buffer_factory_inv in E3 as (_ & Hvt & E3).
  set (nr := DenseMatrix.m_nr view) in *.
  set (nc := DenseMatrix.m_nc view) in *.
  set (Z0 := replicate (Z.to_nat (Z.min nr nc)) (of_int 0)) in *.
  set (Z1 := replicate (Z.to_nat (int_mul nr nr)) (of_int 0)) in *.
  set (Z2 := replicate (Z.to_nat (int_mul nc nc)) (of_int 0)) in *.
  assert (DenseMatrix.m_data view ≠ s) as Nas
    by (rewrite Hs; exact (fresh_apart _ _ _ HA)).
  assert (reals h1 !! DenseMatrix.m_data view = Some A) as A1
    by (rewrite E1, reals_upd_ne by congruence; exact HA).
  assert (reals h1 !! s = Some Z0) as S1 by (rewrite E1; apply reals_upd).
  assert (DenseMatrix.m_data view ≠ u) as Nau
    by (rewrite Hu; exact (fresh_apart _ _ _ A1)).
  assert (s ≠ u) as Nsu by (rewrite Hu; exact (fresh_apart _ _ _ S1)).
  assert (reals h2 !! DenseMatrix.m_data view = Some A) as A2
    by (rewrite E2, reals_upd_ne by congruence; exact A1).
  assert (reals h2 !! s = Some Z0) as S2
    by (rewrite E2, reals_upd_ne by congruence; exact S1).
  assert (reals h2 !! u = Some Z1) as U2 by (rewrite E2; apply reals_upd).
  assert (DenseMatrix.m_data view ≠ vt) as Nav
    by (rewrite Hvt; exact (fresh_apart _ _ _ A2)).
  assert (s ≠ vt) as Nsv by (rewrite Hvt; exact (fresh_apart _ _ _ S2)).
  assert (u ≠ vt) as Nuv by (rewrite Hvt; exact (fresh_apart _ _ _ U2)).
  assert (reals h3 !! DenseMatrix.m_data view = Some A) as A3
    by (rewrite E3, reals_upd_ne by congruence; exact A2).
  assert (reals h3 !! s = Some Z0) as S3
    by (rewrite E3, reals_upd_ne by congruence; exact S2).
  assert (reals h3 !! u = Some Z1) as U3
    by (rewrite E3, reals_upd_ne by congruence; exact U2).
  assert (reals h3 !! vt = Some Z2) as V3 by (rewrite E3; apply reals_upd).
  assert (NoDup [DenseMatrix.m_data view; s; u; vt]) as Hnd.
  { repeat (apply NoDup_cons_2; [apart|]). apply NoDup_nil_2. }
  rewrite (call_gesvd_run bk view s nr u nc vt [of_int 0] (-1) h3 A Z0 Z1 Z2
             A3 S3 U3 V3 Hnd) in E4.
  injection E4 as <- _ _. reflexivity.
Qed.

End AllocationClaim.

(** ** The strategies on concrete systems *)

Section StrategyExamples.
Import Examples.

Lemma diag_backend_reads_factors :
  solve_reads_factors (DiagBackend.backend (Real_t := float)).
Proof. split; intros; reflexivity. Qed.

Lemma diag_backend_answers_query :
  query_answers_size (DiagBackend.backend (Real_t := float)).
Proof.
  intros jobu jobvt m n a lda s u ldu vt ldvt w. simpl.
  destruct w as [|w0 w]; vm_compute; discriminate.
Qed.

Lemma solve_mutates_only_x_witness :
  DenseLU.solve DiagBackend.backend dense_lu 2%positive 3%positive hlu
  = Ok 0 hlu_solved
  ∧ (∀ p, p ≠ 3%positive → reals hlu_solved !! p = reals hlu !! p)
  ∧ ints hlu_solved = ints hlu.
Proof.
  assert (DenseLU.solve DiagBackend.backend dense_lu 2%positive 3%positive hlu
          = Ok 0 hlu_solved) as E by (vm_compute; reflexivity).
  split; [exact E|].
  exact (solve_mutates_only_x DiagBackend.backend diag_backend_reads_factors
           2%positive 3%positive hlu 0 hlu_solved
           (or_introl (ex_intro _ dense_lu E))).
Defined.

Lemma hfresh_allocated :
  svd_allocated (svd_at 2 2 1 (-1)%float) hfresh
                [4; 0; 0; 2]%float [0; 0]%float [0; 0; 0; 0]%float
                [0; 0; 0; 0]%float [0%float].
Proof.
  constructor; try reflexivity; try (simpl; lia).
  simpl. repeat (apply NoDup_cons_2; [apart|]). apply NoDup_nil_2.
Defined.

Lemma SVD_condition_number_witness :
  ∃ self' h',
    SVD.factorize DiagBackend.backend (svd_at 2 2 1 (-1)%float) hfresh
    = Ok (0, self') h'
    ∧ self' = svd_at 2 2 1 2%float
    ∧ reals h' !! SVD.m_s self' = Some [4; 2]%float
    ∧ SVD.m_condition_number self' = 2%float
    ∧ (∀ c b x,
         SVD.solve (SVD.set_condition_number self' c) b x
         = SVD.solve self' b x).
Proof.
  assert (singular_values_after DiagBackend.backend (svd_at 2 2 1 (-1)%float)
            [4; 0; 0; 2]%float [0; 0]%float [0; 0; 0; 0]%float
            [0; 0; 0; 0]%float [0%float] = [4; 2]%float) as Es
    by (vm_compute; reflexivity).
  destruct (SVD_condition_number DiagBackend.backend (svd_at 2 2 1 (-1)%float)
              hfresh _ _ _ _ _ hfresh_allocated)
    as (self' & h' & E & Eself & HS & _ & Hc & Hsolve).
  - rewrite Es. repeat constructor.
  - exists self', h'.
    split; [etransitivity; [exact E|vm_compute; reflexivity]|].
    split; [etransitivity; [exact Eself|vm_compute; reflexivity]|].
    split; [etransitivity; [exact HS|vm_compute; reflexivity]|].
    split; [etransitivity; [exact Hc|vm_compute; reflexivity]|exact Hsolve].
Defined.

(** On [diag(4, 2)] the stored condition number is 2. *)
Lemma SVD_condition_number_example :
  status_of (SVD.factorize DiagBackend.backend (svd_at 2 2 1 (-1)%float) hfresh)
  = Some (0, svd_at 2 2 1 2%float).
Proof. vm_compute. reflexivity. Qed.

Lemma SVD_condition_number_sentinel_witness :
  (∃ self h1, SVD.ctor DiagBackend.backend (dense_view 2 2) hsing = Ok self h1)
  ∧ ∀ self h1,
      SVD.ctor DiagBackend.backend (dense_view 2 2) hsing = Ok self h1 →
      SVD.m_condition_number self = of_int (-1)
      ∧ ∀ cs self' h2,
          SVD.Factorize ∉ cs →
          SVD.invoke_all DiagBackend.backend self cs h1 = Ok self' h2 →
          SVD.m_condition_number self' = of_int (-1).
Proof.
  apply (SVD_condition_number_sentinel DiagBackend.backend (dense_view 2 2)
           hsing singular_matrix).
  - simpl. lia.
  - simpl. lia.
  - vm_compute. discriminate.
  - vm_compute. discriminate.
  - reflexivity.
  - exact diag_backend_answers_query.
Defined.

(** The constructor on [diag(1, 0)], followed by two solves: the condition
    number read afterwards is the sentinel. *)
Lemma SVD_condition_number_sentinel_example :
  status_of
    ((self ← SVD.ctor DiagBackend.backend (dense_view 2 2);
      SVD.invoke_all DiagBackend.backend self
        [SVD.Solve 2%positive 3%positive; SVD.Solve 2%positive 3%positive])
       hsing)
  = Some (svd_at 2 2 1 (-1)%float).
Proof. vm_compute. reflexivity. Qed.

(** The temporary of [SVD::solve] on the factorized system
    [diag(4, 2) x = (8, 6)], whose trace records no allocation: one call
    returns 0 and records the allocation of two elements at a new location
    and their release. *)
Lemma SVD_solve_temporary_example :
  allocations (trace hfull) = []
  ∧ status_of (SVD.solve (svd_at 2 2 1 2%float) 2%positive 3%positive hfull)
    = Some 0
  ∧ trace_after (SVD.solve (svd_at 2 2 1 2%float) 2%positive 3%positive hfull)
    = [EvAlloc 8%positive 2; EvCall Gemv; EvCall Gemv; EvFree 8%positive]
  ∧ allocations
      (trace_after
         (SVD.solve (svd_at 2 2 1 2%float) 2%positive 3%positive hfull))
    = [2%nat].
Proof. repeat split; vm_compute; reflexivity. Qed.


(** The constructors on concrete views: what they allocate. *)
Lemma constructors_example :
  trace_after (SVD.ctor DiagBackend.backend (dense_view 2 2) hsing)
  = [EvAlloc 4%positive 2; EvAlloc 5%positive 4; EvAlloc 6%positive 4;
     EvCall Gesvd; EvAlloc 7%positive 1]
  ∧ trace_after (DenseLU.ctor (dense_view 2 2) hsing)
    = [EvAllocInt 1%positive 2].
Proof. split; vm_compute; reflexivity. Qed.
(** Products of [int]s: the first square that leaves [int] is that of
    46341, which wraps to a negative number; that of 65536 wraps to 0. *)
Lemma int_mul_examples :
  int_mul 46340 46340 = 2147395600
  ∧ int_mul 46341 46341 = -2147479015
  ∧ int_mul 65536 65536 = 0.
Proof. repeat split; vm_compute; reflexivity. Qed.

(** The conversion to [int]: truncation toward zero inside [int], and
    [INT_MIN] for 2^31, for infinity and for a value that is not a
    number. *)
Lemma float_to_int_examples :
  to_int 2.75%float = 2 ∧ to_int (-2.75)%float = -2
  ∧ to_int 2147483647%float = INT_MAX
  ∧ to_int 2147483648%float = INT_MIN
  ∧ to_int infinity = INT_MIN ∧ to_int nan = INT_MIN.
Proof. repeat split; vm_compute; reflexivity. Qed.

(** The constructor where a square leaves [int]: on a 46341-by-1 view the
    size of [U] is negative and the allocation fails; on a 65536-by-1 view
    [U] is allocated with no element. *)
Lemma SVD_ctor_overflow_example :
  fault_of (SVD.ctor DiagBackend.backend (dense_view 46341 1) hsing)
  = Some BadAlloc
  ∧ trace_after (SVD.ctor DiagBackend.backend (dense_view 65536 1) hsing)
    = [EvAlloc 4%positive 1; EvAlloc 5%positive 0; EvAlloc 6%positive 1;
       EvCall Gesvd; EvAlloc 7%positive 1].
Proof. split; vm_compute; reflexivity. Qed.

(** The constructor with a backend whose answer to the workspace query is
    not a number, or is 2^31: the work size is [INT_MIN] and the allocation
    of the work array fails. *)
Lemma SVD_ctor_query_example :
  fault_of (SVD.ctor (MoreExamples.query_backend nan) (dense_view 2 2) hsing)
  = Some BadAlloc
  ∧ fault_of (SVD.ctor (MoreExamples.query_backend 2147483648%float)
                       (dense_view 2 2) hsing)
    = Some BadAlloc
  ∧ ¬ query_answers_size (MoreExamples.query_backend nan).
Proof.
  split; [vm_compute; reflexivity|]. split; [vm_compute; reflexivity|].
  intros Hq.
  specialize (Hq "A"%char "A"%char 0 0 [] 0 [] [] 0 [] 0 [0%float]).
  vm_compute in Hq. apply Hq. reflexivity.
Qed.

End StrategyExamples.

(** ** The least-squares solution of the rank-one system, exactly *)

Section ExactLeastSquares.
Import Examples.

Lemma Qc_square_nonneg (a : Qc) : (0 <= a * a)%Qc.
Proof.
  unfold Qcle, Qcmult, Q2Qc. cbn [this].
  setoid_rewrite Qred_correct.
  destruct (this a) as [n d]. unfold Qle, Qmult. cbn [Qnum Qden].
  rewrite Z.mul_1_r. apply Z.square_nonneg.
Qed.

Lemma residual2_rank_one (y0 y1 : Qc) :
  residual2 singular_matrix_q 2 ones_q [y0; y1]
  = ((y0 - 1) * (y0 - 1) + 1)%Qc.
Proof.
  unfold residual2, norm2, times, sum_n, entry, elem. simpl.
  change (Exact.Qc_of_int 0) with 0%Qc. ring.
Qed.

Lemma norm2_pair (y0 y1 : Qc) : norm2 [y0; y1] = (y0 * y0 + y1 * y1)%Qc.
Proof.
  unfold norm2, sum_n, elem. simpl. change (Exact.Qc_of_int 0) with 0%Qc. ring.
Qed.

Lemma Qc_rleb_le (a b : Qc) : rleb a b = true ↔ (a <= b)%Qc.
Proof. apply Qle_bool_iff. Qed.

(** In exact arithmetic the minimum-norm least-squares solution of
    [diag(1, 0) x = (1, 1)] is [(1, 0)]: the notion is not empty, and it is
    not what [SVD.solve] leaves in binary64. *)
Lemma rank_one_min_norm_solution :
  min_norm_least_squares singular_matrix_q 2 ones_q [1; 0]%Qc.
Proof.
  split.
  - split; [reflexivity|]. split; [reflexivity|].
    intros y Hy _. destruct y as [|y0 [|y1 [|]]]; try discriminate.
    rewrite !residual2_rank_one. apply Qc_rleb_le.
    replace ((1 - 1) * (1 - 1) + 1)%Qc with (0 + 1)%Qc by ring.
    apply Qcplus_le_compat; [apply Qc_square_nonneg|apply Qcle_refl].
  - intros y (Hy & _ & Hmin). destruct y as [|y0 [|y1 [|]]]; try discriminate.
    specialize (Hmin [1; 0]%Qc eq_refl eq_refl).
    rewrite !residual2_rank_one in Hmin. apply Qc_rleb_le in Hmin.
    rewrite !norm2_pair. apply Qc_rleb_le.
    replace ((1 - 1) * (1 - 1) + 1)%Qc with (0 + 1)%Qc in Hmin by ring.
    assert ((y0 - 1) * (y0 - 1) = 0)%Qc as Hz.
    { apply Qcle_antisym; [|apply Qc_square_nonneg].
      apply (Qcplus_le_compat _ _ (-(1)) (-(1))) in Hmin; [|apply Qcle_refl].
      replace ((y0 - 1) * (y0 - 1) + 1 + - (1))%Qc
        with ((y0 - 1) * (y0 - 1))%Qc in Hmin by ring.
      replace (0 + 1 + - (1))%Qc with 0%Qc in Hmin by ring. exact Hmin. }
    apply Qcmult_integral in Hz.
    assert (y0 = 1)%Qc as ->.
    { destruct Hz as [Hz|Hz]; rewrite <- (Qcplus_0_l 1); rewrite <- Hz; ring. }
    replace (1 * 1 + 0 * 0)%Qc with (1 + 0)%Qc by ring.
    replace (1 * 1 + y1 * y1)%Qc with (1 + y1 * y1)%Qc by ring.
    apply Qcplus_le_compat; [apply Qcle_refl|apply Qc_square_nonneg].
Qed.
End ExactLeastSquares.

(** * Further properties of the code *)

(** ** DiagonalInv: bounds, aliasing, repeated solves *)

Section DiagonalInvMore.
Context {Real_t : Type} `{RealOps Real_t}.
Implicit Types h : heap Real_t.
Import DiagonalMatrix DiagonalInv.

Lemma store_oob h p l (i : nat) (v : Real_t) :
  reals h !! p = Some l → (length l ≤ i)%nat →
  store p (Z.of_nat i) v h = Fault OutOfBounds.
Proof.
  intros Hp Hi. unfold store, wr. rewrite Hp, Nat2Z.id.
  destruct (Nat.ltb_spec i (length l)); [lia|].
  rewrite andb_false_r. reflexivity.
Qed.

Lemma prefix_is_take (B : list Real_t) (n : nat) :
  (n ≤ length B)%nat → (λ i, elem B i) <$> seq 0 n = take n B.
Proof.
  intros Hn. rewrite (prefix_is_fmap (λ a, a) B n Hn). apply list_fmap_id.
Qed.

(** X1.  [factorize] inverts the first [m_nc] entries of the view's array
    and nothing else: entries past [m_nc] keep their value, and on a view
    whose size is zero or negative the loop does not run, so that
    [factorize] returns 0 and leaves the heap as it is, whatever the heap
    holds. *)
Theorem DiagonalInv_factorize_first_entries (self : t) h :
  let v := m_view self in
  (m_nc v ≤ 0 → factorize self h = Ok 0 h)
  ∧ ∀ D, reals h !! m_data v = Some D →
         (Z.to_nat (m_nc v) ≤ length D)%nat →
         factorize self h
         = Ok 0 (upd h (m_data v)
                     ((rdiv (of_int 1) <$> take (Z.to_nat (m_nc v)) D)
                      ++ drop (Z.to_nat (m_nc v)) D)).
Proof.
  intros v. split.
  - intros Hn. unfold factorize, for_range. fold v.
    replace (Z.to_nat (m_nc v)) with 0%nat by lia. reflexivity.
  - intros D HD Hlen. unfold factorize, for_range. fold v.
    rewrite (bind_ok _ _ _ tt
               (upd h (m_data v)
                    ((rdiv (of_int 1) <$> take (Z.to_nat (m_nc v)) D)
                     ++ drop (Z.to_nat (m_nc v)) D))).
    { reflexivity. }
    rewrite (pointwise_loop (m_data v) (λ i, rdiv (of_int 1) (elem D i))
               _ _ h D HD Hlen).
    + rewrite prefix_is_fmap by exact Hlen. reflexivity.
    + intros i Hi L.
      destruct (lookup_lt_is_Some_2 D i ltac:(lia)) as [d Hd].
      assert (L !! i = Some d) as HLi
        by (unfold L; rewrite prefix_lookup_rest by lia; exact Hd).
      rewrite (bind_ok _ _ _ d (upd h (m_data v) L))
        by (apply (load_ok _ _ L); [apply reals_upd|exact HLi]).
      rewrite (store_ok _ _ L);
        [| apply reals_upd | unfold L; rewrite prefix_length; lia].
      rewrite upd_upd. unfold elem. rewrite Hd. reflexivity.
Qed.

(** X2.  When the view's array has fewer than [m_nc] entries, [factorize]
    runs past its end: nothing checks the size of the view against its
    storage. *)
Theorem DiagonalInv_factorize_short_array (self : t) h D :
  let v := m_view self in
  reals h !! m_data v = Some D → (length D < Z.to_nat (m_nc v))%nat →
  factorize self h = Fault OutOfBounds.
Proof.
  intros v HD Hlen. unfold factorize, for_range. fold v.
  apply bind_fault.
  set (g := λ i, rdiv (of_int 1) (elem D i)).
  apply (for_loop_fault
           (λ i h', h' = upd h (m_data v) ((g <$> seq 0 i) ++ drop i D))
           _ OutOfBounds (length D) (Z.to_nat (m_nc v)) 0 h).
  - simpl. rewrite drop_0. symmetry. apply upd_id. exact HD.
  - lia.
  - intros i hi Hi ->.
    destruct (lookup_lt_is_Some_2 D i ltac:(lia)) as [d Hd].
    eexists. split.
    + rewrite (bind_ok _ _ _ d
                 (upd h (m_data v) ((g <$> seq 0 i) ++ drop i D))).
      2:{ apply (load_ok _ _ ((g <$> seq 0 i) ++ drop i D));
            [apply reals_upd|].
          rewrite prefix_lookup_rest by lia. exact Hd. }
      apply (store_ok _ _ ((g <$> seq 0 i) ++ drop i D));
        [apply reals_upd | rewrite prefix_length; lia].
    + rewrite upd_upd. f_equal.
      replace (rdiv (of_int 1) d) with (g i)
        by (unfold g, elem; rewrite Hd; reflexivity).
      apply prefix_insert. lia.
  - intros h' ->. apply bind_fault.
    apply (load_oob _ _ ((g <$> seq 0 (length D)) ++ drop (length D) D));
      [apply reals_upd | rewrite prefix_length; lia].
Qed.

(** X3.  [solve] may be given the same array as input and as output: each
    [b[i]] is read before [x[i]] is written, so [solve(b, b)] scales [b] in
    place by the stored entries. *)
Theorem DiagonalInv_solve_in_place (self : t) (b : loc) h D B :
  let v := m_view self in
  reals h !! m_data v = Some D → reals h !! b = Some B →
  length D = Z.to_nat (m_nc v) → length B = Z.to_nat (m_nc v) →
  b ≠ m_data v →
  solve self b b h = Ok 0 (upd h b (zip_with rmul D B)).
Proof.
  intros v HD HB LD LB Hbd. unfold solve, for_range. fold v.
  rewrite (bind_ok _ _ _ tt (upd h b (zip_with rmul D B))).
  { reflexivity. }
  rewrite <- LB.
  rewrite (pointwise_loop b (λ i, rmul (elem D i) (elem B i)) _ _ h B HB);
    [| lia |].
  - rewrite drop_all, app_nil_r. f_equal. f_equal.
    apply list_eq. intros i. rewrite list_lookup_fmap, lookup_zip_with.
    destruct (decide (i < length B)%nat) as [Hi|Hi].
    + rewrite lookup_seq_lt by lia. simpl. unfold elem.
      destruct (lookup_lt_is_Some_2 D i ltac:(lia)) as [d ->].
      destruct (lookup_lt_is_Some_2 B i ltac:(lia)) as [bi ->]. reflexivity.
    + rewrite lookup_seq_ge by lia. simpl.
      rewrite (lookup_ge_None_2 D i) by lia. reflexivity.
  - intros i Hi L.
    destruct (lookup_lt_is_Some_2 D i ltac:(lia)) as [d Hd].
    destruct (lookup_lt_is_Some_2 B i ltac:(lia)) as [bi Hbi].
    rewrite (bind_ok _ _ _ d (upd h b L)).
    2:{ apply (load_ok _ _ D); [rewrite reals_upd_ne by exact Hbd; exact HD|exact Hd]. }
    rewrite (bind_ok _ _ _ bi (upd h b L)).
    2:{ apply (load_ok _ _ L); [apply reals_upd|].
        unfold L. rewrite prefix_lookup_rest by lia. exact Hbi. }
    rewrite (store_ok _ _ L);
      [| apply reals_upd | unfold L; rewrite prefix_length; lia].
    rewrite upd_upd. unfold elem. rewrite Hd, Hbi. reflexivity.
Qed.

(** X4.  Two solves on one factorization do not disturb each other: with
    five distinct arrays, [solve(b1, x1)] followed by [solve(b2, x2)]
    returns 0, leaves in [x1] and [x2] the products of the stored entries
    with [b1] and [b2], and ends in the same heap as the two solves in the
    other order. *)
Theorem DiagonalInv_solves_independent (self : t) (b1 x1 b2 x2 : loc)
    h D B1 X1 B2 X2 :
  let v := m_view self in
  reals h !! m_data v = Some D →
  reals h !! b1 = Some B1 → reals h !! x1 = Some X1 →
  reals h !! b2 = Some B2 → reals h !! x2 = Some X2 →
  length D = Z.to_nat (m_nc v) →
  length B1 = Z.to_nat (m_nc v) → length X1 = Z.to_nat (m_nc v) →
  length B2 = Z.to_nat (m_nc v) → length X2 = Z.to_nat (m_nc v) →
  NoDup [m_data v; b1; x1; b2; x2] →
  ∃ h',
    (solve self b1 x1 ≫= λ _, solve self b2 x2) h = Ok 0 h'
    ∧ (solve self b2 x2 ≫= λ _, solve self b1 x1) h = Ok 0 h'
    ∧ reals h' !! x1 = Some (zip_with rmul D B1)
    ∧ reals h' !! x2 = Some (zip_with rmul D B2).
Proof.
  intros v HD HB1 HX1 HB2 HX2 LD LB1 LX1 LB2 LX2 Hnd.
  assert (m_data v ≠ x1) as N02
    by exact (NoDup_apart _ 0 2 _ _ Hnd eq_refl eq_refl ltac:(lia)).
  assert (m_data v ≠ x2) as N04
    by exact (NoDup_apart _ 0 4 _ _ Hnd eq_refl eq_refl ltac:(lia)).
  assert (b1 ≠ x1) as N12
    by exact (NoDup_apart _ 1 2 _ _ Hnd eq_refl eq_refl ltac:(lia)).
  assert (b1 ≠ x2) as N14
    by exact (NoDup_apart _ 1 4 _ _ Hnd eq_refl eq_refl ltac:(lia)).
  assert (x1 ≠ b2) as N23
    by exact (NoDup_apart _ 2 3 _ _ Hnd eq_refl eq_refl ltac:(lia)).
  assert (x1 ≠ x2) as N24
    by exact (NoDup_apart _ 2 4 _ _ Hnd eq_refl eq_refl ltac:(lia)).
  assert (b2 ≠ x2) as N34
    by exact (NoDup_apart _ 3 4 _ _ Hnd eq_refl eq_refl ltac:(lia)).
  subst v.
  exists (upd (upd h x1 (zip_with rmul D B1)) x2 (zip_with rmul D B2)).
  split; [|split; [|split]].
  - rewrite (bind_ok _ _ _ _ _
               (DiagonalInv_solve_run self b1 x1 h D B1 X1 HD HB1 HX1 LD LB1
                  LX1 ltac:(congruence) ltac:(congruence))).
    apply (DiagonalInv_solve_run self b2 x2 _ D B2 X2);
      rewrite ?reals_upd_ne by congruence; try assumption; congruence.
  - rewrite (bind_ok _ _ _ _ _
               (DiagonalInv_solve_run self b2 x2 h D B2 X2 HD HB2 HX2 LD LB2
                  LX2 ltac:(congruence) ltac:(congruence))).
    rewrite (DiagonalInv_solve_run self b1 x1 _ D B1 X1);
      rewrite ?reals_upd_ne by congruence; try assumption; try congruence.
    f_equal. unfold upd. simpl. f_equal.
    apply insert_insert_ne. congruence.
  - rewrite reals_upd_ne by congruence. apply reals_upd.
  - apply reals_upd.
Qed.

(** X5.  Round trip in exact arithmetic: if [b] is the product of a
    diagonal without zero entries with a vector [x0], then [factorize]
    followed by [solve(b, x)] returns 0 and leaves [x = x0]. *)
Theorem DiagonalInv_round_trip (self : t) (b x : loc) h D X0 X :
  (∀ a c : Real_t, a ≠ of_int 0 → rmul (rdiv (of_int 1) a) (rmul a c) = c) →
  let v := m_view self in
  reals h !! m_data v = Some D → reals h !! b = Some (zip_with rmul D X0) →
  reals h !! x = Some X →
  length D = Z.to_nat (m_nc v) → length X0 = Z.to_nat (m_nc v) →
  length X = Z.to_nat (m_nc v) →
  x ≠ m_data v → x ≠ b → b ≠ m_data v →
  Forall (λ a, a ≠ of_int 0) D →
  ∃ h',
    (factorize self ≫= λ _, solve self b x) h = Ok 0 h'
    ∧ reals h' !! x = Some X0.
Proof.
  intros Hcancel v HD HB HX LD LX0 LX Hxd Hxb Hbd Hnz.
  exists (upd (upd h (m_data v) (rdiv (of_int 1) <$> D)) x
              (zip_with rmul (rdiv (of_int 1) <$> D) (zip_with rmul D X0))).
  split.
  - rewrite (bind_ok _ _ _ _ _ (DiagonalInv_factorize_run self h D HD LD)).
    apply (DiagonalInv_solve_run self b x _ (rdiv (of_int 1) <$> D)
             (zip_with rmul D X0) X);
      fold v;
      rewrite ?reals_upd, ?reals_upd_ne, ?length_fmap, ?length_zip_with
        by congruence;
      try assumption; try reflexivity. lia.
  - rewrite reals_upd. f_equal. apply list_eq. intros i.
    rewrite !lookup_zip_with, list_lookup_fmap.
    destruct (D !! i) as [a|] eqn:Ha; simpl.
    + destruct (X0 !! i) as [c|] eqn:Hc; simpl; [|reflexivity].
      f_equal. apply Hcancel.
      exact (proj1 (Forall_lookup _ D) Hnz i a Ha).
    + apply lookup_ge_None in Ha. symmetry. apply lookup_ge_None. lia.
Qed.
End DiagonalInvMore.

(** ** DenseLU and BandedLU: what reaches the backend *)

Section LUMore.
Context {Real_t : Type} `{RealOps Real_t} (bk : Backend Real_t).
Implicit Types h : heap Real_t.

(** [std::copy] of [n] elements between two distinct arrays that hold at
    least [n]. *)
Lemma std_copy_run (src dst : loc) (n : nat) h B X :
  reals h !! src = Some B → reals h !! dst = Some X →
  (n ≤ length B)%nat → (n ≤ length X)%nat → dst ≠ src →
  std_copy src (Z.of_nat n) dst h = Ok tt (upd h dst (take n B ++ drop n X)).
Proof.
  intros HB HX LB LX Hne. unfold std_copy, for_range. rewrite Nat2Z.id.
  rewrite (pointwise_loop dst (λ i, elem B i) _ _ h X HX LX).
  - rewrite prefix_is_take by exact LB. reflexivity.
  - intros i Hi L.
    destruct (lookup_lt_is_Some_2 B i ltac:(lia)) as [bi Hbi].
    rewrite (bind_ok _ _ _ bi (upd h dst L)).
    2:{ apply (load_ok _ _ B); [rewrite reals_upd_ne by exact Hne; exact HB|exact Hbi]. }
    rewrite (store_ok _ _ L);
      [| apply reals_upd | unfold L; rewrite prefix_length; lia].
    rewrite upd_upd. unfold elem. rewrite Hbi. reflexivity.
Qed.

(** [std::copy] of more elements than the shorter of the two arrays holds. *)
Lemma std_copy_oob (src dst : loc) (n : nat) h B X :
  reals h !! src = Some B → reals h !! dst = Some X → dst ≠ src →
  (length B < n ∨ length X < n)%nat →
  std_copy src (Z.of_nat n) dst h = Fault OutOfBounds.
Proof.
  intros HB HX Hne Hshort. unfold std_copy, for_range. rewrite Nat2Z.id.
  set (m := (length B `min` length X)%nat).
  apply (for_loop_fault
           (λ i h', h' = upd h dst (((λ i, elem B i) <$> seq 0 i) ++ drop i X))
           _ OutOfBounds m n 0 h).
  - simpl. rewrite drop_0. symmetry. apply upd_id. exact HX.
  - lia.
  - intros i hi Hi ->.
    destruct (lookup_lt_is_Some_2 B i ltac:(lia)) as [bi Hbi].
    set (L := ((λ i, elem B i) <$> seq 0 i) ++ drop i X).
    eexists. split.
    + rewrite (bind_ok _ _ _ bi (upd h dst L)).
      2:{ apply (load_ok _ _ B); [rewrite reals_upd_ne by exact Hne; exact HB|exact Hbi]. }
      apply (store_ok _ _ L);
        [apply reals_upd | unfold L; rewrite prefix_length; lia].
    + rewrite upd_upd. f_equal.
      replace bi with ((λ i, elem B i) i)
        by (unfold elem; rewrite Hbi; reflexivity).
      apply (prefix_insert (λ i, elem B i)). lia.
  - intros h' ->. destruct (decide (length B ≤ length X)%nat) as [Hle|Hgt].
    + apply bind_fault. apply (load_oob _ _ B); [|lia].
      rewrite reals_upd_ne by exact Hne. exact HB.
    + destruct (lookup_lt_is_Some_2 B m ltac:(lia)) as [bi Hbi].
      set (L := ((λ i, elem B i) <$> seq 0 m) ++ drop m X).
      rewrite (bind_ok _ _ _ bi (upd h dst L)).
      2:{ apply (load_ok _ _ B); [rewrite reals_upd_ne by exact Hne; exact HB|exact Hbi]. }
      apply (store_oob _ _ L);
        [apply reals_upd | unfold L; rewrite prefix_length; lia].
Qed.

(** [DenseLU::factorize] as one step: the view's array and the pivot array
    go to [getrf] and hold what it left. *)
Lemma DenseLU_factorize_run (self : DenseLU.t) h A P :
  let v := DenseLU.m_view self in
  let r := getrf bk (DenseMatrix.m_nr v) (DenseMatrix.m_nc v) A
                 (DenseMatrix.m_ld v) P in
  reals h !! DenseMatrix.m_data v = Some A →
  ints h !! DenseLU.m_ipiv self = Some P →
  DenseLU.factorize bk self h
  = Ok r.2 (Heap (<[DenseMatrix.m_data v := overwrite A r.1.1]> (reals h))
                 (<[DenseLU.m_ipiv self := overwrite P r.1.2]> (ints h))
                 (trace h ++ [EvCall Getrf])).
Proof.
  intros v r HA HP. unfold DenseLU.factorize, call_getrf. fold v.
  rewrite (bind_ok _ _ _ _ _ (read_buf_ok _ _ _ HA)).
  rewrite (bind_ok _ _ _ P h) by (unfold read_ints; rewrite HP; reflexivity).
  rewrite (bind_ok _ _ _ tt (log h (EvCall Getrf))) by reflexivity.
  fold r. destruct r as [[A' P'] info]. cbn [fst snd].
  rewrite (bind_ok _ _ _ _ _ (write_back_ok (log h (EvCall Getrf)) _ A A' HA)).
  rewrite bind_unfold. unfold write_back_ints. simpl. rewrite HP.
  reflexivity.
Qed.

Lemma BandedLU_factorize_run (self : BandedLU.t) h A P :
  let v := BandedLU.m_view self in
  let r := gbtrf bk (BandedMatrix.m_nr v) (BandedMatrix.m_nc v)
                 (BandedMatrix.m_kl v) (BandedMatrix.m_ku v) A
                 (BandedMatrix.m_ld v) P in
  reals h !! BandedMatrix.m_data v = Some A →
  ints h !! BandedLU.m_ipiv self = Some P →
  BandedLU.factorize bk self h
  = Ok r.2 (Heap (<[BandedMatrix.m_data v := overwrite A r.1.1]> (reals h))
                 (<[BandedLU.m_ipiv self := overwrite P r.1.2]> (ints h))
                 (trace h ++ [EvCall Gbtrf])).
Proof.
  intros v r HA HP. unfold BandedLU.factorize, call_gbtrf. fold v.
  rewrite (bind_ok _ _ _ _ _ (read_buf_ok _ _ _ HA)).
  rewrite (bind_ok _ _ _ P h) by (unfold read_ints; rewrite HP; reflexivity).
  rewrite (bind_ok _ _ _ tt (log h (EvCall Gbtrf))) by reflexivity.
  fold r. destruct r as [[A' P'] info]. cbn [fst snd].
  rewrite (bind_ok _ _ _ _ _ (write_back_ok (log h (EvCall Gbtrf)) _ A A' HA)).
  rewrite bind_unfold. unfold write_back_ints. simpl. rewrite HP.
  reflexivity.
Qed.

(** What a solve routine leaves when the right-hand side is already in
    place. *)
Lemma write_back_three h (a ipiv x : loc) A P X0 (A' : list Real_t)
    (P' : list Z) (X' : list Real_t) (info : Z) :
  reals h !! a = Some A → ints h !! ipiv = Some P → reals h !! x = Some X0 →
  x ≠ a →
  (write_back a A';; write_back_ints ipiv P';; write_back x X';; mret info
   : M Real_t Z) h
  = Ok info (Heap (<[x := overwrite X0 X']>
                     (<[a := overwrite A A']> (reals h)))
                  (<[ipiv := overwrite P P']> (ints h)) (trace h)).
Proof.
  intros HA HP HX Hne.
  rewrite (bind_ok _ _ _ _ _ (write_back_ok h _ A A' HA)).
  rewrite bind_unfold. unfold write_back_ints. simpl. rewrite HP.
  rewrite bind_unfold. unfold write_back. simpl.
  rewrite lookup_insert_ne by congruence. rewrite HX. reflexivity.
Qed.

(** The copy at the head of both [solve]s. *)
Lemma solve_copy_run (b x : loc) (nr : Z) h B X :
  reals h !! b = Some B → reals h !! x = Some X →
  (Z.to_nat nr ≤ length B)%nat → (Z.to_nat nr ≤ length X)%nat → x ≠ b →
  std_copy b nr x h
  = Ok tt (upd h x (take (Z.to_nat nr) B ++ drop (Z.to_nat nr) X)).
Proof.
  intros HB HX LB LX Hne.
  destruct (Z.le_gt_cases 0 nr) as [Hnn|Hneg].
  - rewrite <- (Z2Nat.id _ Hnn) at 1.
    apply (std_copy_run b x (Z.to_nat nr) h B X); assumption.
  - unfold std_copy, for_range.
    replace (Z.to_nat nr) with 0%nat by lia. simpl.
    rewrite upd_id by exact HX. reflexivity.
Qed.

Lemma DenseLU_solve_run (self : DenseLU.t) (b x : loc) h A P B X :
  let v := DenseLU.m_view self in
  let n := Z.to_nat (DenseMatrix.m_nr v) in
  let X0 := take n B ++ drop n X in
  let r := getrs bk "N" (DenseMatrix.m_nr v) 1 A (DenseMatrix.m_ld v) P X0
                 (DenseMatrix.m_nr v) in
  reals h !! DenseMatrix.m_data v = Some A →
  ints h !! DenseLU.m_ipiv self = Some P →
  reals h !! b = Some B → reals h !! x = Some X →
  (n ≤ length B)%nat → (n ≤ length X)%nat →
  x ≠ b → x ≠ DenseMatrix.m_data v →
  DenseLU.solve bk self b x h
  = Ok r.2 (Heap (<[x := overwrite X0 r.1.2]>
                    (<[DenseMatrix.m_data v := overwrite A r.1.1.1]>
                       (<[x := X0]> (reals h))))
                 (<[DenseLU.m_ipiv self := overwrite P r.1.1.2]> (ints h))
                 (trace h ++ [EvCall Getrs])).
Proof.
  intros v n X0 r HA HP HB HX LB LX Hxb Hxa.
  unfold DenseLU.solve. fold v.
  rewrite (bind_ok _ _ _ _ _ (solve_copy_run b x _ h B X HB HX LB LX Hxb)).
  fold n. fold X0. unfold call_getrs.
  assert (reals (upd h x X0) !! DenseMatrix.m_data v = Some A) as HA1
    by (rewrite reals_upd_ne by congruence; exact HA).
  rewrite (bind_ok _ _ _ _ _ (read_buf_ok _ _ _ HA1)).
  rewrite (bind_ok _ _ _ P (upd h x X0))
    by (unfold read_ints; simpl; rewrite HP; reflexivity).
  rewrite (bind_ok _ _ _ _ _ (read_buf_ok _ _ _ (reals_upd h x X0))).
  rewrite (bind_ok _ _ _ tt (log (upd h x X0) (EvCall Getrs))) by reflexivity.
  fold r. destruct r as [[[A' P'] X'] info]. cbn [fst snd].
  apply (write_back_three (log (upd h x X0) (EvCall Getrs)) _ _ x A P X0);
    [exact HA1 | exact HP | apply reals_upd | exact Hxa].
Qed.

Lemma BandedLU_solve_run (self : BandedLU.t) (b x : loc) h A P B X :
  let v := BandedLU.m_view self in
  let n := Z.to_nat (BandedMatrix.m_nr v) in
  let X0 := take n B ++ drop n X in
  let r := gbtrs bk "N" (BandedMatrix.m_nr v) (BandedMatrix.m_kl v)
                 (BandedMatrix.m_ku v) 1 A (BandedMatrix.m_ld v) P X0
                 (BandedMatrix.m_nr v) in
  reals h !! BandedMatrix.m_data v = Some A →
  ints h !! BandedLU.m_ipiv self = Some P →
  reals h !! b = Some B → reals h !! x = Some X →
  (n ≤ length B)%nat → (n ≤ length X)%nat →
  x ≠ b → x ≠ BandedMatrix.m_data v →
  BandedLU.solve bk self b x h
  = Ok r.2 (Heap (<[x := overwrite X0 r.1.2]>
                    (<[BandedMatrix.m_data v := overwrite A r.1.1.1]>
                       (<[x := X0]> (reals h))))
                 (<[BandedLU.m_ipiv self := overwrite P r.1.1.2]> (ints h))
                 (trace h ++ [EvCall Gbtrs])).
Proof.
  intros v n X0 r HA HP HB HX LB LX Hxb Hxa.
  unfold BandedLU.solve. fold v.
  rewrite (bind_ok _ _ _ _ _ (solve_copy_run b x _ h B X HB HX LB LX Hxb)).
  fold n. fold X0. unfold call_gbtrs.
  assert (reals (upd h x X0) !! BandedMatrix.m_data v = Some A) as HA1
    by (rewrite reals_upd_ne by congruence; exact HA).
  rewrite (bind_ok _ _ _ _ _ (read_buf_ok _ _ _ HA1)).
  rewrite (bind_ok _ _ _ P (upd h x X0))
    by (unfold read_ints; simpl; rewrite HP; reflexivity).
  rewrite (bind_ok _ _ _ _ _ (read_buf_ok _ _ _ (reals_upd h x X0))).
  rewrite (bind_ok _ _ _ tt (log (upd h x X0) (EvCall Gbtrs))) by reflexivity.
  fold r. destruct r as [[[A' P'] X'] info]. cbn [fst snd].
  apply (write_back_three (log (upd h x X0) (EvCall Gbtrs)) _ _ x A P X0);
    [exact HA1 | exact HP | apply reals_upd | exact Hxa].
Qed.

(** The heap a solve leaves when the routine returns the factors and the
    pivots as it got them. *)
Lemma solve_heap_settled h (a ipiv x : loc) A P (X0 X' : list Real_t) e :
  reals h !! a = Some A → ints h !! ipiv = Some P → x ≠ a →
  Heap (<[x := overwrite X0 X']> (<[a := overwrite A A]> (<[x := X0]> (reals h))))
       (<[ipiv := overwrite P P]> (ints h)) (trace h ++ [e])
  = log (upd h x (overwrite X0 X')) e.
Proof.
  intros HA HP Hne. unfold log, upd. simpl. rewrite !overwrite_self.
  rewrite (insert_id (ints h) ipiv P HP).
  rewrite (insert_id (<[x := X0]> (reals h)) a A)
    by (rewrite lookup_insert_ne by congruence; exact HA).
  rewrite insert_insert_eq. reflexivity.
Qed.

(** X6.  [DenseLU::factorize] followed by [DenseLU::solve]: [factorize]
    returns the status of [getrf] as it is, zero or not, and [solve] then
    hands [getrs] the factors and the pivots that [getrf] left in the view's
    array and in [m_ipiv], with no transposition, one right-hand side,
    leading dimension [m_nr], and as right-hand side the array [x] after
    the first [m_nr] entries of [b] were copied into it.  [solve] returns
    the status of [getrs] as it is and [x] holds what [getrs] left there. *)
Theorem DenseLU_factorize_then_solve (self : DenseLU.t) (b x : loc) h A P B X :
  let v := DenseLU.m_view self in
  let n := Z.to_nat (DenseMatrix.m_nr v) in
  let X0 := take n B ++ drop n X in
  let f := getrf bk (DenseMatrix.m_nr v) (DenseMatrix.m_nc v) A
                 (DenseMatrix.m_ld v) P in
  let r := getrs bk "N" (DenseMatrix.m_nr v) 1 (overwrite A f.1.1)
                 (DenseMatrix.m_ld v) (overwrite P f.1.2) X0
                 (DenseMatrix.m_nr v) in
  reals h !! DenseMatrix.m_data v = Some A →
  ints h !! DenseLU.m_ipiv self = Some P →
  reals h !! b = Some B → reals h !! x = Some X →
  (n ≤ length B)%nat → (n ≤ length X)%nat →
  NoDup [DenseMatrix.m_data v; b; x] →
  ∃ h1 h2,
    DenseLU.factorize bk self h = Ok f.2 h1 ∧
    DenseLU.solve bk self b x h1 = Ok r.2 h2 ∧
    reals h2 !! x = Some (overwrite X0 r.1.2) ∧
    reals h2 !! b = Some B ∧
    trace h2 = trace h ++ [EvCall Getrf; EvCall Getrs].
Proof.
  intros v n X0 f r HA HP HB HX LB LX Hnd.
  assert (b ≠ DenseMatrix.m_data v) as Hba
    by (apply (NoDup_apart _ 1 0 _ _ Hnd); [reflexivity|reflexivity|lia]).
  assert (x ≠ DenseMatrix.m_data v) as Hxa
    by (apply (NoDup_apart _ 2 0 _ _ Hnd); [reflexivity|reflexivity|lia]).
  assert (x ≠ b) as Hxb
    by (apply (NoDup_apart _ 2 1 _ _ Hnd); [reflexivity|reflexivity|lia]).
  eexists. eexists. split; [apply (DenseLU_factorize_run self h A P HA HP)|].
  fold v. fold f. split.
  - apply (DenseLU_solve_run self b x _ (overwrite A f.1.1)
             (overwrite P f.1.2) B X).
    + simpl. fold v. apply lookup_insert_eq.
    + simpl. apply lookup_insert_eq.
    + simpl. fold v. rewrite lookup_insert_ne by congruence. exact HB.
    + simpl. fold v. rewrite lookup_insert_ne by congruence. exact HX.
    + exact LB.
    + exact LX.
    + exact Hxb.
    + exact Hxa.
  - fold v n X0 r. simpl. split; [apply lookup_insert_eq|]. split.
    + rewrite lookup_insert_ne by congruence.
      rewrite lookup_insert_ne by congruence.
      rewrite lookup_insert_ne by congruence.
      rewrite lookup_insert_ne by congruence. exact HB.
    + rewrite <- app_assoc. reflexivity.
Qed.

(** X7.  With a backend whose [getrs] treats the factors and the pivots as
    input only, [DenseLU::solve] changes nothing but [x]: the heap it leaves
    is the one it got with [x] replaced by what [getrs] returned for the
    copy of [b], within the extent of [x], and one call recorded.  Entries
    of [x] past [m_nr] are handed to the backend as they were. *)
Theorem DenseLU_solve_result (self : DenseLU.t) (b x : loc) h A P B X :
  let v := DenseLU.m_view self in
  let n := Z.to_nat (DenseMatrix.m_nr v) in
  let X0 := take n B ++ drop n X in
  let r := getrs bk "N" (DenseMatrix.m_nr v) 1 A (DenseMatrix.m_ld v) P X0
                 (DenseMatrix.m_nr v) in
  solve_reads_factors bk →
  reals h !! DenseMatrix.m_data v = Some A →
  ints h !! DenseLU.m_ipiv self = Some P →
  reals h !! b = Some B → reals h !! x = Some X →
  (n ≤ length B)%nat → (n ≤ length X)%nat →
  x ≠ b → x ≠ DenseMatrix.m_data v →
  DenseLU.solve bk self b x h
  = Ok r.2 (log (upd h x (overwrite X0 r.1.2)) (EvCall Getrs)).
Proof.
  intros v n X0 r [Hgetrs _] HA HP HB HX LB LX Hxb Hxa.
  rewrite (DenseLU_solve_run self b x h A P B X HA HP HB HX LB LX Hxb Hxa).
  fold v n X0 r.
  pose proof (Hgetrs "N"%char (DenseMatrix.m_nr v) 1 A (DenseMatrix.m_ld v) P
                     X0 (DenseMatrix.m_nr v)) as E.
  fold r in E. apply (f_equal fst) in E as E1. apply (f_equal snd) in E as E2.
  simpl in E1, E2. rewrite E1, E2.
  rewrite (solve_heap_settled h _ _ x A P X0 r.1.2 (EvCall Getrs) HA HP Hxa).
  reflexivity.
Qed.

(** X8.  Neither [DenseLU::solve] nor [BandedLU::solve] compares the
    vectors with the matrix: when [b] or [x] has fewer than [m_nr] entries,
    [solve] ends in an access outside an array (the copy of [b] into [x]
    runs past the end of the shorter one). *)
Theorem LU_solve_short_vector (b x : loc) h B X :
  reals h !! b = Some B → reals h !! x = Some X → x ≠ b →
  (∀ self : DenseLU.t,
     let n := Z.to_nat (DenseMatrix.m_nr (DenseLU.m_view self)) in
     (length B < n ∨ length X < n)%nat →
     DenseLU.solve bk self b x h = Fault OutOfBounds) ∧
  (∀ self : BandedLU.t,
     let n := Z.to_nat (BandedMatrix.m_nr (BandedLU.m_view self)) in
     (length B < n ∨ length X < n)%nat →
     BandedLU.solve bk self b x h = Fault OutOfBounds).
Proof.
  intros HB HX Hne. split; intros self n Hshort.
  - unfold DenseLU.solve. apply bind_fault.
    rewrite <- (Z2Nat.id (DenseMatrix.m_nr (DenseLU.m_view self))) by lia.
    apply (std_copy_oob b x _ h B X); assumption.
  - unfold BandedLU.solve. apply bind_fault.
    rewrite <- (Z2Nat.id (BandedMatrix.m_nr (BandedLU.m_view self))) by lia.
    apply (std_copy_oob b x _ h B X); assumption.
Qed.

(** X9.  [BandedLU::factorize] followed by [BandedLU::solve] on the packed
    banded storage: [factorize] hands the array, both bandwidths and the
    pivots to [gbtrf] and returns its status as it is; [solve] then hands
    [gbtrs] the factors and pivots that [gbtrf] left, both bandwidths, no
    transposition, one right-hand side and the copy of [b] in [x], returns
    its status as it is, and [x] holds what [gbtrs] left there. *)
Theorem BandedLU_factorize_then_solve (self : BandedLU.t) (b x : loc) h A P B X :
  let v := BandedLU.m_view self in
  let n := Z.to_nat (BandedMatrix.m_nr v) in
  let X0 := take n B ++ drop n X in
  let f := gbtrf bk (BandedMatrix.m_nr v) (BandedMatrix.m_nc v)
                 (BandedMatrix.m_kl v) (BandedMatrix.m_ku v) A
                 (BandedMatrix.m_ld v) P in
  let r := gbtrs bk "N" (BandedMatrix.m_nr v) (BandedMatrix.m_kl v)
                 (BandedMatrix.m_ku v) 1 (overwrite A f.1.1)
                 (BandedMatrix.m_ld v) (overwrite P f.1.2) X0
                 (BandedMatrix.m_nr v) in
  reals h !! BandedMatrix.m_data v = Some A →
  ints h !! BandedLU.m_ipiv self = Some P →
  reals h !! b = Some B → reals h !! x = Some X →
  (n ≤ length B)%nat → (n ≤ length X)%nat →
  NoDup [BandedMatrix.m_data v; b; x] →
  ∃ h1 h2,
    BandedLU.factorize bk self h = Ok f.2 h1 ∧
    BandedLU.solve bk self b x h1 = Ok r.2 h2 ∧
    reals h2 !! x = Some (overwrite X0 r.1.2) ∧
    reals h2 !! b = Some B ∧
    trace h2 = trace h ++ [EvCall Gbtrf; EvCall Gbtrs].
Proof.
  intros v n X0 f r HA HP HB HX LB LX Hnd.
  assert (b ≠ BandedMatrix.m_data v) as Hba
    by (apply (NoDup_apart _ 1 0 _ _ Hnd); [reflexivity|reflexivity|lia]).
  assert (x ≠ BandedMatrix.m_data v) as Hxa
    by (apply (NoDup_apart _ 2 0 _ _ Hnd); [reflexivity|reflexivity|lia]).
  assert (x ≠ b) as Hxb
    by (apply (NoDup_apart _ 2 1 _ _ Hnd); [reflexivity|reflexivity|lia]).
  eexists. eexists. split; [apply (BandedLU_factorize_run self h A P HA HP)|].
  fold v. fold f. split.
  - apply (BandedLU_solve_run self b x _ (overwrite A f.1.1)
             (overwrite P f.1.2) B X).
    + simpl. fold v. apply lookup_insert_eq.
    + simpl. apply lookup_insert_eq.
    + simpl. fold v. rewrite lookup_insert_ne by congruence. exact HB.
    + simpl. fold v. rewrite lookup_insert_ne by congruence. exact HX.
    + exact LB.
    + exact LX.
    + exact Hxb.
    + exact Hxa.
  - fold v n X0 r. simpl. split; [apply lookup_insert_eq|]. split.
    + rewrite lookup_insert_ne by congruence.
      rewrite lookup_insert_ne by congruence.
      rewrite lookup_insert_ne by congruence.
      rewrite lookup_insert_ne by congruence. exact HB.
    + rewrite <- app_assoc. reflexivity.
Qed.
End LUMore.

(** ** SVD: from construction to solution *)

Section SVDMore.
Context {Real_t : Type} `{RealOps Real_t} (bk : Backend Real_t).
Implicit Types h : heap Real_t.
Import DenseMatrix SVD.

Lemma call_gesvd_same_except E (v : DenseMatrix.t) s ldu u ldvt vt work lwork :
  m_data v ∈ E → s ∈ E → u ∈ E → vt ∈ E →
  preserves (same_except E) (call_gesvd bk v s ldu u ldvt vt work lwork).
Proof.
  intros H1 H2 H3 H4. unfold call_gesvd.
  repeat (apply preserves_bind; [apply _ | solve [eauto with preserves] | intros ?]).
  destruct (gesvd _ _ _ _ _ _ _ _ _ _ _ _ _ _) as [[[[[A' S'] U'] VT'] W'] i].
  repeat (apply preserves_bind;
          [apply _ | apply write_back_same_except; assumption | intros ?]).
  apply preserves_ret. apply _.
Qed.

Lemma write_back_returns h p new :
  is_Some (reals h !! p) →
  ∃ h', write_back p new h = Ok tt h'
        ∧ ∀ q, is_Some (reals h !! q) → is_Some (reals h' !! q).
Proof.
  intros [l Hl]. exists (upd h p (overwrite l new)).
  split; [apply write_back_ok; exact Hl|].
  intros q Hq. destruct (decide (p = q)) as [->|Hne].
  - rewrite reals_upd. eexists. reflexivity.
  - rewrite reals_upd_ne by exact Hne. exact Hq.
Qed.

(** The decomposition routine returns whenever its four arrays exist. *)
Lemma call_gesvd_returns (v : DenseMatrix.t) s ldu u ldvt vt work lwork h :
  is_Some (reals h !! m_data v) → is_Some (reals h !! s) →
  is_Some (reals h !! u) → is_Some (reals h !! vt) →
  ∃ w info h', call_gesvd bk v s ldu u ldvt vt work lwork h = Ok (w, info) h'.
Proof.
  intros HA HS HU HVT. unfold call_gesvd.
  destruct HA as [A HA]. destruct HS as [S HS].
  destruct HU as [U HU]. destruct HVT as [VT HVT].
  rewrite (bind_ok _ _ _ _ _ (read_buf_ok _ _ _ HA)).
  rewrite (bind_ok _ _ _ _ _ (read_buf_ok _ _ _ HS)).
  rewrite (bind_ok _ _ _ _ _ (read_buf_ok _ _ _ HU)).
  rewrite (bind_ok _ _ _ _ _ (read_buf_ok _ _ _ HVT)).
  rewrite (bind_ok _ _ _ tt (log h (EvCall Gesvd))) by reflexivity.
  destruct (gesvd _ _ _ _ _ _ _ _ _ _ _ _ _ _) as [[[[[A' S'] U'] VT'] W'] i].
  destruct (write_back_returns (log h (EvCall Gesvd)) (m_data v) A')
    as (h1 & E1 & K1); [exists A; exact HA|].
  destruct (write_back_returns h1 s S') as (h2 & E2 & K2);
    [apply K1; exists S; exact HS|].
  destruct (write_back_returns h2 u U') as (h3 & E3 & K3);
    [apply K2, K1; exists U; exact HU|].
  destruct (write_back_returns h3 vt VT') as (h4 & E4 & K4);
    [apply K3, K2, K1; exists VT; exact HVT|].
  rewrite (bind_ok _ _ _ _ _ E1), (bind_ok _ _ _ _ _ E2),
    (bind_ok _ _ _ _ _ E3), (bind_ok _ _ _ _ _ E4).
  eexists. eexists. eexists. reflexivity.
Qed.

(** [factorize] on an instance whose singular-value buffer is empty. *)
Lemma SVD_factorize_no_singular_value (self : t Real_t) h A S U VT W :
  reals h !! m_data (m_view self) = Some A → reals h !! m_s self = Some S →
  reals h !! m_u self = Some U → reals h !! m_vt self = Some VT →
  reals h !! m_work self = Some W → length S = 0%nat →
  factorize bk self h = Fault OutOfBounds.
Proof.
  intros HA HS HU HVT HW LS. unfold factorize.
  rewrite (bind_ok _ _ _ _ _ (read_buf_ok _ _ _ HW)).
  destruct (call_gesvd_returns (m_view self) (m_s self) (m_ldu self)
              (m_u self) (m_ldvt self) (m_vt self) W (m_lwork self) h)
    as (w & info & h1 & E1); try (eexists; eassumption).
  rewrite (bind_ok _ _ _ _ _ E1). cbv beta iota.
  apply call_gesvd_inv in E1 as (_ & K1 & _).
  destruct (sizes_kept_lookup _ _ _ _ K1 HW) as (W1 & HW1 & _).
  destruct (sizes_kept_lookup _ _ _ _ K1 HS) as (S1 & HS1 & LS1).
  rewrite (bind_ok _ _ _ _ _ (write_back_ok h1 _ W1 w HW1)).
  apply bind_fault. change 0 with (Z.of_nat 0).
  destruct (decide (m_work self = m_s self)) as [Eq|Hne].
  - apply (load_oob _ _ (overwrite W1 w)).
    + rewrite Eq. apply reals_upd.
    + rewrite overwrite_length. rewrite Eq in HW1.
      assert (W1 = S1) as -> by congruence. lia.
  - apply (load_oob _ _ S1); [|lia].
    rewrite reals_upd_ne by exact Hne. exact HS1.
Qed.

(** What a returning constructor guarantees about aliasing: its four buffers
    are new, so they differ from one another, from the view's storage and
    from every array the caller holds; and the caller's arrays other than
    the view's storage are as they were. *)
Lemma SVD_ctor_fresh (view : DenseMatrix.t) h (self : t Real_t) h' A :
  ctor bk view h = Ok self h' → reals h !! m_data view = Some A →
  NoDup [m_data view; m_s self; m_u self; m_vt self; m_work self]
  ∧ ∀ p l, reals h !! p = Some l →
           (p ∉ [m_s self; m_u self; m_vt self; m_work self])
           ∧ (p ≠ m_data view → reals h' !! p = Some l).
Proof.
  intros E HA. unfold ctor in E.
  apply bind_inv in E as (s & h1 & E1 & E).
  apply bind_inv in E as (u & h2 & E2 & E).
  apply bind_inv in E as (vt & h3 & E3 & E).
  apply bind_inv in E as ([w info] & h4 & E4 & E).
  apply bind_inv in E as (work & h5 & E5 & E).
  rewrite mret_unfold in E. injection E as <- <-. simpl.
  pose proof (call_gesvd_same_except [m_data view; s; u; vt] view s
                (m_nr view) u (m_nc view) vt [of_int 0] (-1)
                ltac:(set_solver) ltac:(set_solver) ltac:(set_solver)
                ltac:(set_solver) _ _ _ E4) as [F4 _].
  apply call_gesvd_inv in E4 as (_ & K4 & _).
  apply buffer_factory_inv in E1 as (_ & Hs & E1).
  apply buffer_factory_inv in E2 as (_ & Hu & E2).
  apply buffer_factory_inv in E3 as (_ & Hvt & E3).
  apply buffer_factory_inv in E5 as (_ & Hwork & E5).
  (* an array of [h] is in every later heap and is none of the buffers *)
  assert (∀ p l, reals h !! p = Some l →
            p ≠ s ∧ p ≠ u ∧ p ≠ vt ∧ p ≠ work
            ∧ reals h3 !! p = Some l ∧ is_Some (reals h4 !! p)) as Old.
  { intros p l Hp.
    assert (p ≠ s) as N1 by (rewrite Hs; exact (fresh_apart _ _ _ Hp)).
    assert (reals h1 !! p = Some l) as P1
      by (rewrite E1, reals_upd_ne by congruence; exact Hp).
    assert (p ≠ u) as N2 by (rewrite Hu; exact (fresh_apart _ _ _ P1)).
    assert (reals h2 !! p = Some l) as P2
      by (rewrite E2, reals_upd_ne by congruence; exact P1).
    assert (p ≠ vt) as N3 by (rewrite Hvt; exact (fresh_apart _ _ _ P2)).
    assert (reals h3 !! p = Some l) as P3
      by (rewrite E3, reals_upd_ne by congruence; exact P2).
    destruct (sizes_kept_lookup _ _ _ _ K4 P3) as (l4 & P4 & _).
    assert (p ≠ work) as N4 by (rewrite Hwork; exact (fresh_apart _ _ _ P4)).
    repeat split; try assumption. exists l4. exact P4. }
  assert (reals h1 !! s = Some (replicate (Z.to_nat (Z.min (m_nr view) (m_nc view)))
                                          (of_int 0))) as S1
    by (rewrite E1; apply reals_upd).
  assert (s ≠ u) as Nsu by (rewrite Hu; exact (fresh_apart _ _ _ S1)).
  assert (reals h2 !! s = Some (replicate (Z.to_nat (Z.min (m_nr view) (m_nc view)))
                                          (of_int 0))) as S2
    by (rewrite E2, reals_upd_ne by congruence; exact S1).
  assert (reals h2 !! u = Some (replicate (Z.to_nat (int_mul (m_nr view) (m_nr view)))
                                          (of_int 0))) as U2
    by (rewrite E2; apply reals_upd).
  assert (s ≠ vt) as Nsv by (rewrite Hvt; exact (fresh_apart _ _ _ S2)).
  assert (u ≠ vt) as Nuv by (rewrite Hvt; exact (fresh_apart _ _ _ U2)).
  assert (reals h3 !! s = Some (replicate (Z.to_nat (Z.min (m_nr view) (m_nc view)))
                                          (of_int 0))) as S3
    by (rewrite E3, reals_upd_ne by congruence; exact S2).
  assert (reals h3 !! u = Some (replicate (Z.to_nat (int_mul (m_nr view) (m_nr view)))
                                          (of_int 0))) as U3
    by (rewrite E3, reals_upd_ne by congruence; exact U2).
  assert (reals h3 !! vt = Some (replicate (Z.to_nat (int_mul (m_nc view) (m_nc view)))
                                           (of_int 0))) as V3
    by (rewrite E3; apply reals_upd).
  destruct (sizes_kept_lookup _ _ _ _ K4 S3) as (? & S4 & _).
  destruct (sizes_kept_lookup _ _ _ _ K4 U3) as (? & U4 & _).
  destruct (sizes_kept_lookup _ _ _ _ K4 V3) as (? & V4 & _).
  assert (s ≠ work) as Nsw by (rewrite Hwork; exact (fresh_apart _ _ _ S4)).
  assert (u ≠ work) as Nuw by (rewrite Hwork; exact (fresh_apart _ _ _ U4)).
  assert (vt ≠ work) as Nvw by (rewrite Hwork; exact (fresh_apart _ _ _ V4)).
  destruct (Old _ _ HA) as (Na1 & Na2 & Na3 & Na4 & _).
  split.
  - repeat (apply NoDup_cons_2; [apart|]). apply NoDup_nil_2.
  - intros p l Hp. destruct (Old _ _ Hp) as (N1 & N2 & N3 & N4 & P3 & _).
    split; [apart|]. intros Npa.
    rewrite E5, reals_upd_ne by congruence. rewrite reals_log.
    rewrite F4 by apart. exact P3.
Qed.

(** X10.  The constructor leaves an instance that [factorize] can run on:
    on a view with at least one row and one column, whose squares
    [m_nr * m_nr] and [m_nc * m_nc] fit into [int], over an allocated array,
    with a backend whose answer to the workspace query converts to an [int]
    that is not negative, it returns,
    and the view's storage and the four buffers it allocated are five
    distinct arrays, [m_s] with [min(m_nr, m_nc)] entries.  None of the
    buffers is an array the caller held before, and every array of the
    caller other than the view's storage is as it was. *)
Theorem SVD_ctor_establishes_allocated (view : DenseMatrix.t) h A :
  1 ≤ m_nr view → 1 ≤ m_nc view →
  m_nr view * m_nr view ≤ INT_MAX → m_nc view * m_nc view ≤ INT_MAX →
  reals h !! m_data view = Some A →
  query_answers_size bk →
  ∃ self h',
    ctor bk view h = Ok self h'
    ∧ m_view self = view
    ∧ (∃ A' S U VT W, svd_allocated self h' A' S U VT W)
    ∧ ∀ p l, reals h !! p = Some l →
             (p ∉ [m_s self; m_u self; m_vt self; m_work self])
             ∧ (p ≠ m_data view → reals h' !! p = Some l).
Proof.
  intros Hr Hc Br Bc HA Hq.
  destruct (SVD_ctor_returns bk view h A ltac:(lia) ltac:(lia) Br Bc HA Hq)
    as (self & h' & E).
  exists self, h'. split; [exact E|].
  destruct (SVD_ctor_inv bk view h self h' E)
    as (Hv & _ & _ & _ & _ & (S & U & VT & W & HS & LS & HU & _ & HVT & _ & HW & _)
        & K).
  destruct (SVD_ctor_fresh view h self h' A E HA) as (Hnd & Hold).
  destruct (sizes_kept_lookup _ _ _ _ K HA) as (A' & HA' & _).
  split; [exact Hv|]. split; [|exact Hold].
  exists A', S, U, VT, W. constructor; rewrite ?Hv; try assumption. lia.
Qed.

(** X11.  On a view with no row or no column, whose squares [m_nr * m_nr]
    and [m_nc * m_nc] fit into [int], the constructor returns, and
    [factorize] on the instance it built ends in an access outside a
    buffer: the singular-value buffer is empty and [factorize] reads
    [m_s[0]].  [factorize] presupposes at least one row and one column. *)
Theorem SVD_factorize_empty_view (view : DenseMatrix.t) h A :
  0 ≤ m_nr view → 0 ≤ m_nc view → Z.min (m_nr view) (m_nc view) = 0 →
  m_nr view * m_nr view ≤ INT_MAX → m_nc view * m_nc view ≤ INT_MAX →
  reals h !! m_data view = Some A → query_answers_size bk →
  ∃ self h1,
    ctor bk view h = Ok self h1 ∧ factorize bk self h1 = Fault OutOfBounds.
Proof.
  intros Hr Hc Hmin Br Bc HA Hq.
  destruct (SVD_ctor_returns bk view h A Hr Hc Br Bc HA Hq)
    as (self & h1 & E).
  exists self, h1. split; [exact E|].
  destruct (SVD_ctor_inv bk view h self h1 E)
    as (Hv & _ & _ & _ & _ & (S & U & VT & W & HS & LS & HU & _ & HVT & _ & HW & _)
        & K).
  destruct (sizes_kept_lookup _ _ _ _ K HA) as (A' & HA' & _).
  apply (SVD_factorize_no_singular_value self h1 A' S U VT W);
    rewrite ?Hv; try assumption.
  rewrite LS, Hmin. reflexivity.
Qed.
Lemma SVD_factorize_same_except (self : t Real_t) :
  preserves (same_except [m_data (m_view self); m_s self; m_u self;
                          m_vt self; m_work self])
            (factorize bk self).
Proof.
  unfold factorize.
  apply preserves_bind; [apply _ | solve [eauto with preserves] | intros W].
  apply preserves_bind; [apply _ | | intros [W' info]].
  { apply call_gesvd_same_except; set_solver. }
  apply preserves_bind; [apply _ | | intros ?].
  { apply write_back_same_except. set_solver. }
  apply preserves_bind; [apply _ | solve [eauto with preserves] | intros s0].
  apply preserves_bind; [apply _ | solve [eauto with preserves] | intros sl].
  apply preserves_ret. apply _.
Qed.

(** X12.  The whole life of an [SVD] instance on a square view of order
    [n ≥ 1] with [n * n] inside [int], with a backend whose answer to the
    workspace query converts to an [int] that is not negative: the
    constructor returns; [factorize] on the instance it built
    returns; and [solve], whatever the status of [factorize] was, returns 0
    and leaves in [x] the vector [V Σ⁻¹ Uᵀ b] of the arrays that
    [factorize] left in [m_u], [m_s] and [m_vt], with [b] as it was.  [b]
    and [x] are vectors of [n] entries, distinct from each other and from
    the view's storage. *)
Theorem SVD_construct_factorize_solve (view : DenseMatrix.t) (b x : loc)
    h A B X :
  1 ≤ m_nr view → m_nc view = m_nr view →
  m_nr view * m_nr view ≤ INT_MAX →
  reals h !! m_data view = Some A →
  reals h !! b = Some B → reals h !! x = Some X →
  length B = Z.to_nat (m_nr view) → length X = Z.to_nat (m_nr view) →
  NoDup [m_data view; b; x] →
  query_answers_size bk →
  ∃ self h1 info self' h2 h3 U S VT,
    ctor bk view h = Ok self h1
    ∧ factorize bk self h1 = Ok (info, self') h2
    ∧ reals h2 !! m_u self' = Some U
    ∧ reals h2 !! m_s self' = Some S
    ∧ reals h2 !! m_vt self' = Some VT
    ∧ solve self' b x h2 = Ok 0 h3
    ∧ reals h3 !! x = Some (V_Sinv_Ut U S VT (Z.to_nat (m_nr view)) B)
    ∧ reals h3 !! b = Some B.
Proof.
  intros Hr Hsq Br HA HB HX LB LX Hnd3 Hq.
  assert (m_nc view * m_nc view ≤ INT_MAX) as Bc by (rewrite Hsq; exact Br).
  assert (b ≠ m_data view) as Nba
    by (apply (NoDup_apart _ 1 0 _ _ Hnd3); [reflexivity|reflexivity|lia]).
  assert (x ≠ m_data view) as Nxa
    by (apply (NoDup_apart _ 2 0 _ _ Hnd3); [reflexivity|reflexivity|lia]).
  assert (x ≠ b) as Nxb
    by (apply (NoDup_apart _ 2 1 _ _ Hnd3); [reflexivity|reflexivity|lia]).
  destruct (SVD_ctor_returns bk view h A ltac:(lia) ltac:(lia) Br Bc HA Hq)
    as (self & h1 & E).
  destruct (SVD_ctor_inv bk view h self h1 E)
    as (Hv & Hldu & Hldvt & _ & _
        & (S0 & U0 & VT0 & W0 & HS & LS & HU & LU & HVT & LVT & HW & _) & K).
  rewrite (int_mul_small (m_nr view) (m_nr view)) in LU by nia.
  rewrite (int_mul_small (m_nc view) (m_nc view)) in LVT by nia.
  destruct (SVD_ctor_fresh view h self h1 A E HA) as (Hnd & Hold).
  destruct (sizes_kept_lookup _ _ _ _ K HA) as (A1 & HA1 & _).
  destruct (Hold _ _ HB) as (Nb & HB1). specialize (HB1 Nba).
  destruct (Hold _ _ HX) as (Nx & HX1). specialize (HX1 Nxa).
  assert (svd_allocated self h1 A1 S0 U0 VT0 W0) as R
    by (constructor; rewrite ?Hv; try assumption; lia).
  destruct (SVD_factorize_run bk self h1 A1 S0 U0 VT0 W0 R) as (h2 & E2 & HS2).
  set (S2 := singular_values_after bk self A1 S0 U0 VT0 W0) in *.
  assert (length S2 = Z.to_nat (Z.min (m_nr view) (m_nc view))) as LS2
    by (unfold S2, singular_values_after; rewrite overwrite_length; exact LS).
  destruct (SVD_factorize_settled bk self h1 _ h2 E2) as (_ & K2).
  destruct (sizes_kept_lookup _ _ _ _ K2 HU) as (U2 & HU2 & LU2).
  destruct (sizes_kept_lookup _ _ _ _ K2 HVT) as (VT2 & HVT2 & LVT2).
  destruct (SVD_factorize_same_except self _ _ _ E2) as (F2 & _).
  assert (reals h2 !! b = Some B) as HB2.
  { rewrite F2; [exact HB1|]. rewrite Hv.
    apply not_elem_of_cons. split; [exact Nba|exact Nb]. }
  assert (reals h2 !! x = Some X) as HX2.
  { rewrite F2; [exact HX1|]. rewrite Hv.
    apply not_elem_of_cons. split; [exact Nxa|exact Nx]. }
  match type of E2 with
  | _ = Ok (_, ?s') _ => set (self' := s') in *
  end.
  assert (svd_ready self' b x h2 U2 S2 VT2 B X) as R2.
  { constructor; simpl; rewrite ?Hv, ?Hldu, ?Hldvt; try assumption; try lia.
    apply not_elem_of_cons in Nx as (N1 & Nx).
    apply not_elem_of_cons in Nx as (N2 & Nx).
    apply not_elem_of_cons in Nx as (N3 & _). apart. }
  pose proof (SVD_solve_square self' b x h2 U2 S2 VT2 B X R2) as E3.
  simpl in E3. rewrite Hv in E3. specialize (E3 (eq_sym Hsq)).
  eexists self, h1, _, self', h2, _, U2, S2, VT2.
  split; [exact E|]. split; [exact E2|].
  split; [exact HU2|]. split; [exact HS2|]. split; [exact HVT2|].
  split; [exact E3|]. simpl. split; [apply lookup_insert_eq|].
  rewrite lookup_insert_ne by exact Nxb. exact HB2.
Qed.
End SVDMore.

Section SVDSolveMany.
Context {Real_t : Type} `{RealOps Real_t}.
Implicit Types h : heap Real_t.
Import DenseMatrix SVD.

(** X13.  Factorize once, solve many times: on a square view two calls of
    [solve] in a row, with right-hand sides [b1], [b2] and outputs [x1],
    [x2], both return 0; afterwards [x1] holds [V Σ⁻¹ Uᵀ b1] and [x2] holds
    [V Σ⁻¹ Uᵀ b2], and every other array is as it was before the first
    call: the temporary of each call is gone when the call returns. *)
Theorem SVD_solve_many (self : t Real_t) (b1 x1 b2 x2 : loc) h
    U S VT B1 X1 B2 X2 :
  let v := m_view self in
  let n := Z.to_nat (m_nr v) in
  svd_ready self b1 x1 h U S VT B1 X1 →
  svd_ready self b2 x2 h U S VT B2 X2 →
  m_nr v = m_nc v → x1 ≠ x2 → x1 ≠ b2 →
  ∃ h1 h2,
    solve self b1 x1 h = Ok 0 h1
    ∧ solve self b2 x2 h1 = Ok 0 h2
    ∧ reals h2 !! x1 = Some (V_Sinv_Ut U S VT n B1)
    ∧ reals h2 !! x2 = Some (V_Sinv_Ut U S VT n B2)
    ∧ ∀ p, p ≠ x1 → p ≠ x2 → reals h2 !! p = reals h !! p.
Proof.
  intros v n R1 R2 Hsq N12 N1b.
  pose proof (SVD_solve_square self b1 x1 h U S VT B1 X1 R1 Hsq) as E1.
  fold v n in E1.
  match type of E1 with _ = Ok 0 ?hh => set (h1 := hh) in * end.
  assert (x1 ∉ [m_s self; m_u self; m_vt self; b1]) as A1
    by (destruct R1; assumption).
  apply not_elem_of_cons in A1 as (N1s & A1).
  apply not_elem_of_cons in A1 as (N1u & A1).
  apply not_elem_of_cons in A1 as (N1v & _).
  assert (∀ p, p ≠ x1 → reals h1 !! p = reals h !! p) as F1.
  { intros p Hp. unfold h1. simpl. apply lookup_insert_ne. congruence. }
  assert (svd_ready self b2 x2 h1 U S VT B2 X2) as R2'.
  { destruct R2. constructor; try assumption.
    - rewrite F1 by congruence. assumption.
    - rewrite F1 by congruence. assumption.
    - rewrite F1 by congruence. assumption.
    - rewrite F1 by congruence. assumption.
    - rewrite F1 by congruence. assumption. }
  pose proof (SVD_solve_square self b2 x2 h1 U S VT B2 X2 R2' Hsq) as E2.
  fold v n in E2.
  eexists h1, _. split; [exact E1|]. split; [exact E2|]. simpl.
  split; [|split].
  - rewrite lookup_insert_ne by congruence. apply lookup_insert_eq.
  - apply lookup_insert_eq.
  - intros p P1 P2. rewrite lookup_insert_ne by congruence.
    apply lookup_insert_ne. congruence.
Qed.
End SVDSolveMany.

Section SVDInPlace.
Context {Real_t : Type} `{RealOps Real_t}.
Implicit Types h : heap Real_t.
Import DenseMatrix SVD.

(** X14.  [SVD::solve] may be called in place, with [x] the same array as
    [b]: on a square view of order [n] it returns 0 and [b] holds
    [V Σ⁻¹ Uᵀ b] of its former content.  [b] is read only by the first
    product, whose result goes to the temporary, and [x] is written only by
    the second.  [b] is none of the instance's buffers. *)
Theorem SVD_solve_in_place (self : t Real_t) (b : loc) h U S VT B :
  let v := m_view self in
  let n := Z.to_nat (m_nr v) in
  let y1 := fresh (dom (reals h)) in
  0 ≤ m_nr v → m_nc v = m_nr v →
  m_ldu self = m_nr v → m_ldvt self = m_nc v →
  reals h !! m_s self = Some S → length S = n →
  reals h !! m_u self = Some U → length U = (n * n)%nat →
  reals h !! m_vt self = Some VT → length VT = (n * n)%nat →
  reals h !! b = Some B → length B = n →
  (b ∉ [m_s self; m_u self; m_vt self]) →
  solve self b b h
  = Ok 0 (Heap (<[b := V_Sinv_Ut U S VT n B]> (reals h)) (ints h)
               (trace h ++ [EvAlloc y1 n; EvCall Gemv; EvCall Gemv; EvFree y1])).
Proof.
  intros v n y1 Hnr Hsq Hldu Hldvt HS LS HU LU HVT LVT HB LB _.
  fold v in Hnr, Hsq, Hldu, Hldvt.
  assert (m_nr v = Z.of_nat n) as En by (unfold n; lia).
  assert (m_u self ≠ y1) as Nu by exact (fresh_apart _ _ _ HU).
  assert (m_s self ≠ y1) as Ns by exact (fresh_apart _ _ _ HS).
  assert (m_vt self ≠ y1) as Nvt by exact (fresh_apart _ _ _ HVT).
  assert (b ≠ y1) as Nb by exact (fresh_apart _ _ _ HB).
  unfold solve. fold v. rewrite Hldvt, Hsq, Hldu, En.
  rewrite (bind_ok _ _ _ _ _ (buffer_factory_ok h n)). fold y1.
  set (hA := upd (log h (EvAlloc y1 n)) y1 (replicate n (of_int 0))).
  set (Y1 := transpose_times U n n B <$> seq 0 n).
  assert (length Y1 = n) as LY1
    by (unfold Y1; rewrite length_fmap, length_seq; reflexivity).
  set (hB := upd (log hA (EvCall Gemv)) y1 Y1).
  rewrite (bind_ok _ _ _ tt hB).
  2:{ rewrite (call_gemv_ok _ _ _ _ _ _ _ _ _ _ _ hA U B
                 (replicate n (of_int 0))
                 (Y1 ++ drop n (replicate n (of_int 0)))).
      - rewrite drop_ge, app_nil_r by (rewrite length_replicate; lia).
        rewrite overwrite_same_length;
          [reflexivity | rewrite LY1, length_replicate; reflexivity].
      - unfold hA. rewrite reals_upd_ne by congruence. exact HU.
      - unfold hA. rewrite reals_upd_ne by congruence. exact HB.
      - apply reals_upd.
      - apply gemv_transposed.
        + lia.
        + rewrite length_replicate. lia.
        + intros i j Hi Hj. rewrite LU. apply entry_in_bounds; assumption. }
  assert (reals hB !! y1 = Some Y1) as HY1 by apply reals_upd.
  assert (∀ p, p ≠ y1 → reals hB !! p = reals h !! p) as Hframe.
  { intros p Hp. unfold hB, hA. rewrite reals_upd_ne by congruence.
    rewrite reals_log. rewrite reals_upd_ne by congruence.
    rewrite reals_log. reflexivity. }
  set (Y2 := scaled_projection U S n B).
  rewrite (bind_ok _ _ _ tt (upd hB y1 Y2)).
  2:{ rewrite (divide_by_singular_values_run self y1 hB Y1 S); fold v.
      - f_equal. f_equal. rewrite LY1. unfold Y2, scaled_projection.
        apply list_fmap_ext. intros i k Hk.
        apply lookup_seq in Hk as [-> Hk]. simpl.
        unfold Y1. rewrite elem_fmap_seq by lia. reflexivity.
      - exact HY1.
      - rewrite Hframe by exact Ns. exact HS.
      - exact LY1.
      - rewrite LS. unfold n. lia.
      - congruence.
      - lia. }
  rewrite (bind_ok _ _ _ tt
             (upd (log (upd hB y1 Y2) (EvCall Gemv)) b (V_Sinv_Ut U S VT n B))).
  - rewrite bind_unfold. unfold buffer_release. rewrite mret_unfold.
    f_equal. unfold upd, log, hB, hA. simpl. fold y1. f_equal.
    + rewrite delete_insert_ne by congruence.
      rewrite !insert_insert_eq, delete_insert_id by apply fresh_unused.
      reflexivity.
    + rewrite <- !app_assoc. reflexivity.
  - rewrite (call_gemv_ok _ _ _ _ _ _ _ _ _ _ _ (upd hB y1 Y2) VT Y2 B
               ((transpose_times VT n n Y2 <$> seq 0 n) ++ drop n B)).
    + rewrite drop_ge, app_nil_r by lia.
      rewrite overwrite_same_length;
        [reflexivity | rewrite length_fmap, length_seq; lia].
    + rewrite reals_upd_ne by congruence. rewrite Hframe by exact Nvt.
      exact HVT.
    + apply reals_upd.
    + rewrite reals_upd_ne by congruence. rewrite Hframe by exact Nb.
      exact HB.
    + apply gemv_transposed.
      * unfold Y2, scaled_projection. rewrite length_fmap, length_seq. lia.
      * lia.
      * intros i j Hi Hj. rewrite LVT. apply entry_in_bounds; assumption.
Qed.
End SVDInPlace.

(** ** DiagonalInv: vectors shorter than the view *)

Section DiagonalInvBounds.
Context {Real_t : Type} `{RealOps Real_t}.
Implicit Types h : heap Real_t.
Import DiagonalMatrix DiagonalInv.

(** X15.  [DiagonalInv::solve] runs over [m_nc] entries of the view's
    array, of [b] and of [x] without comparing their sizes: when one of the
    three has fewer than [m_nc] entries, the loop runs past the end of the
    shortest. *)
Theorem DiagonalInv_solve_short_vector (self : t) (b x : loc) h D B X :
  let v := m_view self in
  let n := Z.to_nat (m_nc v) in
  reals h !! m_data v = Some D → reals h !! b = Some B →
  reals h !! x = Some X → x ≠ m_data v → x ≠ b →
  (length D < n ∨ length B < n ∨ length X < n)%nat →
  solve self b x h = Fault OutOfBounds.
Proof.
  intros v n HD HB HX Hxd Hxb Hshort. unfold solve, for_range. fold v n.
  apply bind_fault.
  set (m := (length D `min` (length B `min` length X))%nat).
  set (g := λ i, rmul (elem D i) (elem B i)).
  apply (for_loop_fault
           (λ i h', h' = upd h x ((g <$> seq 0 i) ++ drop i X))
           _ OutOfBounds m n 0 h).
  - simpl. rewrite drop_0. symmetry. apply upd_id. exact HX.
  - lia.
  - intros i hi Hi ->.
    destruct (lookup_lt_is_Some_2 D i ltac:(lia)) as [d Hd].
    destruct (lookup_lt_is_Some_2 B i ltac:(lia)) as [bi Hbi].
    set (L := (g <$> seq 0 i) ++ drop i X).
    eexists. split.
    + rewrite (bind_ok _ _ _ d (upd h x L)).
      2:{ apply (load_ok _ _ D); [rewrite reals_upd_ne by exact Hxd; exact HD|exact Hd]. }
      rewrite (bind_ok _ _ _ bi (upd h x L)).
      2:{ apply (load_ok _ _ B); [rewrite reals_upd_ne by exact Hxb; exact HB|exact Hbi]. }
      apply (store_ok _ _ L);
        [apply reals_upd | unfold L; rewrite prefix_length; lia].
    + rewrite upd_upd. f_equal.
      replace (rmul d bi) with (g i)
        by (unfold g, elem; rewrite Hd, Hbi; reflexivity).
      apply prefix_insert. lia.
  - intros h' ->. set (L := (g <$> seq 0 m) ++ drop m X).
    destruct (decide (length D ≤ m)%nat) as [HsD|HlD].
    { apply bind_fault. apply (load_oob _ _ D); [|exact HsD].
      rewrite reals_upd_ne by exact Hxd. exact HD. }
    destruct (lookup_lt_is_Some_2 D m ltac:(lia)) as [d Hd].
    rewrite (bind_ok _ _ _ d (upd h x L)).
    2:{ apply (load_ok _ _ D); [rewrite reals_upd_ne by exact Hxd; exact HD|exact Hd]. }
    destruct (decide (length B ≤ m)%nat) as [HsB|HlB].
    { apply bind_fault. apply (load_oob _ _ B); [|exact HsB].
      rewrite reals_upd_ne by exact Hxb. exact HB. }
    destruct (lookup_lt_is_Some_2 B m ltac:(lia)) as [bi Hbi].
    rewrite (bind_ok _ _ _ bi (upd h x L)).
    2:{ apply (load_ok _ _ B); [rewrite reals_upd_ne by exact Hxb; exact HB|exact Hbi]. }
    apply (store_oob _ _ L);
      [apply reals_upd | unfold L; rewrite prefix_length; lia].
Qed.
End DiagonalInvBounds.

(** ** The further properties on concrete systems *)

Section FurtherExamples.
Import Examples MoreExamples.

(** Closes an equation between two explicit lists of rationals. *)
Local Ltac qc_list :=
  repeat (apply (f_equal2 cons); [apply Qc_is_canon; reflexivity|]);
  reflexivity.

Lemma DiagonalInv_factorize_first_entries_witness :
  DiagonalInv.factorize (diag_inv 0) hq = Ok 0 hq
  ∧ DiagonalInv.factorize (diag_inv 2) hq
    = Ok 0 (upd hq 1%positive [Q2Qc (1 # 2); Q2Qc (-1 # 3); Q2Qc (1 # 2)]).
Proof.
  split.
  - apply (proj1 (DiagonalInv_factorize_first_entries (diag_inv 0) hq)).
    vm_compute. discriminate.
  - etransitivity.
    + apply (proj2 (DiagonalInv_factorize_first_entries (diag_inv 2) hq)
               [Q2Qc 2; Q2Qc (-3); Q2Qc (1 # 2)]).
      * reflexivity.
      * simpl. lia.
    + vm_compute. reflexivity.
Defined.

Lemma DiagonalInv_factorize_short_array_witness :
  DiagonalInv.factorize (diag_inv 3) h49 = Fault OutOfBounds.
Proof.
  apply (DiagonalInv_factorize_short_array (diag_inv 3) h49 [49%float]).
  - reflexivity.
  - simpl. lia.
Defined.

Lemma DiagonalInv_solve_in_place_witness :
  DiagonalInv.solve (diag_inv 3) 2%positive 2%positive hq
  = Ok 0 (upd hq 2%positive [Q2Qc 2; Q2Qc (-3); Q2Qc (1 # 2)]).
Proof.
  etransitivity.
  - apply (DiagonalInv_solve_in_place (diag_inv 3) 2%positive hq
             [Q2Qc 2; Q2Qc (-3); Q2Qc (1 # 2)] [Q2Qc 1; Q2Qc 1; Q2Qc 1]).
    + reflexivity.
    + reflexivity.
    + reflexivity.
    + reflexivity.
    + discriminate.
  - vm_compute. reflexivity.
Defined.

Lemma DiagonalInv_solves_independent_witness :
  ∃ h',
    (DiagonalInv.solve (diag_inv 2) 2%positive 3%positive
       ≫= λ _, DiagonalInv.solve (diag_inv 2) 4%positive 5%positive) hpair
    = Ok 0 h'
    ∧ (DiagonalInv.solve (diag_inv 2) 4%positive 5%positive
         ≫= λ _, DiagonalInv.solve (diag_inv 2) 2%positive 3%positive) hpair
      = Ok 0 h'
    ∧ reals h' !! 3%positive = Some [Q2Qc 1; Q2Qc 1]
    ∧ reals h' !! 5%positive = Some [Q2Qc 3; Q2Qc 2].
Proof.
  destruct (DiagonalInv_solves_independent (diag_inv 2) 2%positive 3%positive
              4%positive 5%positive hpair
              [Q2Qc (1 # 2); Q2Qc (1 # 4)] [Q2Qc 2; Q2Qc 4] [Q2Qc 0; Q2Qc 0]
              [Q2Qc 6; Q2Qc 8] [Q2Qc 0; Q2Qc 0]
              eq_refl eq_refl eq_refl eq_refl eq_refl
              eq_refl eq_refl eq_refl eq_refl eq_refl)
    as (h' & E1 & E2 & H1 & H2).
  - simpl. repeat (apply NoDup_cons_2; [apart|]). apply NoDup_nil_2.
  - exists h'. split; [exact E1|]. split; [exact E2|]. split.
    + etransitivity; [exact H1|]. f_equal. simpl. qc_list.
    + etransitivity; [exact H2|]. f_equal. simpl. qc_list.
Defined.

Lemma DiagonalInv_round_trip_witness :
  ∃ h',
    (DiagonalInv.factorize (diag_inv 3)
       ≫= λ _, DiagonalInv.solve (diag_inv 3) 2%positive 3%positive) hround
    = Ok 0 h'
    ∧ reals h' !! 3%positive = Some [Q2Qc 5; Q2Qc 7; Q2Qc 9].
Proof.
  apply (DiagonalInv_round_trip (diag_inv 3) 2%positive 3%positive hround
           [Q2Qc 2; Q2Qc (-3); Q2Qc (1 # 2)] [Q2Qc 5; Q2Qc 7; Q2Qc 9]
           [Q2Qc 0; Q2Qc 0; Q2Qc 0]).
  - intros a c Ha. simpl. change (Exact.Qc_of_int 1) with 1%Qc.
    change (Exact.Qc_of_int 0) with 0%Qc in Ha. field. exact Ha.
  - reflexivity.
  - reflexivity.
  - reflexivity.
  - reflexivity.
  - reflexivity.
  - reflexivity.
  - discriminate.
  - discriminate.
  - discriminate.
  - repeat constructor; discriminate.
Defined.

Lemma DenseLU_factorize_then_solve_witness :
  ∃ h1 h2,
    DenseLU.factorize DiagBackend.backend dense_lu hlu = Ok 0 h1
    ∧ DenseLU.solve DiagBackend.backend dense_lu 2%positive 3%positive h1
      = Ok 0 h2
    ∧ reals h2 !! 3%positive = Some [1; 1]%float
    ∧ reals h2 !! 2%positive = Some [2; 4]%float
    ∧ trace h2 = [EvCall Getrf; EvCall Getrs].
Proof.
  destruct (DenseLU_factorize_then_solve DiagBackend.backend dense_lu
              2%positive 3%positive hlu [2; 0; 0; 4]%float [1; 2]
              [2; 4]%float [0; 0]%float
              eq_refl eq_refl eq_refl eq_refl)
    as (h1 & h2 & E1 & E2 & Hx & Hb & Ht).
  - simpl. lia.
  - simpl. lia.
  - simpl. repeat (apply NoDup_cons_2; [apart|]). apply NoDup_nil_2.
  - exists h1, h2. split; [exact E1|]. split; [exact E2|].
    split; [|split; [exact Hb|exact Ht]].
    etransitivity; [exact Hx|]. vm_compute. reflexivity.
Defined.

Lemma DenseLU_solve_result_witness :
  DenseLU.solve DiagBackend.backend dense_lu 2%positive 3%positive hlu
  = Ok 0 (log (upd hlu 3%positive [1; 1]%float) (EvCall Getrs)).
Proof.
  etransitivity.
  - apply (DenseLU_solve_result DiagBackend.backend dense_lu
             2%positive 3%positive hlu [2; 0; 0; 4]%float [1; 2]
             [2; 4]%float [0; 0]%float).
    + exact diag_backend_reads_factors.
    + reflexivity.
    + reflexivity.
    + reflexivity.
    + reflexivity.
    + simpl. lia.
    + simpl. lia.
    + discriminate.
    + discriminate.
  - vm_compute. reflexivity.
Defined.

Lemma LU_solve_short_vector_witness :
  DenseLU.solve DiagBackend.backend dense_lu 2%positive 3%positive h49
  = Fault OutOfBounds
  ∧ BandedLU.solve DiagBackend.backend banded_lu 2%positive 3%positive h49
    = Fault OutOfBounds.
Proof.
  destruct (LU_solve_short_vector DiagBackend.backend 2%positive 3%positive
              h49 [49%float] [0%float] eq_refl eq_refl ltac:(discriminate))
    as (Hd & Hb).
  split.
  - apply (Hd dense_lu). simpl. lia.
  - apply (Hb banded_lu). simpl. lia.
Defined.

Lemma BandedLU_factorize_then_solve_witness :
  ∃ h1 h2,
    BandedLU.factorize DiagBackend.backend banded_lu hband = Ok 0 h1
    ∧ BandedLU.solve DiagBackend.backend banded_lu 2%positive 3%positive h1
      = Ok 0 h2
    ∧ reals h2 !! 3%positive = Some [1; 1]%float
    ∧ reals h2 !! 2%positive = Some [2; 4]%float
    ∧ trace h2 = [EvCall Gbtrf; EvCall Gbtrs].
Proof.
  destruct (BandedLU_factorize_then_solve DiagBackend.backend banded_lu
              2%positive 3%positive hband [2; 4]%float [0; 0]
              [2; 4]%float [0; 0]%float
              eq_refl eq_refl eq_refl eq_refl)
    as (h1 & h2 & E1 & E2 & Hx & Hb & Ht).
  - simpl. lia.
  - simpl. lia.
  - simpl. repeat (apply NoDup_cons_2; [apart|]). apply NoDup_nil_2.
  - exists h1, h2. split; [exact E1|]. split; [exact E2|].
    split; [|split; [exact Hb|exact Ht]].
    etransitivity; [exact Hx|]. vm_compute. reflexivity.
Defined.

Lemma SVD_ctor_establishes_allocated_witness :
  ∃ self h',
    SVD.ctor DiagBackend.backend (dense_view 2 2) hsystem = Ok self h'
    ∧ SVD.m_view self = dense_view 2 2
    ∧ (∃ A' S U VT W, svd_allocated self h' A' S U VT W)
    ∧ ∀ p l, reals hsystem !! p = Some l →
             (p ∉ [SVD.m_s self; SVD.m_u self; SVD.m_vt self; SVD.m_work self])
             ∧ (p ≠ 1%positive → reals h' !! p = Some l).
Proof.
  apply (SVD_ctor_establishes_allocated DiagBackend.backend (dense_view 2 2)
           hsystem [4; 0; 0; 2]%float).
  - simpl. lia.
  - simpl. lia.
  - vm_compute. discriminate.
  - vm_compute. discriminate.
  - reflexivity.
  - exact diag_backend_answers_query.
Defined.

Lemma SVD_factorize_empty_view_witness :
  ∃ self h1,
    SVD.ctor DiagBackend.backend (dense_view 0 2) hwide = Ok self h1
    ∧ SVD.factorize DiagBackend.backend self h1 = Fault OutOfBounds.
Proof.
  apply (SVD_factorize_empty_view DiagBackend.backend (dense_view 0 2)
           hwide [1%float; 0%float]).
  - simpl. lia.
  - simpl. lia.
  - reflexivity.
  - vm_compute. discriminate.
  - vm_compute. discriminate.
  - reflexivity.
  - exact diag_backend_answers_query.
Defined.

Lemma SVD_construct_factorize_solve_witness :
  ∃ self h1 info self' h2 h3 U S VT,
    SVD.ctor DiagBackend.backend (dense_view 2 2) hsystem = Ok self h1
    ∧ SVD.factorize DiagBackend.backend self h1 = Ok (info, self') h2
    ∧ reals h2 !! SVD.m_u self' = Some U
    ∧ reals h2 !! SVD.m_s self' = Some S
    ∧ reals h2 !! SVD.m_vt self' = Some VT
    ∧ SVD.solve self' 2%positive 3%positive h2 = Ok 0 h3
    ∧ reals h3 !! 3%positive = Some (V_Sinv_Ut U S VT 2 [8; 6]%float)
    ∧ reals h3 !! 2%positive = Some [8; 6]%float.
Proof.
  apply (SVD_construct_factorize_solve DiagBackend.backend (dense_view 2 2)
           2%positive 3%positive hsystem [4; 0; 0; 2]%float [8; 6]%float
           [0; 0]%float).
  - simpl. lia.
  - reflexivity.
  - vm_compute. discriminate.
  - reflexivity.
  - reflexivity.
  - reflexivity.
  - reflexivity.
  - reflexivity.
  - simpl. repeat (apply NoDup_cons_2; [apart|]). apply NoDup_nil_2.
  - exact diag_backend_answers_query.
Defined.

Lemma hmany_ready_first :
  svd_ready (svd_at 2 2 1 2%float) 2%positive 3%positive hmany
            [1; 0; 0; 1]%float [4; 2]%float [1; 0; 0; 1]%float
            [8; 6]%float [0; 0]%float.
Proof.
  constructor; try reflexivity; try (simpl; lia). simpl. apart.
Defined.

Lemma hmany_ready_second :
  svd_ready (svd_at 2 2 1 2%float) 8%positive 9%positive hmany
            [1; 0; 0; 1]%float [4; 2]%float [1; 0; 0; 1]%float
            [4; 2]%float [0; 0]%float.
Proof.
  constructor; try reflexivity; try (simpl; lia). simpl. apart.
Defined.

Lemma SVD_solve_many_witness :
  ∃ h1 h2,
    SVD.solve (svd_at 2 2 1 2%float) 2%positive 3%positive hmany = Ok 0 h1
    ∧ SVD.solve (svd_at 2 2 1 2%float) 8%positive 9%positive h1 = Ok 0 h2
    ∧ reals h2 !! 3%positive = Some [2; 3]%float
    ∧ reals h2 !! 9%positive = Some [1; 1]%float
    ∧ ∀ p, p ≠ 3%positive → p ≠ 9%positive →
           reals h2 !! p = reals hmany !! p.
Proof.
  destruct (SVD_solve_many (svd_at 2 2 1 2%float) 2%positive 3%positive
              8%positive 9%positive hmany _ _ _ _ _ _ _
              hmany_ready_first hmany_ready_second
              eq_refl ltac:(discriminate) ltac:(discriminate))
    as (h1 & h2 & E1 & E2 & H1 & H2 & F).
  exists h1, h2. split; [exact E1|]. split; [exact E2|].
  split; [|split; [|exact F]].
  - etransitivity; [exact H1|]. vm_compute. reflexivity.
  - etransitivity; [exact H2|]. vm_compute. reflexivity.
Defined.

Lemma SVD_solve_in_place_witness :
  SVD.solve (svd_at 2 2 1 2%float) 2%positive 2%positive hfull
  = Ok 0 (Heap (<[2%positive := [2; 3]%float]> (reals hfull)) ∅
               [EvAlloc 8%positive 2; EvCall Gemv; EvCall Gemv;
                EvFree 8%positive]).
Proof.
  etransitivity.
  - apply (SVD_solve_in_place (svd_at 2 2 1 2%float) 2%positive hfull
             [1; 0; 0; 1]%float [4; 2]%float [1; 0; 0; 1]%float
             [8; 6]%float);
      try reflexivity; try (simpl; lia).
    simpl. apart.
  - vm_compute. reflexivity.
Defined.

Lemma DiagonalInv_solve_short_vector_witness :
  DiagonalInv.solve (diag_inv 3) 2%positive 3%positive h49
  = Fault OutOfBounds.
Proof.
  apply (DiagonalInv_solve_short_vector (diag_inv 3) 2%positive 3%positive
           h49 [49%float] [49%float] [0%float]);
    try reflexivity; try discriminate.
  left. simpl. lia.
Defined.
End FurtherExamples.
